(** * v0.diy: the streaming completion core

    A shallow embedding of the provider router and message normaliser
    (lib/ai-provider), the streaming route handler (app/api/chat/route),
    and the client-side event-stream consumer and chat-id recovery
    (hooks/use-chat and the chat-messages component), with the properties
    the design document states about them.

    JavaScript strings are sequences of UTF-16 code units, byte buffers are
    sequences of bytes.  Platform functions the code calls ([TextDecoder],
    [TextEncoder], [JSON.parse], [JSON.stringify], [String.prototype.trim],
    ...) live in module [JS] and follow ECMA-262 and the WHATWG Encoding
    Standard. *)

From Stdlib Require Import List NArith ZArith Zify Bool String Ascii Lia Arith Sorted Permutation.
From Stdlib.Strings Require Byte.
From Stdlib.Numbers Require DecimalString DecimalNat.
Import ListNotations.

Set Implicit Arguments.

(* ================================================================== *)
(** * Part I: definitions                                              *)
(* ================================================================== *)

(** ** JavaScript values and platform functions *)

Module JS.

(** A string value: its UTF-16 code units, in order. *)
Definition jsstring := list N.

(** A [Uint8Array]. *)
Definition bytes := list Byte.byte.

(** String literals of the source. *)
Definition str (s : string) : jsstring :=
  map N_of_ascii (list_ascii_of_string s).

(** The string ["\n"]. *)
Definition LF : jsstring := [10%N].

(** [a === b] on two strings. *)
Fixpoint eqb (a b : jsstring) : bool :=
  match a, b with
  | [], [] => true
  | x :: a', y :: b' => N.eqb x y && eqb a' b'
  | _, _ => false
  end.

(** [s.length] *)
Definition length (s : jsstring) : N := N.of_nat (List.length s).

(** [s.startsWith(p)] *)
Fixpoint startsWith (p s : jsstring) : bool :=
  match p, s with
  | [], _ => true
  | x :: p', y :: s' => N.eqb x y && startsWith p' s'
  | _ :: _, [] => false
  end.

(** [s.includes(p)] *)
Fixpoint includes (p s : jsstring) : bool :=
  startsWith p s ||
  match s with
  | [] => false
  | _ :: s' => includes p s'
  end.

(** [s.slice(n)] for a non-negative [n]. *)
Definition slice (n : nat) (s : jsstring) : jsstring := skipn n s.

(** [s.split("\n")]: the segments between line feeds; never empty. *)
Fixpoint split_lines (s : jsstring) : list jsstring :=
  match s with
  | [] => [[]]
  | c :: s' =>
      if N.eqb c 10 then [] :: split_lines s'
      else match split_lines s' with
           | [] => [[c]]
           | l :: ls => (c :: l) :: ls
           end
  end.

(** [parts.join(sep)] *)
Fixpoint join (sep : jsstring) (parts : list jsstring) : jsstring :=
  match parts with
  | [] => []
  | [p] => p
  | p :: ps => p ++ sep ++ join sep ps
  end.

(** WhiteSpace and LineTerminator code points (ECMA-262 12.2, 12.3), the
    ones [trim] strips. *)
Definition is_trim_space (c : N) : bool :=
  ((9 <=? c) && (c <=? 13) || (c =? 32) || (c =? 160) || (c =? 5760)
   || ((8192 <=? c) && (c <=? 8202)) || (c =? 8232) || (c =? 8233)
   || (c =? 8239) || (c =? 8287) || (c =? 12288) || (c =? 65279))%N.

Fixpoint trimStart (s : jsstring) : jsstring :=
  match s with
  | c :: s' => if is_trim_space c then trimStart s' else s
  | [] => []
  end.

Definition trimEnd (s : jsstring) : jsstring := rev (trimStart (rev s)).

(** [s.trim()] *)
Definition trim (s : jsstring) : jsstring := trimEnd (trimStart s).

(** [s.toLowerCase()] on the code units the router can tell apart: the
    letters A-Z map to a-z.  Every other code unit is left alone.  (The
    Unicode case mapping sends no character outside A-Z to ASCII letters
    alone, other than U+212A to k, and the router only compares the result
    with names made of the letters a c d e g i l m n o p u.) *)
Definition toLowerCase (s : jsstring) : jsstring :=
  map (fun c => if (65 <=? c) && (c <=? 90) then c + 32 else c)%N s.

(** ToBoolean on a string, and on a possibly undefined string. *)
Definition truthy (s : jsstring) : bool :=
  match s with [] => false | _ :: _ => true end.

Definition truthy_opt (s : option jsstring) : bool :=
  match s with Some s => truthy s | None => false end.

(** Values that [JSON.parse] builds.  A number keeps its source text;
    an object keeps its own properties in enumeration order. *)
#[warnings="-register-all"]
Inductive JValue : Type :=
| JNull
| JBool (b : bool)
| JNum (lexeme : jsstring)
| JStr (s : jsstring)
| JArr (elems : list JValue)
| JObj (props : list (jsstring * JValue)).

(** [obj[key]] on own properties. *)
Fixpoint get (key : jsstring) (props : list (jsstring * JValue)) : option JValue :=
  match props with
  | [] => None
  | (k, v) :: ps => if eqb k key then Some v else get key ps
  end.

(** *** UTF-8 (WHATWG Encoding Standard) *)

Definition N_of_byte (b : Byte.byte) : N := Byte.to_N b.

Definition byte_of_N (n : N) : Byte.byte :=
  match Byte.of_N n with Some b => b | None => Byte.x00 end.

(** The bytes of a literal, as written (a literal holds UTF-8). *)
Definition bytes_of (s : string) : bytes := list_byte_of_string s.

(** State of the UTF-8 decoder (Encoding Standard 9.1.1) together with the
    [BOM seen] flag of the [TextDecoder] that owns it. *)
Record TextDecoder : Type := {
  code_point : N;
  bytes_seen : N;
  bytes_needed : N;
  lower_boundary : N;
  upper_boundary : N;
  BOM_seen : bool
}.

(** [new TextDecoder()] *)
Definition new_TextDecoder : TextDecoder :=
  {| code_point := 0; bytes_seen := 0; bytes_needed := 0;
     lower_boundary := 128; upper_boundary := 191; BOM_seen := false |}.

Definition utf8_reset (d : TextDecoder) : TextDecoder :=
  {| code_point := 0; bytes_seen := 0; bytes_needed := 0;
     lower_boundary := 128; upper_boundary := 191; BOM_seen := BOM_seen d |}.

(** The handler on a byte when no bytes are needed: the new state and the
    scalar values emitted (U+FFFD for an error). *)
Definition utf8_lead (d : TextDecoder) (b : N) : TextDecoder * list N :=
  if (b <=? 127)%N then (d, [b])
  else if ((194 <=? b) && (b <=? 223))%N then
    ({| code_point := N.land b 31; bytes_seen := 0; bytes_needed := 1;
        lower_boundary := 128; upper_boundary := 191;
        BOM_seen := BOM_seen d |}, [])
  else if ((224 <=? b) && (b <=? 239))%N then
    ({| code_point := N.land b 15; bytes_seen := 0; bytes_needed := 2;
        lower_boundary := if (b =? 224)%N then 160 else 128;
        upper_boundary := if (b =? 237)%N then 159 else 191;
        BOM_seen := BOM_seen d |}, [])
  else if ((240 <=? b) && (b <=? 244))%N then
    ({| code_point := N.land b 7; bytes_seen := 0; bytes_needed := 3;
        lower_boundary := if (b =? 240)%N then 144 else 128;
        upper_boundary := if (b =? 244)%N then 143 else 191;
        BOM_seen := BOM_seen d |}, [])
  else (d, [65533%N]).

(** The handler on one byte.  A byte outside the expected range ends the
    pending sequence with an error and is then read again. *)
Definition utf8_handler (d : TextDecoder) (b : N) : TextDecoder * list N :=
  if (bytes_needed d =? 0)%N then utf8_lead d b
  else if negb ((lower_boundary d <=? b) && (b <=? upper_boundary d))%N then
    let (d', out) := utf8_lead (utf8_reset d) b in (d', 65533%N :: out)
  else
    let cp := N.lor (N.shiftl (code_point d) 6) (N.land b 63) in
    if (bytes_seen d + 1 =? bytes_needed d)%N then (utf8_reset d, [cp])
    else
      ({| code_point := cp; bytes_seen := bytes_seen d + 1;
          bytes_needed := bytes_needed d;
          lower_boundary := 128; upper_boundary := 191;
          BOM_seen := BOM_seen d |}, []).

(** The UTF-16 code units of a scalar value. *)
Definition utf16_of_scalar (cp : N) : jsstring :=
  if (cp <? 65536)%N then [cp]
  else [55296 + N.shiftr (cp - 65536) 10; 56320 + N.land (cp - 65536) 1023]%N.

(** Appending decoded scalar values to the output string: the first one is
    dropped when it is the byte order mark (ignoreBOM is false). *)
Fixpoint serialize (d : TextDecoder) (items : list N) : TextDecoder * jsstring :=
  match items with
  | [] => (d, [])
  | item :: items' =>
      let seen := {| code_point := code_point d; bytes_seen := bytes_seen d;
                     bytes_needed := bytes_needed d;
                     lower_boundary := lower_boundary d;
                     upper_boundary := upper_boundary d; BOM_seen := true |} in
      let (d', out) := serialize seen items' in
      if negb (BOM_seen d) && (item =? 65279)%N then (d', out)
      else (d', utf16_of_scalar item ++ out)
  end.

(** [decoder.decode(value, { stream: true })]: bytes of an incomplete
    sequence at the end of [value] stay pending in the decoder. *)
Fixpoint decode_stream (d : TextDecoder) (value : bytes) : TextDecoder * jsstring :=
  match value with
  | [] => (d, [])
  | b :: value' =>
      let (d1, items) := utf8_handler d (N_of_byte b) in
      let (d2, text) := serialize d1 items in
      let (d3, text') := decode_stream d2 value' in
      (d3, text ++ text')
  end.

Definition is_high_surrogate (c : N) : bool := ((55296 <=? c) && (c <=? 56319))%N.
Definition is_low_surrogate (c : N) : bool := ((56320 <=? c) && (c <=? 57343))%N.

(** Conversion of a string to scalar values (Web IDL USVString): a
    surrogate pair is one scalar value, a lone surrogate becomes U+FFFD. *)
Fixpoint scalars_of_utf16 (s : jsstring) : list N :=
  match s with
  | [] => []
  | c :: rest =>
      if is_high_surrogate c then
        match rest with
        | c2 :: rest' =>
            if is_low_surrogate c2
            then (65536 + N.shiftl (c - 55296) 10 + (c2 - 56320))%N
                 :: scalars_of_utf16 rest'
            else 65533%N :: scalars_of_utf16 rest
        | [] => [65533%N]
        end
      else if is_low_surrogate c then 65533%N :: scalars_of_utf16 rest
      else c :: scalars_of_utf16 rest
  end.

Definition utf8_encode_scalar (cp : N) : bytes :=
  map byte_of_N
    (if (cp <? 128)%N then [cp]
     else if (cp <? 2048)%N then
       [N.lor 192 (N.shiftr cp 6); N.lor 128 (N.land cp 63)]
     else if (cp <? 65536)%N then
       [N.lor 224 (N.shiftr cp 12);
        N.lor 128 (N.land (N.shiftr cp 6) 63);
        N.lor 128 (N.land cp 63)]
     else
       [N.lor 240 (N.shiftr cp 18);
        N.lor 128 (N.land (N.shiftr cp 12) 63);
        N.lor 128 (N.land (N.shiftr cp 6) 63);
        N.lor 128 (N.land cp 63)]).

(** [new TextEncoder().encode(s)] *)
Definition TextEncoder_encode (s : jsstring) : bytes :=
  flat_map utf8_encode_scalar (scalars_of_utf16 s).

(** *** JSON.parse (ECMA-262 25.5.1, ECMA-404)

    One pass over the code units: a scanner state for the token being read
    and a stack of the arrays and objects still open. *)

Inductive token : Type :=
| TLBrace | TRBrace | TLBrack | TRBrack | TColon | TComma
| TTrue | TFalse | TNull
| TStr (s : jsstring)
| TNum (lexeme : jsstring).

(** An open array with its elements so far; an open object with its
    properties so far, waiting for a key ([FObj]) or for the value of
    [key] ([FKey]). *)
Inductive container : Type :=
| FArr (elems : list JValue)
| FObj (props : list (jsstring * JValue))
| FKey (props : list (jsstring * JValue)) (key : jsstring).

Inductive expect : Type :=
| EValue | EValueOrClose | EKeyOrClose | EKey | EColon | ECommaOrClose
| EDone (v : JValue).

Definition pstate : Type := list container * expect.

(** CreateDataProperty: a repeated key keeps its place and takes the later
    value. *)
Fixpoint define (props : list (jsstring * JValue)) (key : jsstring) (v : JValue)
  : list (jsstring * JValue) :=
  match props with
  | [] => [(key, v)]
  | (k, v0) :: ps => if eqb k key then (k, v) :: ps else (k, v0) :: define ps key v
  end.

(** A value is complete: it goes into the innermost open container. *)
Definition complete (stack : list container) (v : JValue) : option pstate :=
  match stack with
  | [] => Some ([], EDone v)
  | FArr es :: st => Some (FArr (es ++ [v]) :: st, ECommaOrClose)
  | FKey ps k :: st => Some (FObj (define ps k v) :: st, ECommaOrClose)
  | FObj _ :: _ => None
  end.

Definition scalar (t : token) : option JValue :=
  match t with
  | TStr s => Some (JStr s)
  | TNum l => Some (JNum l)
  | TTrue => Some (JBool true)
  | TFalse => Some (JBool false)
  | TNull => Some JNull
  | _ => None
  end.

Definition begin_value (stack : list container) (t : token) : option pstate :=
  match t with
  | TLBrack => Some (FArr [] :: stack, EValueOrClose)
  | TLBrace => Some (FObj [] :: stack, EKeyOrClose)
  | _ => match scalar t with Some v => complete stack v | None => None end
  end.

Definition close_array (stack : list container) : option pstate :=
  match stack with
  | FArr es :: st => complete st (JArr es)
  | _ => None
  end.

Definition close_object (stack : list container) : option pstate :=
  match stack with
  | FObj ps :: st => complete st (JObj ps)
  | _ => None
  end.

Definition begin_member (stack : list container) (k : jsstring) : option pstate :=
  match stack with
  | FObj ps :: st => Some (FKey ps k :: st, EColon)
  | _ => None
  end.

(** The grammar, one token at a time; [None] is a SyntaxError. *)
Definition feed (p : pstate) (t : token) : option pstate :=
  let (stack, e) := p in
  match e, t with
  | EValue, _ => begin_value stack t
  | EValueOrClose, TRBrack => close_array stack
  | EValueOrClose, _ => begin_value stack t
  | EKeyOrClose, TRBrace => close_object stack
  | EKeyOrClose, TStr k => begin_member stack k
  | EKey, TStr k => begin_member stack k
  | EColon, TColon => Some (stack, EValue)
  | ECommaOrClose, TComma =>
      match stack with
      | FArr _ :: _ => Some (stack, EValue)
      | FObj _ :: _ => Some (stack, EKey)
      | _ => None
      end
  | ECommaOrClose, TRBrack => close_array stack
  | ECommaOrClose, TRBrace => close_object stack
  | _, _ => None
  end.

(** Where the scanner is inside a number: an optional minus sign; then a
    single 0, or a digit 1-9 followed by digits; then optionally a dot and
    at least one digit; then optionally e or E, an optional sign, and at
    least one digit. *)
Inductive numst : Type :=
| NMinus | NZero | NInt | NDot | NFrac | NExpMark | NExpSign | NExp.

Definition is_digit (c : N) : bool := ((48 <=? c) && (c <=? 57))%N.

Definition num_next (st : numst) (c : N) : option numst :=
  let digit := is_digit c in
  let dot := (c =? 46)%N in
  let e := ((c =? 101) || (c =? 69))%N in
  let sign := ((c =? 43) || (c =? 45))%N in
  match st with
  | NMinus => if (c =? 48)%N then Some NZero else if digit then Some NInt else None
  | NZero => if dot then Some NDot else if e then Some NExpMark else None
  | NInt => if digit then Some NInt else if dot then Some NDot
            else if e then Some NExpMark else None
  | NDot => if digit then Some NFrac else None
  | NFrac => if digit then Some NFrac else if e then Some NExpMark else None
  | NExpMark => if sign then Some NExpSign else if digit then Some NExp else None
  | NExpSign => if digit then Some NExp else None
  | NExp => if digit then Some NExp else None
  end.

Definition num_complete (st : numst) : bool :=
  match st with
  | NZero | NInt | NFrac | NExp => true
  | _ => false
  end.

Inductive lexst : Type :=
| LStart
| LLit (rest : jsstring) (t : token)
| LString (acc : jsstring)
| LEscape (acc : jsstring)
| LHex (acc : jsstring) (value : N) (remaining : nat)
| LNumber (st : numst) (lexeme : jsstring).

Definition is_json_ws (c : N) : bool :=
  ((c =? 9) || (c =? 10) || (c =? 13) || (c =? 32))%N.

Definition hexval (c : N) : option N :=
  if is_digit c then Some (c - 48)%N
  else if ((97 <=? c) && (c <=? 102))%N then Some (c - 87)%N
  else if ((65 <=? c) && (c <=? 70))%N then Some (c - 55)%N
  else None.

(** The character a two-character escape stands for. *)
Definition unescape (c : N) : option N :=
  if (c =? 34)%N then Some 34%N            (* quotation mark *)
  else if (c =? 92)%N then Some 92%N       (* reverse solidus *)
  else if (c =? 47)%N then Some 47%N       (* solidus *)
  else if (c =? 98)%N then Some 8%N        (* b *)
  else if (c =? 102)%N then Some 12%N      (* f *)
  else if (c =? 110)%N then Some 10%N      (* n *)
  else if (c =? 114)%N then Some 13%N      (* r *)
  else if (c =? 116)%N then Some 9%N       (* t *)
  else None.

Definition emit (p : pstate) (t : token) : option (lexst * pstate) :=
  match feed p t with Some p' => Some (LStart, p') | None => None end.

(** The scanner between tokens. *)
Definition lex_start (p : pstate) (c : N) : option (lexst * pstate) :=
  if is_json_ws c then Some (LStart, p)
  else if (c =? 123)%N then emit p TLBrace
  else if (c =? 125)%N then emit p TRBrace
  else if (c =? 91)%N then emit p TLBrack
  else if (c =? 93)%N then emit p TRBrack
  else if (c =? 58)%N then emit p TColon
  else if (c =? 44)%N then emit p TComma
  else if (c =? 34)%N then Some (LString [], p)
  else if (c =? 116)%N then Some (LLit (str "rue") TTrue, p)
  else if (c =? 102)%N then Some (LLit (str "alse") TFalse, p)
  else if (c =? 110)%N then Some (LLit (str "ull") TNull, p)
  else if (c =? 45)%N then Some (LNumber NMinus [c], p)
  else if (c =? 48)%N then Some (LNumber NZero [c], p)
  else if is_digit c then Some (LNumber NInt [c], p)
  else None.

Definition lex_step (s : lexst * pstate) (c : N) : option (lexst * pstate) :=
  let (l, p) := s in
  match l with
  | LStart => lex_start p c
  | LLit [] _ => None
  | LLit [x] t => if (c =? x)%N then emit p t else None
  | LLit (x :: rest) t => if (c =? x)%N then Some (LLit rest t, p) else None
  | LString acc =>
      if (c =? 34)%N then emit p (TStr acc)
      else if (c =? 92)%N then Some (LEscape acc, p)
      else if (c <? 32)%N then None
      else Some (LString (acc ++ [c]), p)
  | LEscape acc =>
      match unescape c with
      | Some x => Some (LString (acc ++ [x]), p)
      | None => if (c =? 117)%N then Some (LHex acc 0 4, p) else None
      end
  | LHex acc v remaining =>
      match hexval c, remaining with
      | Some h, 1%nat => Some (LString (acc ++ [v * 16 + h]%N), p)
      | Some h, S n => Some (LHex acc (v * 16 + h)%N n, p)
      | _, _ => None
      end
  | LNumber st lexeme =>
      match num_next st c with
      | Some st' => Some (LNumber st' (lexeme ++ [c]), p)
      | None =>
          if num_complete st then
            match feed p (TNum lexeme) with
            | Some p' => lex_start p' c
            | None => None
            end
          else None
      end
  end.

Definition lex_end (s : lexst * pstate) : option pstate :=
  let (l, p) := s in
  match l with
  | LStart => Some p
  | LNumber st lexeme => if num_complete st then feed p (TNum lexeme) else None
  | _ => None
  end.

Fixpoint lex_all (s : lexst * pstate) (text : jsstring) : option (lexst * pstate) :=
  match text with
  | [] => Some s
  | c :: text' =>
      match lex_step s c with
      | Some s' => lex_all s' text'
      | None => None
      end
  end.

(** [JSON.parse(text)]; [None] when it throws a SyntaxError. *)
Definition JSON_parse (text : jsstring) : option JValue :=
  match lex_all (LStart, ([], EValue)) text with
  | Some s =>
      match lex_end s with
      | Some (_, EDone v) => Some v
      | _ => None
      end
  | None => None
  end.

(** *** JSON.stringify (ECMA-262 25.5.2) on strings and on object literals
    whose property values are strings *)

Definition hex_digit (d : N) : N := if (d <? 10)%N then (48 + d)%N else (87 + d)%N.

(** [\uXXXX], lower-case digits. *)
Definition unicode_escape (c : N) : jsstring :=
  [92; 117; hex_digit (N.land (N.shiftr c 12) 15);
   hex_digit (N.land (N.shiftr c 8) 15);
   hex_digit (N.land (N.shiftr c 4) 15);
   hex_digit (N.land c 15)]%N.

Fixpoint quote_body (s : jsstring) : jsstring :=
  match s with
  | [] => []
  | c :: rest =>
      if (c =? 8)%N then [92; 98]%N ++ quote_body rest
      else if (c =? 9)%N then [92; 116]%N ++ quote_body rest
      else if (c =? 10)%N then [92; 110]%N ++ quote_body rest
      else if (c =? 12)%N then [92; 102]%N ++ quote_body rest
      else if (c =? 13)%N then [92; 114]%N ++ quote_body rest
      else if (c =? 34)%N then [92; 34]%N ++ quote_body rest
      else if (c =? 92)%N then [92; 92]%N ++ quote_body rest
      else if (c <? 32)%N then unicode_escape c ++ quote_body rest
      else if is_high_surrogate c then
        match rest with
        | c2 :: rest' =>
            if is_low_surrogate c2 then c :: c2 :: quote_body rest'
            else unicode_escape c ++ quote_body rest
        | [] => unicode_escape c
        end
      else if is_low_surrogate c then unicode_escape c ++ quote_body rest
      else c :: quote_body rest
  end.

(** QuoteJSONString *)
Definition QuoteJSONString (s : jsstring) : jsstring :=
  [34%N] ++ quote_body s ++ [34%N].

(** [JSON.stringify({ k1: v1, ..., kn: vn })] for string values. *)
Definition JSON_stringify (props : list (jsstring * jsstring)) : jsstring :=
  [123%N]
  ++ join [44%N]
       (map (fun kv => QuoteJSONString (fst kv) ++ [58%N] ++ QuoteJSONString (snd kv))
            props)
  ++ [125%N].

(** *** Conversions applied to parsed values

    What a number converts to depends on its binary64 value; the two
    conversions the consumer applies to a number are left to an
    implementation of this interface, given the number's source text. *)
Class NumberConversions : Type := {
  Number_ToBoolean : jsstring -> bool;
  Number_toString : jsstring -> jsstring
}.

Section Conversions.
Context {num : NumberConversions}.

(** ToBoolean *)
Definition ToBoolean (v : JValue) : bool :=
  match v with
  | JNull => false
  | JBool b => b
  | JNum lexeme => Number_ToBoolean lexeme
  | JStr s => truthy s
  | JArr _ | JObj _ => true
  end.

Definition ToBoolean_opt (v : option JValue) : bool :=
  match v with Some v => ToBoolean v | None => false end.

Fixpoint sequence {A : Type} (l : list (option A)) : option (list A) :=
  match l with
  | [] => Some []
  | Some x :: l' => option_map (cons x) (sequence l')
  | None :: _ => None
  end.

(** The string a value contributes to [s + v]: ToPrimitive, then ToString.
    An array joins its elements with commas, [null] elements as the empty
    string.  A plain object is ["[object Object]"], unless it has an own
    property [toString] (from JSON, never callable), which makes the
    conversion throw a TypeError ([None]). *)
Fixpoint ToString (v : JValue) : option jsstring :=
  match v with
  | JNull => Some (str "null")
  | JBool true => Some (str "true")
  | JBool false => Some (str "false")
  | JNum lexeme => Some (Number_toString lexeme)
  | JStr s => Some s
  | JArr elems =>
      option_map (join [44%N])
        (sequence
           (map (fun e => match e with JNull => Some [] | _ => ToString e end) elems))
  | JObj props =>
      match get (str "toString") props with
      | Some _ => None
      | None => Some (str "[object Object]")
      end
  end.

(** [data.key] for the keys the consumer reads ([type], [id], [content]),
    which are own properties of an object or are undefined ([Some None]);
    reading a property of [null] throws a TypeError ([None]). *)
Definition prop (data : JValue) (key : jsstring) : option (option JValue) :=
  match data with
  | JNull => None
  | JObj props => Some (get key props)
  | _ => Some None
  end.

End Conversions.

End JS.

Import JS.

Declare Scope js_scope.
Delimit Scope js_scope with js.
Notation "$ s" := (str s%string) (at level 1, format "$ s") : js_scope.
Local Open Scope js_scope.

(** ** lib/ai-provider: provider router *)

Inductive AIProviderType : Type := openai | gemini | claude.

(** The string each member of the union type stands for. *)
Definition provider_name (p : AIProviderType) : jsstring :=
  match p with
  | openai => $"openai"
  | gemini => $"gemini"
  | claude => $"claude"
  end.

(** [process.env], restricted to the keys the router reads.  A key that is
    not set reads as [undefined] ([None]). *)
Record ProcessEnv : Type := {
  AI_PROVIDER : option jsstring;
  OPENAI_API_KEY : option jsstring;
  GEMINI_API_KEY : option jsstring;
  ANTHROPIC_API_KEY : option jsstring
}.

(** [v === name] for a possibly undefined string [v]. *)
Definition is_str (v : option jsstring) (name : jsstring) : bool :=
  match v with Some s => JS.eqb s name | None => false end.

Definition getActiveProvider (env : ProcessEnv) (requested : option jsstring)
  : AIProviderType :=
  (* Allow per-request override: [return requested] *)
  if is_str requested $"openai" then openai
  else if is_str requested $"gemini" then gemini
  else if is_str requested $"claude" then claude
  else
    (* Check explicit env setting *)
    let envProvider := option_map toLowerCase (AI_PROVIDER env) in
    if is_str envProvider $"gemini" then gemini
    else if is_str envProvider $"claude" then claude
    else if is_str envProvider $"openai" then openai
    (* Auto-detect from available API keys *)
    else if truthy_opt (OPENAI_API_KEY env) then openai
    else if truthy_opt (GEMINI_API_KEY env) then gemini
    else if truthy_opt (ANTHROPIC_API_KEY env) then claude
    (* Default *)
    else openai.

Definition getAvailableProviders (env : ProcessEnv) : list AIProviderType :=
  (if truthy_opt (OPENAI_API_KEY env) then [openai] else []) ++
  (if truthy_opt (GEMINI_API_KEY env) then [gemini] else []) ++
  (if truthy_opt (ANTHROPIC_API_KEY env) then [claude] else []).

(** ** lib/ai-provider: Gemini message normaliser *)

Inductive Role : Type := system | user | assistant.

Record ChatMessage : Type := { role : Role; content : jsstring }.

Inductive GeminiRole : Type := g_user | g_model.

Record GeminiContent : Type := { g_role : GeminiRole; parts : list jsstring }.

Record GeminiMessages : Type := {
  systemInstruction : jsstring;
  history : list GeminiContent;
  lastMessage : jsstring
}.

Definition is_system (r : Role) : bool :=
  match r with system => true | _ => false end.
Definition is_user (r : Role) : bool :=
  match r with user => true | _ => false end.
Definition is_assistant (r : Role) : bool :=
  match r with assistant => true | _ => false end.

(** One iteration of the loop of [toGeminiMessages], at index [i] of a
    list of [len] messages. *)
Definition toGemini_step (len : nat) (acc : GeminiMessages) (i : nat) (msg : ChatMessage)
  : GeminiMessages :=
  if is_system (role msg) then
    {| systemInstruction :=
         systemInstruction acc
         ++ (if truthy (systemInstruction acc) then LF else $"")
         ++ content msg;
       history := history acc;
       lastMessage := lastMessage acc |}
  else if Nat.eqb i (len - 1) && is_user (role msg) then
    {| systemInstruction := systemInstruction acc;
       history := history acc;
       lastMessage := content msg |}
  else
    {| systemInstruction := systemInstruction acc;
       history := history acc ++
         [{| g_role := if is_assistant (role msg) then g_model else g_user;
             parts := [content msg] |}];
       lastMessage := lastMessage acc |}.

(** [for (let i = 0; i < messages.length; i++)], from index [i] on. *)
Fixpoint toGemini_loop (len : nat) (acc : GeminiMessages) (i : nat)
    (rest : list ChatMessage) : GeminiMessages :=
  match rest with
  | [] => acc
  | msg :: rest' => toGemini_loop len (toGemini_step len acc i msg) (S i) rest'
  end.

Definition toGeminiMessages (messages : list ChatMessage) : GeminiMessages :=
  toGemini_loop (List.length messages)
    {| systemInstruction := $""; history := []; lastMessage := $"" |}
    0 messages.

(** ** hooks/use-chat: chat-id recovery *)

Definition isValidChatId (id : jsstring) : bool :=
  if JS.eqb id $"hello-world" || (JS.length id <=? 10)%N then false
  else (includes $"-" id && (20 <? JS.length id)%N) || (15 <? JS.length id)%N.

(** [record.key && typeof record.key === "string" && isValidChatId(record.key)];
    when it holds, the string. *)
Definition valid_id_field (key : jsstring) (record : list (jsstring * JValue))
  : option jsstring :=
  match get key record with
  | Some (JStr s) => if truthy s && isValidChatId s then Some s else None
  | _ => None
  end.

(** The closure [search], with the captured variable [foundChatId] passed in
    and out.  Arrays carry no [chatId] or [id] property of their own;
    [Object.values] lists the property values in enumeration order, which is
    the order of [props]. *)
Fixpoint search (obj : JValue) (foundChatId : option jsstring) : option jsstring :=
  if truthy_opt foundChatId then foundChatId
  else
    match obj with
    | JArr elems =>
        fold_left (fun found v => search v found) elems foundChatId
    | JObj record =>
        match valid_id_field $"chatId" record with
        | Some id => Some id
        | None =>
            match valid_id_field $"id" record with
            | Some id => Some id
            | None =>
                fold_left (fun found kv => search (snd kv) found) record foundChatId
            end
        end
    | _ => foundChatId                  (* [!obj || typeof obj !== "object"] *)
    end.

Definition extractChatIdFromContent (content : list JValue) : option jsstring :=
  fold_left (fun found v => search v found) content None.

(** [search] run on a call stack that holds at most [depth] nested calls:
    [None] when the value nests deeper than that. *)
Fixpoint search_within (depth : nat) (obj : JValue) (foundChatId : option jsstring)
  : option (option jsstring) :=
  match depth with
  | O => None
  | S depth' =>
      let forEach (vs : list JValue) :=
        fold_left
          (fun acc v =>
             match acc with
             | Some found => search_within depth' v found
             | None => None
             end) vs (Some foundChatId) in
      if truthy_opt foundChatId then Some foundChatId
      else
        match obj with
        | JArr elems => forEach elems
        | JObj record =>
            match valid_id_field $"chatId" record with
            | Some id => Some (Some id)
            | None =>
                match valid_id_field $"id" record with
                | Some id => Some (Some id)
                | None => forEach (map snd record)
                end
            end
        | _ => Some foundChatId
        end
  end.

Definition extractChatIdFromContent_within (depth : nat) (content : list JValue)
  : option (option jsstring) :=
  fold_left
    (fun acc v =>
       match acc with
       | Some found => search_within depth v found
       | None => None
       end) content (Some None).

(** How deep a value nests: the number of nested [search] calls it takes. *)
Fixpoint nesting (v : JValue) : nat :=
  match v with
  | JArr elems => S (fold_right (fun e m => Nat.max (nesting e) m) 0 elems)
  | JObj props => S (fold_right (fun kv m => Nat.max (nesting (snd kv)) m) 0 props)
  | _ => 1
  end.

(** The identifiers [search] can accept, in the order it visits them:
    at an object its [chatId], else its [id], else those of its property
    values in order; at an array those of its elements in order. *)
Fixpoint candidates (v : JValue) : list jsstring :=
  match v with
  | JArr elems => flat_map candidates elems
  | JObj record =>
      match valid_id_field $"chatId" record with
      | Some id => [id]
      | None =>
          match valid_id_field $"id" record with
          | Some id => [id]
          | None => flat_map (fun kv => candidates (snd kv)) record
          end
      end
  | _ => []
  end.

(** Some object inside [v], at any depth, has a property named [chatId] or
    [id]. *)
Fixpoint names_an_id (v : JValue) : bool :=
  match v with
  | JArr elems => existsb names_an_id elems
  | JObj props =>
      match get $"chatId" props, get $"id" props with
      | None, None => existsb (fun kv => names_an_id (snd kv)) props
      | _, _ => true
      end
  | _ => false
  end.

(** ** components/chat-messages: the event-stream consumer *)

(** How a call ends, and the state it leaves behind: it returns, or it
    throws. *)
Inductive completion (S : Type) : Type :=
| Returned (s : S)
| Thrown (s : S).

Definition state_after {S : Type} (c : completion S) : S :=
  match c with Returned s => s | Thrown s => s end.

(** The callbacks [handleSSELine] is given, as actions on the caller's
    state.  [onChatData] receives the [id] of the object literal [{ id }];
    at run time either argument is whatever the parsed frame holds. *)
Record SSECallbacks (S : Type) : Type := {
  onChatData : JValue -> S -> completion S;
  onContent : JValue -> S -> completion S
}.

(** A call made to the callbacks passed to [consumeSSEStream]. *)
Inductive Call : Type :=
| Call_onChatData (id : JValue)
| Call_onContent (accumulated : jsstring).

(** What [consumeSSEStream] holds while it reads: its [TextDecoder], the
    variable [accumulated], and the calls it has made so far. *)
Record Consumer : Type := {
  decoder : TextDecoder;
  accumulated : jsstring;
  calls : list Call
}.

(** The body a [ReadableStream] delivers: [reader.read()] resolves with
    each chunk in turn, then with [done], or rejects when the stream ends
    in an error. *)
Record ReadableStream : Type := {
  chunks : list bytes;
  fails : bool
}.

Section Consumer.
Context {num : NumberConversions}.

(** [v] when it is defined and truthy. *)
Definition truthy_value (v : option JValue) : option JValue :=
  match v with
  | Some v => if ToBoolean v then Some v else None
  | None => None
  end.

(** Parse a single SSE line and invoke the appropriate callback.  Whatever
    throws inside the [try] block is caught and dropped. *)
Definition handleSSELine {S : Type} (line : jsstring) (callbacks : SSECallbacks S)
    (st : S) : S :=
  if negb (startsWith $"data: " line) then st
  else
    let jsonStr := trim (slice 6 line) in
    if negb (truthy jsonStr) then st
    else
      match JSON_parse jsonStr with
      | None => st                            (* Skip unparseable lines *)
      | Some data =>
          match prop data $"type" with
          | None => st                        (* TypeError on [null] *)
          | Some type =>
              let type_is name :=
                match type with Some (JStr t) => JS.eqb t name | _ => false end in
              let field key :=
                match prop data key with Some v => truthy_value v | None => None end in
              match (if type_is $"chat_metadata" then field $"id" else None) with
              | Some id => state_after (onChatData callbacks id st)
              | None =>
                  match (if type_is $"content" then field $"content" else None) with
                  | Some c => state_after (onContent callbacks c st)
                  | None => st
                  end
              end
          end
      end.

(** The callbacks [consumeSSEStream] passes down: the caller's
    [onChatData] as it is, and a closure that appends to [accumulated]
    (string concatenation, which converts its right operand) and reports
    the running total. *)
Definition consume_callbacks : SSECallbacks Consumer :=
  {| onChatData := fun id st =>
       Returned {| decoder := decoder st;
                   accumulated := accumulated st;
                   calls := calls st ++ [Call_onChatData id] |};
     onContent := fun c st =>
       match ToString c with
       | None => Thrown st
       | Some text =>
           Returned {| decoder := decoder st;
                       accumulated := accumulated st ++ text;
                       calls := calls st ++ [Call_onContent (accumulated st ++ text)] |}
       end |}.

(** [for (const line of text.split("\n")) handleSSELine(line, ...)] *)
Definition consume_lines (lines : list jsstring) (st : Consumer) : Consumer :=
  fold_left (fun st line => handleSSELine line consume_callbacks st) lines st.

(** One turn of the read loop on a chunk [value]. *)
Definition consume_chunk (st : Consumer) (value : bytes) : Consumer :=
  let (d, text) := decode_stream (decoder st) value in
  consume_lines (split_lines text)
    {| decoder := d; accumulated := accumulated st; calls := calls st |}.

Definition consume_start : Consumer :=
  {| decoder := new_TextDecoder; accumulated := $""; calls := [] |}.

(** The state when the read loop is left. *)
Definition consume_all (stream : ReadableStream) : Consumer :=
  fold_left consume_chunk (chunks stream) consume_start.

(** Read an SSE stream to completion, invoking callbacks for each event:
    the calls made, and the value the returned promise resolves with
    ([None] when a read rejects and the promise rejects with it).  The
    reader's lock, taken on entry and released in the [finally] block on
    either way out, is not part of the state. *)
Definition consumeSSEStream (stream : ReadableStream) : list Call * option jsstring :=
  let st := consume_all stream in
  (calls st, if fails stream then None else Some (accumulated st)).

End Consumer.

(** ** app/api/chat/route: the streaming handler *)

Record StreamChunk : Type := { chunk_content : jsstring }.

(** One run of the async generator [createStreamingCompletion] returns:
    the chunks it yields, after which it returns or throws. *)
Record Generation : Type := {
  yields : list StreamChunk;
  throws : bool
}.

Inductive StreamState : Type := readable | closed | errored.

(** The argument of a call to [addMessageToChat]. *)
Record AddedMessage : Type := {
  added_chatId : jsstring;
  added_role : jsstring;
  added_content : jsstring
}.

(** What a run of [handleStreaming] acts on: the chunks given to
    [controller.enqueue] in order, the state of the response stream, the
    variable [fullResponse], and the calls to [addMessageToChat]. *)
Record Route : Type := {
  enqueued : list bytes;
  stream_state : StreamState;
  fullResponse : jsstring;
  added : list AddedMessage
}.

(** Statements of the handler: a state change that returns a value or
    throws ([None]). *)
Definition M (A : Type) : Type := Route -> Route * option A.

Definition ret {A : Type} (a : A) : M A := fun r => (r, Some a).

Definition throw {A : Type} : M A := fun r => (r, None).

Definition bind {A B : Type} (m : M A) (k : A -> M B) : M B :=
  fun r =>
    match m r with
    | (r', Some a) => k a r'
    | (r', None) => (r', None)
    end.

Notation "m ;; k" := (bind m (fun _ => k)) (at level 61, right associativity).

(** [try { body } catch (error) { handler }] *)
Definition try_catch (body handler : M unit) : M unit :=
  fun r =>
    match body r with
    | (r', Some tt) => (r', Some tt)
    | (r', None) => handler r'
    end.

Definition controller_enqueue (chunk : bytes) : M unit :=
  fun r => ({| enqueued := enqueued r ++ [chunk]; stream_state := stream_state r;
               fullResponse := fullResponse r; added := added r |}, Some tt).

Definition controller_close : M unit :=
  fun r => ({| enqueued := enqueued r; stream_state := closed;
               fullResponse := fullResponse r; added := added r |}, Some tt).

Definition controller_error : M unit :=
  fun r => ({| enqueued := enqueued r; stream_state := errored;
               fullResponse := fullResponse r; added := added r |}, Some tt).

(** [fullResponse += text] *)
Definition append_fullResponse (text : jsstring) : M unit :=
  fun r => ({| enqueued := enqueued r; stream_state := stream_state r;
               fullResponse := fullResponse r ++ text; added := added r |}, Some tt).

Definition read_fullResponse : M jsstring := fun r => (r, Some (fullResponse r)).

(** [for await (const chunk of stream) body] *)
Fixpoint for_await (chunks : list StreamChunk) (throws : bool)
    (body : StreamChunk -> M unit) : M unit :=
  match chunks with
  | [] => if throws then throw else ret tt
  | chunk :: rest => body chunk ;; for_await rest throws body
  end.

(** The events of the wire protocol, and the chunk each is written as:
    [encoder.encode(`data: ${JSON.stringify(event)}\n\n`)]. *)
Inductive WireEvent : Type :=
| Ev_chat_metadata (id : jsstring)
| Ev_content (delta : jsstring)
| Ev_done.

Definition sse (json : jsstring) : bytes :=
  TextEncoder_encode ($"data: " ++ json ++ LF ++ LF).

Definition frame (e : WireEvent) : bytes :=
  match e with
  | Ev_chat_metadata id =>
      sse (JSON_stringify [($"type", $"chat_metadata"); ($"id", id); ($"object", $"chat")])
  | Ev_content delta =>
      sse (JSON_stringify [($"type", $"content"); ($"content", delta)])
  | Ev_done =>
      sse (JSON_stringify [($"type", $"done")])
  end.

Section Route.

(** The provider call, and whether a call to [addMessageToChat] throws
    (the chat is missing, or the database fails). *)
Variable createStreamingCompletion : AIProviderType -> list ChatMessage -> Generation.
Variable addMessageToChat_throws : AddedMessage -> bool.

Definition addMessageToChat (m : AddedMessage) : M unit :=
  fun r => ({| enqueued := enqueued r; stream_state := stream_state r;
               fullResponse := fullResponse r; added := added r ++ [m] |},
            if addMessageToChat_throws m then None else Some tt).

(** The [start] callback of the response stream. *)
Definition start (stream : Generation) (activeChatId : jsstring) : M unit :=
  try_catch
    (controller_enqueue (frame (Ev_chat_metadata activeChatId)) ;;
     for_await (yields stream) (throws stream)
       (fun chunk =>
          if truthy (chunk_content chunk) then
            append_fullResponse (chunk_content chunk) ;;
            controller_enqueue (frame (Ev_content (chunk_content chunk)))
          else ret tt) ;;
     (if truthy activeChatId then
        bind read_fullResponse (fun text =>
          addMessageToChat {| added_chatId := activeChatId;
                              added_role := $"assistant";
                              added_content := text |})
      else ret tt) ;;
     controller_enqueue (frame Ev_done) ;;
     controller_close)
    controller_error.

(** The run of [handleStreaming]: the final state of the response stream
    it returns. *)
Definition handleStreaming (provider : AIProviderType) (messages : list ChatMessage)
    (activeChatId : jsstring) : Route :=
  let stream := createStreamingCompletion provider messages in
  fst (start stream activeChatId
         {| enqueued := []; stream_state := readable; fullResponse := $""; added := [] |}).

End Route.

(** The body of the response, as the client reads it when every enqueued
    chunk arrives as one read. *)
Definition response_body (r : Route) : ReadableStream :=
  {| chunks := enqueued r;
     fails := match stream_state r with errored => true | _ => false end |}.

(** ** Reading the wire *)

(** The text increments a generator run hands to the encoder: the yielded
    contents that are not empty. *)
Definition deltas (chunks : list StreamChunk) : list jsstring :=
  filter truthy (map chunk_content chunks).

Fixpoint bytes_prefix (p b : bytes) : bool :=
  match p, b with
  | [], _ => true
  | x :: p', y :: b' => Byte.eqb x y && bytes_prefix p' b'
  | _ :: _, [] => false
  end.

(** How every frame whose [type] is [kind] begins on the wire. *)
Definition wire_kind (kind : jsstring) : bytes :=
  TextEncoder_encode ($"data: {" ++ QuoteJSONString $"type" ++ $":" ++ QuoteJSONString kind).

Definition is_frame_of (kind : jsstring) (chunk : bytes) : bool :=
  bytes_prefix (wire_kind kind) chunk.

(** The UTF-8 bytes of a literal in which an apostrophe stands for a
    quotation mark; a line feed; and a literal written as a whole frame, with
    the two line feeds that end one. *)
Definition wire (s : string) : bytes :=
  map (fun b => if Byte.eqb b Byte.x27 then Byte.x22 else b) (bytes_of s).

Definition wire_LF : bytes := [Byte.x0a].

Definition wire_frame (s : string) : bytes := wire s ++ wire_LF ++ wire_LF.

(** The end-to-end scenario of the design document: the user turn "hi"
    on an empty history, answered by the increments "Hel" and "lo!". *)
Definition hi_messages : list ChatMessage := [ {| role := user; content := $"hi" |} ].

Definition hello_generation : Generation :=
  {| yields := [ {| chunk_content := $"Hel" |}; {| chunk_content := $"lo!" |} ];
     throws := false |}.

(** The same answer cut short by a provider error after the first
    increment. *)
Definition broken_generation : Generation :=
  {| yields := [ {| chunk_content := $"Hel" |} ]; throws := true |}.

(** ** What the consumer reads *)

Section Reading.
Context {num : NumberConversions}.

(** The lines the read loop hands to [handleSSELine], in order, when the
    decoder starts in state [d]. *)
Fixpoint lines_read (d : TextDecoder) (chunks : list bytes) : list jsstring :=
  match chunks with
  | [] => []
  | value :: rest =>
      let (d', text) := decode_stream d value in
      split_lines text ++ lines_read d' rest
  end.

(** The value a line parses to, when it is a [data: ] line that parses. *)
Definition line_data (line : jsstring) : option JValue :=
  if startsWith $"data: " line then
    let jsonStr := trim (slice 6 line) in
    if truthy jsonStr then JSON_parse jsonStr else None
  else None.

(** The [type] of the frame a line holds, when it holds an object with a
    string [type]. *)
Definition line_type (line : jsstring) : option jsstring :=
  match line_data line with
  | Some (JObj props) =>
      match get $"type" props with
      | Some (JStr t) => Some t
      | _ => None
      end
  | _ => None
  end.

(** The payload of a content frame: the truthy [content] of a line whose
    [type] is [content]. *)
Definition content_payload (line : jsstring) : option JValue :=
  match line_data line with
  | Some (JObj props) =>
      match line_type line with
      | Some t => if JS.eqb t $"content" then truthy_value (get $"content" props) else None
      | None => None
      end
  | _ => None
  end.

(** The text a line adds to the accumulation: its payload as a string. *)
Definition appended (line : jsstring) : list jsstring :=
  match content_payload line with
  | Some c => match ToString c with Some text => [text] | None => [] end
  | None => []
  end.

(** The line holds no content payload, or one that is a string. *)
Definition text_payload (line : jsstring) : bool :=
  match content_payload line with
  | Some (JStr _) | None => true
  | Some _ => false
  end.

End Reading.

(** The running totals of a sequence of texts, from [acc] on. *)
Fixpoint running_totals (acc : jsstring) (texts : list jsstring) : list jsstring :=
  match texts with
  | [] => []
  | t :: texts' => (acc ++ t) :: running_totals (acc ++ t) texts'
  end.

(** The arguments of the [onContent] calls among [cs], in order. *)
Definition content_calls (cs : list Call) : list jsstring :=
  flat_map (fun c => match c with Call_onContent a => [a] | _ => [] end) cs.

Definition lengths (l : list jsstring) : list nat := map (@List.length N) l.

(** One content frame, read whole or cut after its first 18 bytes. *)
Definition hello_frame : bytes := frame (Ev_content $"Hello").

Definition hello_whole : ReadableStream :=
  {| chunks := [hello_frame]; fails := false |}.

Definition hello_cut : ReadableStream :=
  {| chunks := [firstn 18 hello_frame; skipn 18 hello_frame]; fails := false |}.

(** A content frame whose payload is U+00E9, two bytes in UTF-8, read
    whole or cut between those two bytes. *)
Definition accent_frame : bytes := frame (Ev_content [233%N]).

Definition accent_whole : ReadableStream :=
  {| chunks := [accent_frame]; fails := false |}.

Definition accent_cut : ReadableStream :=
  {| chunks := [firstn 36 accent_frame; skipn 36 accent_frame]; fails := false |}.

(** Two content frames with a line of broken JSON between them. *)
Definition corrupted_between : ReadableStream :=
  {| chunks := [ frame (Ev_content $"Hel")
                 ++ wire "data: {'type':'content','content':'l" ++ wire_LF
                 ++ frame (Ev_content $"lo!") ];
     fails := false |}.

(** A content frame, then one whose payload is an empty array. *)
Definition empty_array_payload : ReadableStream :=
  {| chunks := [ frame (Ev_content $"a")
                 ++ wire "data: {'type':'content','content':[]}" ++ wire_LF ];
     fails := false |}.

(** ** The statements of the design document, worded as it words them *)

(** The enumeration member a string names, compared as it is. *)
Definition member (v : option jsstring) : option AIProviderType :=
  find (fun p => is_str v (provider_name p)) [openai; gemini; claude].

(** Provider resolution as the design document words it: the default
    setting counts when it is a member of the enumeration. *)
Definition resolve_as_documented (env : ProcessEnv) (requested : option jsstring)
  : AIProviderType :=
  match member requested with
  | Some p => p
  | None =>
      match member (AI_PROVIDER env) with
      | Some p => p
      | None => hd openai (getAvailableProviders env)
      end
  end.

(** The system instruction as the design document words it: all system
    messages, in order, newline-joined. *)
Definition system_contents (messages : list ChatMessage) : list jsstring :=
  map content (filter (fun m => is_system (role m)) messages).

Definition instruction_as_documented (messages : list ChatMessage) : jsstring :=
  join LF (system_contents messages).

(** Whether the last message of a list is a user turn. *)
Definition ends_with_user (messages : list ChatMessage) : bool :=
  match rev messages with
  | m :: _ => is_user (role m)
  | [] => false
  end.

(** How a message enters the Gemini history. *)
Definition relay (m : ChatMessage) : GeminiContent :=
  {| g_role := if is_assistant (role m) then g_model else g_user;
     parts := [content m] |}.

(** The empty strings at the front of a list dropped. *)
Fixpoint drop_empty (l : list jsstring) : list jsstring :=
  match l with
  | [] :: l' => drop_empty l'
  | _ => l
  end.

(** The values the design document tries recovery on. *)
Definition placeholder_id : JValue := JObj [($"id", JStr $"hello-world")].
Definition short_id : JValue := JObj [($"id", JStr $"short")].
Definition uuid_chatId : JValue :=
  JObj [($"chatId", JStr $"a1b2c3d4-e5f6-7890-aaaa-bbbbccccdddd")].

(** An array in an array, holding an object that holds the sample object. *)
Definition nested_content : list JValue :=
  [JArr [JNum $"0"; JObj [($"meta", uuid_chatId)]]].

(** What one more system message makes of the instruction built so far. *)
Definition instruction_append (acc c : jsstring) : jsstring :=
  acc ++ (if truthy acc then LF else $"") ++ c.

(** The first of the candidates in visiting order, unless something was
    found before. *)
Definition first_of (found : option jsstring) (cs : list jsstring) : option jsstring :=
  if truthy_opt found then found
  else match cs with c :: _ => Some c | [] => found end.


(** ** Well-formed text *)

(** Every code unit fits 16 bits. *)
Definition code_units (s : jsstring) : Prop := Forall (fun c => (c < 65536)%N) s.

(** 16-bit code units with every surrogate in a pair: the strings
    [TextEncoder] encodes without loss. *)
Fixpoint well_formed (s : jsstring) : bool :=
  match s with
  | [] => true
  | c :: rest =>
      if is_high_surrogate c then
        match rest with
        | c2 :: rest' => is_low_surrogate c2 && well_formed rest'
        | [] => false
        end
      else negb (is_low_surrogate c) && (c <? 65536)%N && well_formed rest
  end.

(** A decoder between characters. *)
Definition idle (bom : bool) : TextDecoder :=
  {| code_point := 0; bytes_seen := 0; bytes_needed := 0;
     lower_boundary := 128; upper_boundary := 191; BOM_seen := bom |}.

(** [decode_stream] on bytes given as numbers. *)
Fixpoint decode_units (d : TextDecoder) (value : list N) : TextDecoder * jsstring :=
  match value with
  | [] => (d, [])
  | b :: value' =>
      let (d1, items) := utf8_handler d b in
      let (d2, text) := serialize d1 items in
      let (d3, text') := decode_units d2 value' in
      (d3, text ++ text')
  end.

(** A Unicode scalar value: a code point that is not a surrogate. *)
Definition is_scalar (cp : N) : Prop :=
  (cp < 1114112)%N /\ ~ (55296 <= cp <= 57343)%N.

(** The object [JSON.parse] builds from members written in order. *)
Definition object_of (props : list (jsstring * jsstring)) : list (jsstring * JValue) :=
  fold_left (fun ps kv => define ps (fst kv) (JStr (snd kv))) props [].

(** No line feed in the text. *)
Definition one_line (s : jsstring) : bool := forallb (fun c => negb (c =? 10)%N) s.

(** Every key and value is made of 16-bit code units. *)
Definition props_code_units (props : list (jsstring * jsstring)) : Prop :=
  Forall (fun kv => code_units (fst kv) /\ code_units (snd kv)) props.

(** A piece of text that can stand anywhere inside well-formed text on one
    line: no line feed, and no surrogate left without its pair. *)
Definition text_piece (m : jsstring) : Prop :=
  (forall tail, well_formed (m ++ tail) = well_formed tail) /\ one_line m = true.

Section Dispatch.
Context {num : NumberConversions}.

(** What [handleSSELine] does with the value of a line that parsed. *)
Definition dispatch {S : Type} (data : JValue) (callbacks : SSECallbacks S) (st : S) : S :=
  match prop data $"type" with
  | None => st
  | Some type =>
      let type_is name :=
        match type with Some (JStr t) => JS.eqb t name | _ => false end in
      let field key :=
        match prop data key with Some v => truthy_value v | None => None end in
      match (if type_is $"chat_metadata" then field $"id" else None) with
      | Some id => state_after (onChatData callbacks id st)
      | None =>
          match (if type_is $"content" then field $"content" else None) with
          | Some c => state_after (onContent callbacks c st)
          | None => st
          end
      end
  end.

End Dispatch.

(** The consumer between reads, with the decoder between characters. *)
Definition reading (bom : bool) (acc : jsstring) (cs : list Call) : Consumer :=
  {| decoder := idle bom; accumulated := acc; calls := cs |}.

(** ** Reads that end where a line ends *)

(** A chunk that is empty or ends with a line feed. *)
Definition line_aligned (p : bytes) : Prop :=
  p = [] \/ exists a, p = a ++ [Byte.x0a].

(** A decoder whose pending sequence, if any, expects a continuation
    byte: every state [decode_stream] reaches from a new decoder. *)
Definition expects_continuation (d : TextDecoder) : Prop :=
  (128 <= lower_boundary d)%N.

(** The consumer with another decoder state. *)
Definition with_decoder (d : TextDecoder) (st : Consumer) : Consumer :=
  {| decoder := d; accumulated := accumulated st; calls := calls st |}.

(** ** lib/ai-provider: Anthropic message normaliser *)

(** A message as the Anthropic client takes it.  Its role is the role of
    the message it is made from, which the cast in the source leaves as
    it is. *)
Record AnthropicMessage : Type := { a_role : Role; a_content : jsstring }.

Record AnthropicMessages : Type := {
  anthropic_system : jsstring;
  anthropic_messages : list AnthropicMessage
}.

(** One iteration of [for (const msg of messages)]. *)
Definition toAnthropic_step (acc : AnthropicMessages) (msg : ChatMessage)
  : AnthropicMessages :=
  if is_system (role msg) then
    {| anthropic_system :=
         anthropic_system acc
         ++ (if truthy (anthropic_system acc) then LF else $"")
         ++ content msg;
       anthropic_messages := anthropic_messages acc |}
  else
    {| anthropic_system := anthropic_system acc;
       anthropic_messages :=
         anthropic_messages acc
         ++ [{| a_role := role msg; a_content := content msg |}] |}.

Definition toAnthropicMessages (messages : list ChatMessage) : AnthropicMessages :=
  fold_left toAnthropic_step messages
    {| anthropic_system := $""; anthropic_messages := [] |}.

(** The turn of a Gemini conversation that carries an Anthropic message. *)
Definition gemini_turn (m : AnthropicMessage) : GeminiContent :=
  {| g_role := if is_assistant (a_role m) then g_model else g_user;
     parts := [a_content m] |}.

(** The turns of the conversation [geminiStream] holds with the model:
    the history the chat is started with, then the message sent. *)
Definition gemini_conversation (g : GeminiMessages) : list GeminiContent :=
  history g ++ [{| g_role := g_user; parts := [lastMessage g] |}].

(** ** lib/ai-provider: the provider streams *)

(** [process.env], restricted to the keys [getModelForProvider] reads. *)
Record ModelEnv : Type := {
  OPENAI_MODEL : option jsstring;
  GEMINI_MODEL : option jsstring;
  ANTHROPIC_MODEL : option jsstring
}.

(** [v || fallback] for a possibly undefined string [v]. *)
Definition or_else (v : option jsstring) (fallback : jsstring) : jsstring :=
  match v with
  | Some s => if truthy s then s else fallback
  | None => fallback
  end.

(** [s || undefined] *)
Definition or_undefined (s : jsstring) : option jsstring :=
  if truthy s then Some s else None.

Definition getModelForProvider (env : ModelEnv) (provider : AIProviderType) : jsstring :=
  match provider with
  | gemini => or_else (GEMINI_MODEL env) $"gemini-2.0-flash"
  | claude => or_else (ANTHROPIC_MODEL env) $"claude-sonnet-4-20250514"
  | openai => or_else (OPENAI_MODEL env) $"gpt-4-turbo-preview"
  end.

(** A number is given by its source text. *)
Record CompletionConfig : Type := {
  temperature : option jsstring;
  maxTokens : option jsstring
}.

(** What iterating an SDK's stream gives: the items delivered, after which
    the iteration ends or throws.  A call that rejects before the first
    item is a stream without items that throws. *)
Record SdkStream (A : Type) : Type := { items : list A; sdk_throws : bool }.
Arguments items {A} _.
Arguments sdk_throws {A} _.

(** A chunk of an OpenAI completion stream. *)
Record OpenAIDelta : Type := { delta_content : option jsstring }.
Record OpenAIChoice : Type := { delta : option OpenAIDelta }.
Record OpenAIChunk : Type := { choices : list OpenAIChoice }.

Record OpenAIParams : Type := {
  openai_model : jsstring;
  openai_messages : list ChatMessage;
  openai_temperature : jsstring;
  openai_max_tokens : jsstring
}.

(** What [getGenerativeModel], [startChat] and [sendMessageStream] are
    given, together. *)
Record GeminiParams : Type := {
  gemini_model : jsstring;
  gemini_systemInstruction : option jsstring;
  gemini_temperature : jsstring;
  gemini_maxOutputTokens : jsstring;
  gemini_history : list GeminiContent;
  gemini_message : jsstring
}.

(** An event of an Anthropic message stream, as far as [claudeStream]
    tells events apart. *)
Inductive AnthropicDelta : Type :=
| text_delta (text : jsstring)
| other_delta.

Inductive AnthropicEvent : Type :=
| content_block_delta (d : AnthropicDelta)
| other_event.

Record AnthropicParams : Type := {
  claude_model : jsstring;
  claude_max_tokens : jsstring;
  claude_system : option jsstring;
  claude_messages : list AnthropicMessage
}.

(** [if (content) { yield { content } }] *)
Definition yield_content (content : jsstring) : list StreamChunk :=
  if truthy content then [{| chunk_content := content |}] else [].

(** [chunk.choices[0]?.delta?.content || ""] *)
Definition openai_content (chunk : OpenAIChunk) : jsstring :=
  match choices chunk with
  | choice :: _ =>
      match delta choice with
      | Some d => or_else (delta_content d) $""
      | None => $""
      end
  | [] => $""
  end.

(** The text [claudeStream] takes from an event, if it takes any. *)
Definition claude_content (event : AnthropicEvent) : option jsstring :=
  match event with
  | content_block_delta (text_delta text) => Some text
  | _ => None
  end.

Section Providers.

Variable env : ModelEnv.

(** The three SDKs.  A Gemini chunk is given by the value of its [text()];
    a call of [text()] that throws ends the stream by a throw. *)
Variable openai_create : OpenAIParams -> SdkStream OpenAIChunk.
Variable gemini_sendMessageStream : GeminiParams -> SdkStream jsstring.
Variable anthropic_stream : AnthropicParams -> SdkStream AnthropicEvent.

Definition openaiStream (messages : list ChatMessage) (config : CompletionConfig)
  : Generation :=
  let stream :=
    openai_create
      {| openai_model := getModelForProvider env openai;
         openai_messages := messages;
         openai_temperature := match temperature config with Some t => t | None => $"0.7" end;
         openai_max_tokens := match maxTokens config with Some n => n | None => $"4096" end |} in
  {| yields := flat_map (fun chunk => yield_content (openai_content chunk)) (items stream);
     throws := sdk_throws stream |}.

Definition geminiStream (messages : list ChatMessage) (config : CompletionConfig)
  : Generation :=
  let g := toGeminiMessages messages in
  let result :=
    gemini_sendMessageStream
      {| gemini_model := getModelForProvider env gemini;
         gemini_systemInstruction := or_undefined (systemInstruction g);
         gemini_temperature := match temperature config with Some t => t | None => $"0.7" end;
         gemini_maxOutputTokens := match maxTokens config with Some n => n | None => $"4096" end;
         gemini_history := history g;
         gemini_message := lastMessage g |} in
  {| yields := flat_map yield_content (items result);
     throws := sdk_throws result |}.

Definition claudeStream (messages : list ChatMessage) (config : CompletionConfig)
  : Generation :=
  let a := toAnthropicMessages messages in
  let stream :=
    anthropic_stream
      {| claude_model := getModelForProvider env claude;
         claude_max_tokens := match maxTokens config with Some n => n | None => $"4096" end;
         claude_system := or_undefined (anthropic_system a);
         claude_messages := anthropic_messages a |} in
  {| yields :=
       flat_map (fun event =>
                   match claude_content event with
                   | Some content => yield_content content
                   | None => []
                   end)
                (items stream);
     throws := sdk_throws stream |}.

Definition createStreamingCompletion (provider : AIProviderType)
    (messages : list ChatMessage) (config : CompletionConfig) : Generation :=
  match provider with
  | gemini => geminiStream messages config
  | claude => claudeStream messages config
  | openai => openaiStream messages config
  end.

End Providers.

(** [config = {}] *)
Definition default_config : CompletionConfig :=
  {| temperature := None; maxTokens := None |}.

(** ** app/api/chat/route: the request handler *)

(** A row of the table [chats]. *)
Record Chat : Type := {
  chat_id : jsstring;
  chat_user_id : jsstring;
  chat_name : option jsstring;
  chat_messages : option (list ChatMessage);
  chat_visibility : option jsstring;
  chat_demo_url : option jsstring;
  chat_created_at : N;
  chat_updated_at : N
}.

(** A value thrown: the message of an [Error], or something that is not
    an [Error]. *)
Definition Exn : Type := option jsstring.

(** [error instanceof Error ? error.message : "Unknown error"] *)
Definition error_details (e : Exn) : jsstring :=
  match e with Some message => message | None => $"Unknown error" end.

(** The body of a request, with the fields the handler reads.  The
    message, the chat id and the provider are strings when present;
    [streaming] is the truth value of the field. *)
Record RequestBody : Type := {
  body_message : option jsstring;
  body_chatId : option jsstring;
  body_streaming : bool;
  body_provider : option jsstring
}.

Inductive Response : Type :=
| NextResponse_json (body : JValue) (status : N)
| ChatSDKError_toResponse (code : jsstring)
| createStreamingResponse (stream : Route).

(** The calls a handler makes to the database layer and to the provider
    router. *)
Inductive Effect : Type :=
| Called_getChatCountByUserId (userId : jsstring) (differenceInHours : N)
| Called_getChatById (chatId : jsstring)
| Called_addMessageToChat (m : AddedMessage)
| Called_createChat (userId message : jsstring)
| Called_updateChatVisibility (chatId visibility : jsstring)
| Called_forkChat (chatId : JValue) (userId : jsstring)
| Called_getChatsByUserId (userId : jsstring)
| Called_createCompletion (provider : AIProviderType) (messages : list ChatMessage)
| Called_createStreamingCompletion (provider : AIProviderType) (messages : list ChatMessage).

(** How a statement of a handler ends: control goes on with a value, the
    handler returns a response, or something is thrown. *)
Inductive Outcome (A : Type) : Type :=
| Continue (a : A)
| Respond (response : Response)
| Raise (e : Exn).
Arguments Continue {A} _.
Arguments Respond {A} _.
Arguments Raise {A} _.

(** Statements of a handler, acting on the calls made so far. *)
Definition Handler (A : Type) : Type := list Effect -> list Effect * Outcome A.

Definition proceed {A : Type} (a : A) : Handler A := fun log => (log, Continue a).

Definition reply_with {A : Type} (response : Response) : Handler A :=
  fun log => (log, Respond response).

Definition and_then {A B : Type} (m : Handler A) (k : A -> Handler B) : Handler B :=
  fun log =>
    match m log with
    | (log', Continue a) => k a log'
    | (log', Respond response) => (log', Respond response)
    | (log', Raise e) => (log', Raise e)
    end.

Notation "'let*' x ':=' m 'in' k" := (and_then m (fun x => k))
  (at level 10, x name, m at level 100, k at level 200).

(** [await f(args)], for a call [e] that resolves or rejects as [result]
    says. *)
Definition await {A : Type} (e : Effect) (result : Exn + A) : Handler A :=
  fun log => (log ++ [e], match result with inr a => Continue a | inl t => Raise t end).

(** A promise that is not a call to the database layer or the router. *)
Definition settled {A : Type} (result : Exn + A) : Handler A :=
  fun log => (log, match result with inr a => Continue a | inl t => Raise t end).

Definition SYSTEM_PROMPT : jsstring :=
  $"You are an expert React component generator specialized in creating production-ready, modern React components.

Your task: Generate complete, functional React components based on user descriptions.

GUIDELINES:
- Use TypeScript with proper type definitions
- Use Tailwind CSS for all styling
- Use modern React patterns (functional components, hooks)
- Follow accessibility best practices (semantic HTML, ARIA labels)
- Make components responsive (mobile-first approach)
- Include helpful inline comments
- Use shadcn/ui components when appropriate
- Ensure proper prop typing with TypeScript interfaces

OUTPUT FORMAT:
- Provide complete, copy-paste ready code
- Export component as default
- Include all necessary imports
- Structure code cleanly with proper spacing
- Add brief usage examples in comments when helpful

STYLE PREFERENCES:
- Clean, minimal design
- Modern UI/UX patterns
- Consistent spacing and typography
- Dark mode support when applicable".

(** [available.includes(provider)] *)
Definition includes_provider (available : list AIProviderType) (provider : AIProviderType)
  : bool :=
  existsb (fun p => JS.eqb (provider_name p) (provider_name provider)) available.

(** A message as an object of a JSON body. *)
Definition message_json (m : ChatMessage) : JValue :=
  JObj [($"role", JStr match role m with
                       | system => $"system"
                       | user => $"user"
                       | assistant => $"assistant"
                       end);
        ($"content", JStr (content m))].

Section ChatRoute.

Variable env : ProcessEnv.

(** [userEntitlements.maxMessagesPerDay] *)
Variable maxMessagesPerDay : N.

(** The database layer and the provider router: what each call resolves
    with, or what it rejects with. *)
Variable getChatCountByUserId : jsstring -> N -> Exn + N.
Variable getChatById : jsstring -> Exn + option Chat.
Variable createChat : jsstring -> jsstring -> Exn + jsstring.
Variable addMessageToChat_result : AddedMessage -> Exn + unit.
Variable createCompletion : AIProviderType -> list ChatMessage -> Exn + jsstring.
Variable createStreamingCompletion : AIProviderType -> list ChatMessage -> Generation.

(** [session] is the value of [session?.user?.id]. *)
Definition checkRateLimit (session : option jsstring) : Handler (option Response) :=
  match session with
  | Some userId =>
      if truthy userId then
        let* chatCount :=
          await (Called_getChatCountByUserId userId 24) (getChatCountByUserId userId 24) in
        if (maxMessagesPerDay <=? chatCount)%N
        then proceed (Some (ChatSDKError_toResponse $"rate_limit:chat"))
        else proceed None
      else proceed (Some (ChatSDKError_toResponse $"unauthorized:chat"))
  | None => proceed (Some (ChatSDKError_toResponse $"unauthorized:chat"))
  end.

Definition handleNonStreaming (provider : AIProviderType) (messages : list ChatMessage)
    (userMessage activeChatId : jsstring) : Handler Response :=
  let* assistantContent :=
    await (Called_createCompletion provider messages) (createCompletion provider messages) in
  let* _ :=
    if truthy activeChatId then
      let m := {| added_chatId := activeChatId;
                  added_role := $"assistant";
                  added_content := assistantContent |} in
      await (Called_addMessageToChat m) (addMessageToChat_result m)
    else proceed tt in
  reply_with
    (NextResponse_json
       (JObj [($"id", JStr activeChatId);
              ($"messages",
               JArr [message_json {| role := user; content := userMessage |};
                     message_json {| role := assistant; content := assistantContent |}])])
       200).

(** The call of [handleStreaming]: the provider is asked for a stream, and
    the response carries the stream the handler of the first part runs. *)
Definition handleStreaming_call (provider : AIProviderType) (messages : list ChatMessage)
    (activeChatId : jsstring) : Handler Response :=
  fun log =>
    (log ++ [Called_createStreamingCompletion provider messages],
     Respond
       (createStreamingResponse
          (handleStreaming createStreamingCompletion
             (fun m => match addMessageToChat_result m with inl _ => true | inr _ => false end)
             provider messages activeChatId))).

(** The [try] block of [POST]. *)
Definition POST_try (auth : Exn + option jsstring) (request_json : Exn + RequestBody)
  : Handler Response :=
  let* session := settled auth in
  let* body := settled request_json in
  match body_message body with
  | Some message =>
      if truthy message then
        let* rateLimitResponse := checkRateLimit session in
        match rateLimitResponse with
        | Some response => reply_with response
        | None =>
            let provider := getActiveProvider env (body_provider body) in
            let available := getAvailableProviders env in
            if negb (includes_provider available provider) then
              reply_with
                (NextResponse_json
                   (JObj [($"error",
                           JStr ($"Provider " ++ [34%N] ++ provider_name provider ++ [34%N]
                                 ++ $" is not configured. Set the corresponding API key in your environment variables."))])
                   400)
            else
              let userId := match session with
                            | Some id => if truthy id then id else $""
                            | None => $""
                            end in
              let system_message := {| role := system; content := SYSTEM_PROMPT |} in
              let user_message := {| role := user; content := message |} in
              let* loaded :=
                match body_chatId body with
                | Some chatId =>
                    if truthy chatId then
                      let* existingChat := await (Called_getChatById chatId) (getChatById chatId) in
                      let history :=
                        match existingChat with
                        | Some chat =>
                            match chat_messages chat with
                            | Some msgs => msgs
                            | None => []
                            end
                        | None => []
                        end in
                      let m := {| added_chatId := chatId;
                                  added_role := $"user";
                                  added_content := message |} in
                      let* _ := await (Called_addMessageToChat m) (addMessageToChat_result m) in
                      proceed (history, chatId)
                    else
                      let* activeChatId :=
                        await (Called_createChat userId message) (createChat userId message) in
                      proceed ([], activeChatId)
                | None =>
                    let* activeChatId :=
                      await (Called_createChat userId message) (createChat userId message) in
                    proceed ([], activeChatId)
                end in
              let messages := system_message :: fst loaded ++ [user_message] in
              let activeChatId := snd loaded in
              if body_streaming body
              then handleStreaming_call provider messages activeChatId
              else handleNonStreaming provider messages message activeChatId
        end
      else reply_with (NextResponse_json (JObj [($"error", JStr $"Message is required")]) 400)
  | None => reply_with (NextResponse_json (JObj [($"error", JStr $"Message is required")]) 400)
  end.

(** The handler: the calls it made and the response it resolves with. *)
Definition POST (auth : Exn + option jsstring) (request_json : Exn + RequestBody)
  : list Effect * Response :=
  match POST_try auth request_json [] with
  | (log, Continue response) | (log, Respond response) => (log, response)
  | (log, Raise e) =>
      (log,
       NextResponse_json
         (JObj [($"error", JStr $"Failed to process request");
                ($"details", JStr (error_details e))])
         500)
  end.

End ChatRoute.

(** The calls that write to the database, and the calls to a provider. *)
Definition is_write (e : Effect) : bool :=
  match e with
  | Called_addMessageToChat _ | Called_createChat _ _
  | Called_updateChatVisibility _ _ | Called_forkChat _ _ => true
  | _ => false
  end.

Definition is_provider_call (e : Effect) : bool :=
  match e with
  | Called_createCompletion _ _ | Called_createStreamingCompletion _ _ => true
  | _ => false
  end.

(** A response that turns the request down: status 400, or one of the
    responses of [checkRateLimit]. *)
Definition refused (response : Response) : bool :=
  match response with
  | NextResponse_json _ status => (status =? 400)%N
  | ChatSDKError_toResponse _ => true
  | createStreamingResponse _ => false
  end.

(** The API key of a provider is set to a non-empty value. *)
Definition configured (env : ProcessEnv) (provider : AIProviderType) : bool :=
  match provider with
  | openai => truthy_opt (OPENAI_API_KEY env)
  | gemini => truthy_opt (GEMINI_API_KEY env)
  | claude => truthy_opt (ANTHROPIC_API_KEY env)
  end.

(** The provider and the messages of a call to a provider. *)
Definition provider_call (e : Effect) : option (AIProviderType * list ChatMessage) :=
  match e with
  | Called_createCompletion p ms | Called_createStreamingCompletion p ms => Some (p, ms)
  | _ => None
  end.

(** The stored messages [POST] puts between the system prompt and the
    new message: those of the chat the request names, when there is one. *)
Definition loaded_history (getChatById : jsstring -> Exn + option Chat)
    (chatId : option jsstring) : list ChatMessage :=
  match chatId with
  | Some id =>
      if truthy id then
        match getChatById id with
        | inr (Some chat) =>
            match chat_messages chat with Some msgs => msgs | None => [] end
        | _ => []
        end
      else []
  | None => []
  end.

(** A call that stores [message] as a user turn. *)
Definition stores_user_turn (message : jsstring) (e : Effect) : Prop :=
  match e with
  | Called_addMessageToChat m => added_role m = $"user" /\ added_content m = message
  | Called_createChat _ first => first = message
  | _ => False
  end.

(** A deployment with an OpenAI key, a signed-in user below the limit who
    opens a chat with "hi", and a provider that answers "Hello!". *)
Definition sample_env : ProcessEnv :=
  {| AI_PROVIDER := None; OPENAI_API_KEY := Some $"sk-test";
     GEMINI_API_KEY := None; ANTHROPIC_API_KEY := None |}.

Definition sample_request (streaming : bool) : RequestBody :=
  {| body_message := Some $"hi"; body_chatId := None;
     body_streaming := streaming; body_provider := None |}.

Definition sample_POST (auth : Exn + option jsstring) (streaming : bool)
  : list Effect * Response :=
  POST sample_env 50
    (fun _ _ => inr 0%N) (fun _ => inr None) (fun _ _ => inr $"chat-1")
    (fun _ => inr tt) (fun _ _ => inr $"Hello!") (fun _ _ => hello_generation)
    auth (inr (sample_request streaming)).

(** ** hooks/use-chat: the chat hook and the streaming message *)

(** [string | MessageBinaryFormat] *)
Inductive MessageContent : Type :=
| Text (s : jsstring)
| Binary (rows : list JValue).

Inductive MessageType : Type := type_user | type_assistant.

(** A message of the chat history.  The optional fields are [None] when
    they are not set. *)
Record ClientMessage : Type := {
  msg_type : MessageType;
  msg_content : MessageContent;
  msg_isStreaming : option bool;
  msg_stream : option ReadableStream
}.

(** A response as [fetch] resolves with it, with what the hook reads of
    it: [ok], [status], what [json()] settles with, and [body]. *)
Record ClientResponse : Type := {
  response_ok : bool;
  response_status : N;
  response_json : Exn + JValue;
  response_stream : option ReadableStream
}.

Definition defaultMessage : jsstring :=
  $"Sorry, there was an error processing your message. Please try again.".

Definition rateLimitMessage : jsstring :=
  $"You have exceeded your maximum number of messages for the day. Please try again later.".

(** The state of [useChat], with the calls made to
    [fetchAndCacheChatDetails]. *)
Record UseChat : Type := {
  hook_message : jsstring;
  hook_isLoading : bool;
  hook_isStreaming : bool;
  hook_chatHistory : list ClientMessage;
  hook_refreshed : list jsstring
}.

(** [setChatHistory((prev) => [...prev, m])] *)
Definition push_message (m : ClientMessage) (st : UseChat) : UseChat :=
  {| hook_message := hook_message st;
     hook_isLoading := hook_isLoading st;
     hook_isStreaming := hook_isStreaming st;
     hook_chatHistory := hook_chatHistory st ++ [m];
     hook_refreshed := hook_refreshed st |}.

(** The updater [handleStreamingComplete] gives to [setChatHistory]. *)
Definition complete_last (finalContent : MessageContent) (prev : list ClientMessage)
  : list ClientMessage :=
  match rev prev with
  | last_message :: before =>
      match msg_isStreaming last_message with
      | Some true =>
          rev before ++ [{| msg_type := msg_type last_message;
                            msg_content := finalContent;
                            msg_isStreaming := Some false;
                            msg_stream := None |}]
      | _ => prev
      end
  | [] => prev
  end.

(** A call [TextStreamingMessage] makes to the functions it is given, or
    to its own [setContent]. *)
Inductive UiCall : Type :=
| Ui_onChatData (chatData : JValue)
| Ui_setContent (accumulated : jsstring)
| Ui_onChunk (accumulated : jsstring)
| Ui_onError
| Ui_onComplete (finalContent : MessageContent).

Section Client.
Context {num : NumberConversions}.

(** The message of the [TypeError] the engine throws when a value cannot
    be converted to a string. *)
Variable conversion_error : jsstring.

Definition parseErrorResponse (response : ClientResponse) : JValue :=
  let fallback :=
    if (response_status response =? 429)%N
    then JStr rateLimitMessage else JStr defaultMessage in
  match response_json response with
  | inr errorData =>
      match prop errorData $"message" with
      | Some (Some message) => if ToBoolean message then message else fallback
      | Some None => fallback
      | None => fallback
      end
  | inl _ => fallback
  end.

(** [new Error(value).message], or the message of what the conversion
    throws. *)
Definition Error_message (value : JValue) : jsstring :=
  match ToString value with
  | Some text => text
  | None => conversion_error
  end.

(** What reaches the server of the request [handleSendMessage] sends. *)
Definition request_body (userMessage chatId : jsstring) : RequestBody :=
  {| body_message := Some userMessage;
     body_chatId := Some chatId;
     body_streaming := true;
     body_provider := None |}.

(** [handleSendMessage], for a call of [fetch] that settles as [fetched]
    says for the body it is given. *)
Definition handleSendMessage (chatId : jsstring)
    (fetched : RequestBody -> Exn + ClientResponse) (st : UseChat) : UseChat :=
  if negb (truthy (trim (hook_message st))) || hook_isLoading st || negb (truthy chatId)
  then st
  else
    let userMessage := trim (hook_message st) in
    let sent :=
      push_message {| msg_type := type_user; msg_content := Text userMessage;
                      msg_isStreaming := None; msg_stream := None |}
        {| hook_message := $"";
           hook_isLoading := true;
           hook_isStreaming := hook_isStreaming st;
           hook_chatHistory := hook_chatHistory st;
           hook_refreshed := hook_refreshed st |} in
    let caught (errorMessage : jsstring) :=
      let failed :=
        push_message {| msg_type := type_assistant; msg_content := Text errorMessage;
                        msg_isStreaming := None; msg_stream := None |} sent in
      {| hook_message := hook_message failed;
         hook_isLoading := false;
         hook_isStreaming := hook_isStreaming failed;
         hook_chatHistory := hook_chatHistory failed;
         hook_refreshed := hook_refreshed failed |} in
    match fetched (request_body userMessage chatId) with
    | inl e =>
        caught match e with
               | Some message => message
               | None => defaultMessage
               end
    | inr response =>
        if negb (response_ok response)
        then caught (Error_message (parseErrorResponse response))
        else
          match response_stream response with
          | None => caught $"No response body for streaming"
          | Some body =>
              push_message {| msg_type := type_assistant; msg_content := Binary [];
                              msg_isStreaming := Some true; msg_stream := Some body |}
                {| hook_message := hook_message sent;
                   hook_isLoading := hook_isLoading sent;
                   hook_isStreaming := true;
                   hook_chatHistory := hook_chatHistory sent;
                   hook_refreshed := hook_refreshed sent |}
          end
    end.

(** [handleStreamingComplete], in a render where the hook holds [chatId]
    and [currentChat] is set or not. *)
Definition handleStreamingComplete (chatId : jsstring) (has_currentChat : bool)
    (finalContent : MessageContent) (st : UseChat) : UseChat :=
  let recovered :=
    match finalContent with
    | Binary rows =>
        if negb has_currentChat then
          match extractChatIdFromContent rows with
          | Some newChatId => if truthy newChatId then [newChatId] else []
          | None => []
          end
        else []
    | Text _ => []
    end in
  {| hook_message := hook_message st;
     hook_isLoading := false;
     hook_isStreaming := false;
     hook_chatHistory := complete_last finalContent (hook_chatHistory st);
     hook_refreshed := hook_refreshed st ++ [chatId] ++ recovered |}.

(** The callbacks [TextStreamingMessage] passes to [consumeSSEStream]:
    [onChatData] as it was given, and a closure that sets the content
    shown and calls [onChunk]. *)
Definition ui_callbacks (c : Call) : list UiCall :=
  match c with
  | Call_onChatData id => [Ui_onChatData id]
  | Call_onContent accumulated => [Ui_setContent accumulated; Ui_onChunk accumulated]
  end.

(** One run of the effect of [TextStreamingMessage], from its start to
    the call of [onComplete]: the value of [hasCompletedRef.current]
    afterwards and the calls made. *)
Definition TextStreamingMessage (hasCompleted : bool) (stream : ReadableStream)
  : bool * list UiCall :=
  if hasCompleted then (true, [])
  else
    let (calls, settled_with) := consumeSSEStream stream in
    let during := flat_map ui_callbacks calls in
    match settled_with with
    | Some finalContent => (true, during ++ [Ui_onComplete (Text finalContent)])
    | None => (true, during ++ [Ui_onError; Ui_onComplete (Text $"")])
    end.

(** The hook after the calls of a streaming message: [onComplete] is
    [handleStreamingComplete]; the other calls leave its state alone. *)
Definition after_ui_calls (chatId : jsstring) (has_currentChat : bool)
    (calls : list UiCall) (st : UseChat) : UseChat :=
  fold_left (fun st c =>
               match c with
               | Ui_onComplete finalContent =>
                   handleStreamingComplete chatId has_currentChat finalContent st
               | _ => st
               end) calls st.

End Client.

(** The streams [ChatMessages] renders a [TextStreamingMessage] for. *)
Definition streaming_messages (chatHistory : list ClientMessage) : list ReadableStream :=
  flat_map (fun m =>
              match msg_isStreaming m, msg_stream m with
              | Some true, Some stream => [stream]
              | _, _ => []
              end) chatHistory.

(** A response of the handler as [fetch] resolves with it, as far as the
    handler fixes it.  A JSON response has the status and the body it was
    made with.  A streaming response is [ok], and its body carries the
    enqueued frames in order, some number of them to a read. *)
Definition delivered_as (response : Response) (c : ClientResponse) : Prop :=
  match response with
  | NextResponse_json body status =>
      response_ok c = (200 <=? status)%N && (status <=? 299)%N /\
      response_status c = status /\
      response_json c = inr body
  | createStreamingResponse stream =>
      response_ok c = true /\
      exists groups : list (list bytes),
        List.concat groups = enqueued stream /\
        response_stream c
        = Some {| chunks := map (@List.concat _) groups;
                  fails := fails (response_body stream) |}
  | ChatSDKError_toResponse _ => True
  end.

(** The sample deployment answering a request of the hook, and the hook
    with " hi " typed into it, for the chat "chat-1". *)
Definition sample_server (auth : Exn + option jsstring) (body : RequestBody)
  : list Effect * Response :=
  POST sample_env 50
    (fun _ _ => inr 0%N) (fun _ => inr None) (fun _ _ => inr $"chat-1")
    (fun _ => inr tt) (fun _ _ => inr $"Hello!") (fun _ _ => hello_generation)
    auth (inr body).

Definition sample_hook : UseChat :=
  {| hook_message := $" hi "; hook_isLoading := false; hook_isStreaming := false;
     hook_chatHistory := []; hook_refreshed := [] |}.

Definition sample_num : NumberConversions :=
  {| Number_ToBoolean := fun _ => true; Number_toString := fun lexeme => lexeme |}.



(** ** app/api/chats: the routes of a chat *)

(** [["public", "private", "team", "team-edit", "unlisted"].includes(privacy)] *)
Definition privacy_settings : list jsstring :=
  [$"public"; $"private"; $"team"; $"team-edit"; $"unlisted"].

Definition includes_privacy (privacy : JValue) : option jsstring :=
  match privacy with
  | JStr s => if existsb (JS.eqb s) privacy_settings then Some s else None
  | _ => None
  end.

(** [session?.user?.id], when it is set to a non-empty string. *)
Definition signed_in (session : option jsstring) : option jsstring :=
  match session with
  | Some userId => if truthy userId then Some userId else None
  | None => None
  end.

(** The index of a message in a template literal: its decimal digits. *)
Definition index_text (index : nat) : jsstring :=
  str (DecimalString.NilEmpty.string_of_uint (Nat.to_uint index)).

(** [`${chat.id}-msg-${index}`] *)
Definition message_id (chatId : jsstring) (index : nat) : jsstring :=
  chatId ++ $"-msg-" ++ index_text index.

Definition role_name (r : Role) : jsstring :=
  match r with
  | system => $"system"
  | user => $"user"
  | assistant => $"assistant"
  end.

(** [(chat.messages || []).map((msg, index) => ...)], from [index] on. *)
Fixpoint messages_json (chatId : jsstring) (index : nat) (msgs : list ChatMessage)
  : list JValue :=
  match msgs with
  | [] => []
  | msg :: rest =>
      JObj [($"id", JStr (message_id chatId index));
            ($"role", JStr (role_name (role msg)));
            ($"content", JStr (content msg))]
      :: messages_json chatId (S index) rest
  end.

(** A possibly null string as a JSON value. *)
Definition nullable (v : option jsstring) : JValue :=
  match v with Some s => JStr s | None => JNull end.

Section ChatRoutes.
Context {num : NumberConversions}.

Variable getChatById : jsstring -> Exn + option Chat.
Variable updateChatVisibility_result : jsstring -> jsstring -> Exn + unit.
Variable forkChat : JValue -> jsstring -> Exn + jsstring.

(** The message of the [TypeError] the engine throws when a property of
    [null] is read. *)
Variable null_error : jsstring.

(** [const { key } = await request.json()] *)
Definition destructured (request_json : Exn + JValue) (key : jsstring)
  : Handler (option JValue) :=
  let* body := settled request_json in
  settled match prop body key with
          | Some v => inr v
          | None => inl (Some null_error)
          end.

(** A date as [NextResponse.json] writes it. *)
Variable Date_toJSON : N -> jsstring.

(** [GET /api/chats/[chatId]] *)
Definition GET_chat_try (auth : Exn + option jsstring) (chatId : jsstring)
  : Handler Chat :=
  let* session := settled auth in
  if negb (truthy chatId) then
    reply_with (NextResponse_json (JObj [($"error", JStr $"Chat ID is required")]) 400)
  else
    let* found := await (Called_getChatById chatId) (getChatById chatId) in
    match found with
    | None => reply_with (NextResponse_json (JObj [($"error", JStr $"Chat not found")]) 404)
    | Some chat =>
        match signed_in session with
        | Some userId =>
            if negb (JS.eqb (chat_user_id chat) userId)
            then reply_with (NextResponse_json (JObj [($"error", JStr $"Forbidden")]) 403)
            else proceed chat
        | None => proceed chat
        end
    end.

Definition chat_json (chat : Chat) : JValue :=
  JObj [($"id", JStr (chat_id chat));
        ($"name", nullable (chat_name chat));
        ($"demo", nullable (chat_demo_url chat));
        ($"messages",
         JArr (messages_json (chat_id chat) 0
                 match chat_messages chat with Some msgs => msgs | None => [] end));
        ($"createdAt", JStr (Date_toJSON (chat_created_at chat)));
        ($"updatedAt", JStr (Date_toJSON (chat_updated_at chat)))].

Definition GET_chat (auth : Exn + option jsstring) (chatId : jsstring)
  : list Effect * Response :=
  match GET_chat_try auth chatId [] with
  | (log, Continue chat) => (log, NextResponse_json (chat_json chat) 200)
  | (log, Respond response) => (log, response)
  | (log, Raise e) =>
      (log,
       NextResponse_json
         (JObj [($"error", JStr $"Failed to fetch chat details");
                ($"details", JStr (error_details e))])
         500)
  end.

(** [PATCH /api/chats/[chatId]/visibility] *)
Definition PATCH_visibility_try (auth : Exn + option jsstring) (chatId : jsstring)
    (request_json : Exn + JValue) : Handler Response :=
  let* session := settled auth in
  match signed_in session with
  | None =>
      reply_with (NextResponse_json (JObj [($"error", JStr $"Authentication required")]) 401)
  | Some userId =>
      if negb (truthy chatId) then
        reply_with (NextResponse_json (JObj [($"error", JStr $"Chat ID is required")]) 400)
      else
        let* found := await (Called_getChatById chatId) (getChatById chatId) in
        let owned :=
          match found with
          | Some chat => JS.eqb (chat_user_id chat) userId
          | None => false
          end in
        if negb owned then
          reply_with
            (NextResponse_json
               (JObj [($"error", JStr $"Chat not found or access denied")]) 404)
        else
          let* privacy := destructured request_json $"privacy" in
          match (match privacy with Some v => includes_privacy v | None => None end) with
          | None =>
              reply_with
                (NextResponse_json (JObj [($"error", JStr $"Invalid privacy setting")]) 400)
          | Some visibility =>
              let* _ :=
                await (Called_updateChatVisibility chatId visibility)
                  (updateChatVisibility_result chatId visibility) in
              reply_with
                (NextResponse_json
                   (JObj [($"id", JStr chatId); ($"visibility", JStr visibility)]) 200)
          end
  end.

Definition PATCH_visibility (auth : Exn + option jsstring) (chatId : jsstring)
    (request_json : Exn + JValue) : list Effect * Response :=
  match PATCH_visibility_try auth chatId request_json [] with
  | (log, Continue response) | (log, Respond response) => (log, response)
  | (log, Raise e) =>
      (log,
       NextResponse_json
         (JObj [($"error", JStr $"Failed to change chat visibility");
                ($"details", JStr (error_details e))])
         500)
  end.

(** [POST /api/chat/fork] *)
Definition POST_fork_try (auth : Exn + option jsstring) (request_json : Exn + JValue)
  : Handler Response :=
  let* session := settled auth in
  let* chatId := destructured request_json $"chatId" in
  match chatId with
  | Some id =>
      if ToBoolean id then
        match signed_in session with
        | None =>
            reply_with
              (NextResponse_json (JObj [($"error", JStr $"Authentication required")]) 401)
        | Some userId =>
            let* newChatId := await (Called_forkChat id userId) (forkChat id userId) in
            reply_with (NextResponse_json (JObj [($"id", JStr newChatId)]) 200)
        end
      else
        reply_with (NextResponse_json (JObj [($"error", JStr $"Chat ID is required")]) 400)
  | None =>
      reply_with (NextResponse_json (JObj [($"error", JStr $"Chat ID is required")]) 400)
  end.

Definition POST_fork (auth : Exn + option jsstring) (request_json : Exn + JValue)
  : list Effect * Response :=
  match POST_fork_try auth request_json [] with
  | (log, Continue response) | (log, Respond response) => (log, response)
  | (log, Raise _) =>
      (log, NextResponse_json (JObj [($"error", JStr $"Failed to fork chat")]) 500)
  end.

End ChatRoutes.

(** A chat with another visibility. *)
Definition with_visibility (visibility : option jsstring) (chat : Chat) : Chat :=
  {| chat_id := chat_id chat;
     chat_user_id := chat_user_id chat;
     chat_name := chat_name chat;
     chat_messages := chat_messages chat;
     chat_visibility := visibility;
     chat_demo_url := chat_demo_url chat;
     chat_created_at := chat_created_at chat;
     chat_updated_at := chat_updated_at chat |}.

(** The chat "chat-1" of the user "u1", holding one exchange. *)
Definition sample_chat : Chat :=
  {| chat_id := $"chat-1";
     chat_user_id := $"u1";
     chat_name := Some $"hi";
     chat_messages := Some [ {| role := user; content := $"hi" |};
                             {| role := assistant; content := $"Hello!" |} ];
     chat_visibility := Some $"private";
     chat_demo_url := None;
     chat_created_at := 0;
     chat_updated_at := 0 |}.

(** ** The check of the environment *)

Record MissingEnvVar : Type := {
  var_name : jsstring;
  var_description : jsstring;
  var_example : jsstring;
  var_required : bool
}.

(** [process.env], with the keys the check reads besides those of the
    provider router. *)
Record SetupEnv : Type := {
  provider_env : ProcessEnv;
  AUTH_SECRET : option jsstring;
  POSTGRES_URL : option jsstring
}.

(** [process.env[name]] *)
Definition getenv (env : SetupEnv) (name : jsstring) : option jsstring :=
  if JS.eqb name $"AUTH_SECRET" then AUTH_SECRET env
  else if JS.eqb name $"POSTGRES_URL" then POSTGRES_URL env
  else if JS.eqb name $"OPENAI_API_KEY" then OPENAI_API_KEY (provider_env env)
  else if JS.eqb name $"GEMINI_API_KEY" then GEMINI_API_KEY (provider_env env)
  else if JS.eqb name $"ANTHROPIC_API_KEY" then ANTHROPIC_API_KEY (provider_env env)
  else if JS.eqb name $"AI_PROVIDER" then AI_PROVIDER (provider_env env)
  else None.

(** [!value || value.trim() === ""] *)
Definition unset_or_blank (value : option jsstring) : bool :=
  match value with
  | Some s => negb (truthy s) || JS.eqb (trim s) $""
  | None => true
  end.

(** [!!value?.trim()] *)
Definition set_and_not_blank (value : option jsstring) : bool :=
  match value with
  | Some s => truthy (trim s)
  | None => false
  end.

Definition requiredVars : list MissingEnvVar :=
  [ {| var_name := $"AUTH_SECRET";
       var_description := $"Secret key for NextAuth.js authentication";
       var_example := $"your-secret-key-here";
       var_required := true |};
    {| var_name := $"POSTGRES_URL";
       var_description := $"PostgreSQL database connection string";
       var_example := $"";
       var_required := true |} ].

Definition checkRequiredEnvVars (env : SetupEnv) : list MissingEnvVar :=
  let missing := filter (fun envVar => unset_or_blank (getenv env (var_name envVar)))
                   requiredVars in
  let hasOpenAI := set_and_not_blank (OPENAI_API_KEY (provider_env env)) in
  let hasGemini := set_and_not_blank (GEMINI_API_KEY (provider_env env)) in
  if negb (hasOpenAI || hasGemini) then
    missing
    ++ [ {| var_name := $"OPENAI_API_KEY or GEMINI_API_KEY";
            var_description :=
              $"At least one AI provider API key is required (OpenAI or Google Gemini)";
            var_example := $"sk-... or AIza...";
            var_required := true |} ]
  else missing.

Definition hasAllRequiredEnvVars (env : SetupEnv) : bool :=
  match checkRequiredEnvVars env with [] => true | _ :: _ => false end.

Definition hasEnvVars (env : SetupEnv) : bool :=
  let hasOpenAI := truthy_opt (OPENAI_API_KEY (provider_env env)) in
  let hasGemini := truthy_opt (GEMINI_API_KEY (provider_env env)) in
  (hasOpenAI || hasGemini) && truthy_opt (AUTH_SECRET env) && truthy_opt (POSTGRES_URL env).

(** The sample deployment with a secret and a database. *)
Definition sample_setup : SetupEnv :=
  {| provider_env := sample_env;
     AUTH_SECRET := Some $"secret";
     POSTGRES_URL := Some $"postgres://db" |}.

(** ** lib/db/queries: the queries on chats

    The tables as lists of rows, with the constraints the migration
    declares for [chats]: the primary key [id], and the foreign key from
    [user_id] to the ids of [users].  Of [chat_ownerships] the model keeps
    the two columns the queries write and the uniqueness of [v0_chat_id]
    that [onConflictDoNothing] names. *)

Module Queries.

Record Ownership : Type := { v0_chat_id : jsstring; ownership_user_id : jsstring }.

Record Database : Type := {
  users : list jsstring;
  chats : list Chat;
  chat_ownerships : list Ownership
}.

(** The connection: [None] when [db] is not initialised. *)
Definition Connection : Type := option Database.

Definition not_initialized : Exn :=
  Some $"Database not initialized. Ensure POSTGRES_URL is set.".

(** [eq(chats.id, chatId)] *)
Definition has_id (chatId : jsstring) (c : Chat) : bool := JS.eqb (chat_id c) chatId.

(** [`Chat ${chatId} not found`] *)
Definition not_found (chatId : jsstring) : Exn :=
  Some ($"Chat " ++ chatId ++ $" not found").

(** [update(chats).set(...).where(eq(chats.id, chatId))] *)
Definition update_chat (chatId : jsstring) (set : Chat -> Chat) (db : Database) : Database :=
  {| users := users db;
     chats := map (fun c => if has_id chatId c then set c else c) (chats db);
     chat_ownerships := chat_ownerships db |}.

Definition getChatById (chatId : jsstring) (conn : Connection) : Exn + option Chat :=
  match conn with
  | None => inl not_initialized
  | Some db => inr (hd_error (filter (has_id chatId) (chats db)))
  end.

(** The time [differenceInHours] before [now], in milliseconds. *)
Definition hoursAgo (now differenceInHours : N) : Z :=
  (Z.of_N now - Z.of_N differenceInHours * 60 * 60 * 1000)%Z.

Definition getChatCountByUserId (userId : jsstring) (differenceInHours now : N)
    (conn : Connection) : Exn + N :=
  match conn with
  | None => inl not_initialized
  | Some db =>
      inr (N.of_nat
             (List.length
                (filter (fun c => JS.eqb (chat_user_id c) userId
                                  && (hoursAgo now differenceInHours
                                      <=? Z.of_N (chat_created_at c))%Z)
                   (chats db))))
  end.

Definition addMessageToChat (chatId : jsstring) (as_role : Role) (text : jsstring)
    (now : N) (conn : Connection) : Connection * (Exn + unit) :=
  match getChatById chatId conn, conn with
  | inr (Some chat), Some db =>
      let messages :=
        match chat_messages chat with Some msgs => msgs | None => [] end
        ++ [{| role := as_role; content := text |}] in
      (Some (update_chat chatId
               (fun c => {| chat_id := chat_id c;
                            chat_user_id := chat_user_id c;
                            chat_name := chat_name c;
                            chat_messages := Some messages;
                            chat_visibility := chat_visibility c;
                            chat_demo_url := chat_demo_url c;
                            chat_created_at := chat_created_at c;
                            chat_updated_at := now |}) db),
       inr tt)
  | inr None, _ => (conn, inl (not_found chatId))
  | inl e, _ => (conn, inl e)
  | _, None => (conn, inl not_initialized)
  end.

Definition updateChatVisibility (chatId visibility : jsstring) (now : N)
    (conn : Connection) : Connection * (Exn + unit) :=
  match conn with
  | None => (conn, inl not_initialized)
  | Some db =>
      (Some (update_chat chatId
               (fun c => {| chat_id := chat_id c;
                            chat_user_id := chat_user_id c;
                            chat_name := chat_name c;
                            chat_messages := chat_messages c;
                            chat_visibility := Some visibility;
                            chat_demo_url := chat_demo_url c;
                            chat_created_at := chat_created_at c;
                            chat_updated_at := now |}) db),
       inr tt)
  end.

Definition deleteChat (chatId : jsstring) (conn : Connection) : Connection * (Exn + unit) :=
  match conn with
  | None => (conn, inl not_initialized)
  | Some db =>
      (Some {| users := users db;
               chats := filter (fun c => negb (has_id chatId c)) (chats db);
               chat_ownerships :=
                 filter (fun o => negb (JS.eqb (v0_chat_id o) chatId)) (chat_ownerships db) |},
       inr tt)
  end.

(** [orderBy(desc(chats.created_at))]: a row comes before the rows
    created no later than it. *)
Definition newest_first (a b : Chat) : Prop :=
  (chat_created_at b <= chat_created_at a)%N.

(** [getChatsByUserId]: the rows of the user, the later created first.
    Rows created at the same time come in the order the database
    chooses, so this says which results the query can give. *)
Definition getChatsByUserId (userId : jsstring) (conn : Connection)
    (result : Exn + list Chat) : Prop :=
  match conn with
  | None => result = inl not_initialized
  | Some db =>
      exists rows,
        result = inr rows /\
        Permutation rows (filter (fun c => JS.eqb (chat_user_id c) userId) (chats db)) /\
        Sorted newest_first rows
  end.

Section Inserts.

(** The message of the error the driver throws for a row that breaks a
    constraint. *)
Variable constraint_error : jsstring.

(** [insert(chats).values(row)]: the row is refused when its id is taken
    or its user is not a row of [users]. *)
Definition insert_chat (row : Chat) (db : Database) : Exn + Database :=
  if existsb (has_id (chat_id row)) (chats db)
     || negb (existsb (JS.eqb (chat_user_id row)) (users db))
  then inl (Some constraint_error)
  else inr {| users := users db;
              chats := chats db ++ [row];
              chat_ownerships := chat_ownerships db |}.

(** [insert(chat_ownerships).values(row).onConflictDoNothing(...)] *)
Definition insert_ownership (row : Ownership) (db : Database) : Database :=
  if existsb (fun o => JS.eqb (v0_chat_id o) (v0_chat_id row)) (chat_ownerships db)
  then db
  else {| users := users db;
          chats := chats db;
          chat_ownerships := chat_ownerships db ++ [row] |}.

(** [createChat], for the id [nanoid()] returns and the time of the
    database. *)
Definition createChat (userId message : jsstring) (chatId : jsstring) (now : N)
    (conn : Connection) : Connection * (Exn + jsstring) :=
  match conn with
  | None => (conn, inl not_initialized)
  | Some db =>
      match insert_chat
              {| chat_id := chatId;
                 chat_user_id := userId;
                 chat_name := Some (firstn 100 message);
                 chat_messages := Some [{| role := user;
                                           content := message |}];
                 chat_visibility := Some $"private";
                 chat_demo_url := None;
                 chat_created_at := now;
                 chat_updated_at := now |} db with
      | inl e => (conn, inl e)
      | inr db' =>
          (Some (insert_ownership {| v0_chat_id := chatId; ownership_user_id := userId |} db'),
           inr chatId)
      end
  end.

Definition forkChat (chatId userId : jsstring) (newChatId : jsstring) (now : N)
    (conn : Connection) : Connection * (Exn + jsstring) :=
  match getChatById chatId conn, conn with
  | inr (Some original), Some db =>
      match insert_chat
              {| chat_id := newChatId;
                 chat_user_id := userId;
                 chat_name := Some match chat_name original with
                                   | Some name =>
                                       if truthy name then $"Fork of " ++ name
                                       else $"Forked Chat"
                                   | None => $"Forked Chat"
                                   end;
                 chat_messages := Some match chat_messages original with
                                       | Some msgs => msgs
                                       | None => []
                                       end;
                 chat_visibility := Some $"private";
                 chat_demo_url := None;
                 chat_created_at := now;
                 chat_updated_at := now |} db with
      | inl e => (conn, inl e)
      | inr db' =>
          (Some (insert_ownership {| v0_chat_id := newChatId; ownership_user_id := userId |} db'),
           inr newChatId)
      end
  | inr None, _ => (conn, inl (not_found chatId))
  | inl e, _ => (conn, inl e)
  | _, None => (conn, inl not_initialized)
  end.

End Inserts.

End Queries.

(** A database with the user "u1" and the sample chat. *)
Definition sample_db : Queries.Database :=
  {| Queries.users := [$"u1"];
     Queries.chats := [sample_chat];
     Queries.chat_ownerships :=
       [{| Queries.v0_chat_id := $"chat-1"; Queries.ownership_user_id := $"u1" |}] |}.

(** ** lib/projects: the projects of a user *)


Section Projects.

(** [date.toISOString()] *)
Variable toISOString : N -> jsstring.




End Projects.

(** ** app/api/chats/route: the chats of the signed-in user *)

Section ChatsRoute.

Variable getChatsByUserId : jsstring -> Exn + list Chat.

(** A date as [NextResponse.json] writes it. *)
Variable Date_toJSON : N -> jsstring.

Definition listed_chat (chat : Chat) : JValue :=
  JObj [($"id", JStr (chat_id chat));
        ($"name", nullable (chat_name chat));
        ($"demo", nullable (chat_demo_url chat));
        ($"createdAt", JStr (Date_toJSON (chat_created_at chat)));
        ($"updatedAt", JStr (Date_toJSON (chat_updated_at chat)));
        ($"messages",
         JArr (map message_json
                 match chat_messages chat with Some msgs => msgs | None => [] end))].

(** [GET /api/chats] *)
Definition GET_chats_try (auth : Exn + option jsstring) : Handler Response :=
  let* session := settled auth in
  match signed_in session with
  | None => reply_with (NextResponse_json (JObj [($"data", JArr [])]) 200)
  | Some userId =>
      let* userChats :=
        await (Called_getChatsByUserId userId) (getChatsByUserId userId) in
      reply_with
        (NextResponse_json (JObj [($"data", JArr (map listed_chat userChats))]) 200)
  end.

Definition GET_chats (auth : Exn + option jsstring) : list Effect * Response :=
  match GET_chats_try auth [] with
  | (log, Continue response) | (log, Respond response) => (log, response)
  | (log, Raise e) =>
      (log,
       NextResponse_json
         (JObj [($"error", JStr $"Failed to fetch chats");
                ($"details", JStr (error_details e))])
         500)
  end.

End ChatsRoute.

(** ** Following [JSON.parse] over a part of a text

    Predicates on the states of the scanner and on the texts
    [JSON.stringify] writes, used to follow [JSON.parse] when it is given
    the beginning or the end of such a text. *)

(** The parser either has a container open or has read a whole value. *)
Definition open_or_done (p : pstate) : Prop :=
  match p with
  | (stack, EDone _) => stack = []
  | (stack, _) => stack <> []
  end.

(** The scanner is between tokens, in a number, or in a literal name
    whose remaining letters hold no quotation mark and no reverse
    solidus: anywhere but inside a string. *)
Definition outside_string (l : lexst) : bool :=
  match l with
  | LStart | LNumber _ _ => true
  | LLit rest _ => forallb (fun x => negb (x =? 34)%N && negb (x =? 92)%N) rest
  | _ => false
  end.

(** Every quotation mark of [s] follows a reverse solidus, [prev] being
    the code unit before [s]. *)
Fixpoint quotes_escaped (prev : N) (s : jsstring) : bool :=
  match s with
  | [] => true
  | c :: s' => (negb (c =? 34)%N || (prev =? 92)%N) && quotes_escaped c s'
  end.

(** The braces, the colon and the comma. *)
Definition punctuation (c : N) : bool :=
  ((c =? 123) || (c =? 125) || (c =? 58) || (c =? 44))%N.

(** What can follow the closing quotation mark of a string in the text of
    an object of strings: punctuation, then either the end or a further
    quoted string and what follows it. *)
Inductive after_string : jsstring -> Prop :=
| after_last_string (marks : jsstring) :
    forallb punctuation marks = true -> after_string marks
| after_inner_string (marks s rest : jsstring) :
    forallb punctuation marks = true -> after_string rest ->
    after_string (marks ++ 34%N :: quote_body s ++ 34%N :: rest).

(* ================================================================== *)
(** * Part II: properties                                              *)
(* ================================================================== *)

(** ** Strings *)

Lemma eqb_eq (a b : jsstring) : JS.eqb a b = true <-> a = b.
Proof.
  revert b; induction a as [|x a IH]; intros [|y b]; simpl; split;
    try congruence; try reflexivity.
  - intros H. apply andb_true_iff in H as [Hx Hab].
    apply N.eqb_eq in Hx. apply IH in Hab. congruence.
  - intros H. injection H as -> ->. rewrite N.eqb_refl. simpl.
    apply IH. reflexivity.
Qed.

Lemma eqb_refl (a : jsstring) : JS.eqb a a = true.
Proof. apply eqb_eq. reflexivity. Qed.

Lemma eqb_neq (a b : jsstring) : JS.eqb a b = false <-> a <> b.
Proof.
  split.
  - intros H E. apply eqb_eq in E. congruence.
  - intros H. destruct (JS.eqb a b) eqn:E; [|reflexivity].
    apply eqb_eq in E. contradiction.
Qed.

Lemma is_str_true (v : option jsstring) (name : jsstring) :
  is_str v name = true <-> v = Some name.
Proof.
  destruct v as [s|]; simpl.
  - rewrite eqb_eq. split; congruence.
  - split; congruence.
Qed.

(** ** Provider router *)

Lemma member_name (v : option jsstring) (p : AIProviderType) :
  member v = Some p <-> v = Some (provider_name p).
Proof.
  unfold member. cbn [find]. split.
  - intros H.
    destruct (is_str v (provider_name openai)) eqn:E1;
      [injection H as <-; now apply is_str_true|].
    destruct (is_str v (provider_name gemini)) eqn:E2;
      [injection H as <-; now apply is_str_true|].
    destruct (is_str v (provider_name claude)) eqn:E3;
      [injection H as <-; now apply is_str_true|].
    discriminate.
  - intros ->. destruct p; reflexivity.
Qed.

(** C4, as the code has it.  Resolution follows this precedence: a
    requested override that names a member of the enumeration is that
    member, whatever credentials are configured; otherwise the default
    setting, once lower-cased, when it names a member; otherwise the first
    provider in the order OpenAI, Gemini, Claude whose credential is set
    to a non-empty value; otherwise OpenAI. *)
Theorem getActiveProvider_precedence (env : ProcessEnv) (requested : option jsstring) :
  (forall p, getActiveProvider env (Some (provider_name p)) = p) /\
  getActiveProvider env requested =
    match member requested with
    | Some p => p
    | None =>
        match member (option_map toLowerCase (AI_PROVIDER env)) with
        | Some p => p
        | None => hd openai (getAvailableProviders env)
        end
    end.
Proof.
  split; [intros []; reflexivity|].
  unfold getActiveProvider, member, getAvailableProviders.
  cbn [find provider_name].
  destruct (is_str requested $"openai") eqn:R1; [reflexivity|].
  destruct (is_str requested $"gemini") eqn:R2; [reflexivity|].
  destruct (is_str requested $"claude") eqn:R3; [reflexivity|].
  set (e := option_map toLowerCase (AI_PROVIDER env)).
  destruct (is_str e $"gemini") eqn:E2.
  { apply is_str_true in E2. rewrite E2. reflexivity. }
  destruct (is_str e $"claude") eqn:E3.
  { apply is_str_true in E3. rewrite E3. reflexivity. }
  destruct (is_str e $"openai") eqn:E1; [reflexivity|].
  destruct (truthy_opt (OPENAI_API_KEY env)); [reflexivity|].
  destruct (truthy_opt (GEMINI_API_KEY env)); [reflexivity|].
  destruct (truthy_opt (ANTHROPIC_API_KEY env)); reflexivity.
Qed.

(** C4, as the document words it, fails: with no override, the default
    setting GEMINI (not a member as written) and an OpenAI credential, the
    document's precedence gives OpenAI and the code gives Gemini. *)
Lemma getActiveProvider_not_as_documented :
  let env := {| AI_PROVIDER := Some $"GEMINI";
                OPENAI_API_KEY := Some $"sk-test";
                GEMINI_API_KEY := None;
                ANTHROPIC_API_KEY := None |} in
  resolve_as_documented env None = openai /\
  getActiveProvider env None = gemini /\
  getActiveProvider env None <> resolve_as_documented env None.
Proof. repeat split; vm_compute; congruence. Qed.

(** ** Gemini message normaliser *)

Lemma join_cons (sep x : jsstring) (l : list jsstring) :
  join sep (x :: l) = x ++ List.concat (map (fun c => sep ++ c) l).
Proof.
  revert x; induction l as [|y l IH]; intros x.
  - simpl. now rewrite app_nil_r.
  - change (join sep (x :: y :: l)) with (x ++ sep ++ join sep (y :: l)).
    rewrite IH. simpl. now rewrite <- app_assoc.
Qed.

Lemma instruction_fold_nonempty (l : list jsstring) (acc : jsstring) :
  truthy acc = true ->
  fold_left instruction_append l acc = acc ++ List.concat (map (fun c => LF ++ c) l).
Proof.
  revert acc; induction l as [|c l IH]; intros acc Hacc; simpl.
  - now rewrite app_nil_r.
  - rewrite IH.
    + unfold instruction_append. rewrite Hacc. now rewrite <- !app_assoc.
    + unfold instruction_append. destruct acc; [discriminate|reflexivity].
Qed.

Lemma instruction_fold (l : list jsstring) :
  fold_left instruction_append l [] = join LF (drop_empty l).
Proof.
  induction l as [|c l IH]; [reflexivity|].
  destruct c as [|x c].
  - simpl. exact IH.
  - cbn [fold_left drop_empty]. rewrite join_cons.
    change (instruction_append [] (x :: c)) with (x :: c).
    now apply instruction_fold_nonempty.
Qed.

Lemma ends_with_user_cons (m m' : ChatMessage) (l : list ChatMessage) :
  ends_with_user (m :: m' :: l) = ends_with_user (m' :: l).
Proof.
  unfold ends_with_user. simpl.
  destruct (rev l ++ [m']) as [|x r] eqn:E.
  - destruct (rev l); discriminate.
  - reflexivity.
Qed.

(** The loop, from any index on: the instruction folds the remaining
    system messages in, the history grows by the remaining messages that
    are neither system messages nor a final user turn, and the final-turn
    slot takes a final user turn. *)
Lemma toGemini_loop_spec (len : nat) (rest : list ChatMessage) :
  forall (acc : GeminiMessages) (i : nat),
  i + List.length rest = len ->
  let g := toGemini_loop len acc i rest in
  systemInstruction g
    = fold_left instruction_append (system_contents rest) (systemInstruction acc) /\
  history g
    = history acc ++
      map relay
        (filter (fun m => negb (is_system (role m)))
           (if ends_with_user rest then removelast rest else rest)) /\
  lastMessage g
    = (if ends_with_user rest then content (last rest {| role := user; content := [] |})
       else lastMessage acc).
Proof.
  induction rest as [|m rest IH]; intros acc i Hlen.
  - simpl. rewrite app_nil_r. auto.
  - cbn [toGemini_loop]. cbn zeta.
    assert (Hstep : S i + List.length rest = len) by (simpl in Hlen; lia).
    specialize (IH (toGemini_step len acc i m) (S i) Hstep).
    cbn zeta in IH. destruct IH as (IHs & IHh & IHl).
    rewrite IHs, IHh, IHl. clear IHs IHh IHl.
    unfold toGemini_step, system_contents.
    destruct rest as [|m' rest].
    + (* [m] is the last message *)
      assert (Hi : Nat.eqb i (len - 1) = true)
        by (apply Nat.eqb_eq; simpl in Hlen; lia).
      rewrite Hi. unfold ends_with_user.
      destruct m as [[] c]; simpl; rewrite ?app_nil_r; auto.
    + assert (Hi : Nat.eqb i (len - 1) = false)
        by (apply Nat.eqb_neq; simpl in Hlen; lia).
      rewrite Hi. rewrite (ends_with_user_cons m m' rest).
      change (last (m :: m' :: rest)) with (last (m' :: rest)).
      destruct (ends_with_user (m' :: rest)) eqn:E;
        destruct m as [[] c]; cbn [role content is_system is_user andb negb filter map
                                   systemInstruction history lastMessage fold_left
                                   removelast];
        rewrite <- ?app_assoc; auto.
Qed.

(** C5, as the code has it.  The instruction is the system messages in
    order, newline-joined once the empty ones that come before the first
    non-empty one are dropped; the history relays, in order and with
    assistant mapped to model and user to user, every message that is not a
    system message, except a last message whose role is user; that one is
    the final turn, and the final-turn slot is the empty string when the
    last message is not a user turn. *)
Theorem toGeminiMessages_shape (messages : list ChatMessage) :
  let g := toGeminiMessages messages in
  systemInstruction g = join LF (drop_empty (system_contents messages)) /\
  history g
    = map relay
        (filter (fun m => negb (is_system (role m)))
           (if ends_with_user messages then removelast messages else messages)) /\
  lastMessage g
    = (if ends_with_user messages
       then content (last messages {| role := user; content := [] |})
       else $"").
Proof.
  unfold toGeminiMessages.
  destruct (@toGemini_loop_spec (List.length messages) messages
              {| systemInstruction := $""; history := []; lastMessage := $"" |}
              0 eq_refl) as (Hs & Hh & Hl).
  cbn zeta. rewrite Hs, Hh, Hl. cbn [systemInstruction history lastMessage].
  rewrite instruction_fold. auto.
Qed.

(** C5, as the document words it, fails: two system messages, the first
    one empty, are not joined by a newline. *)
Lemma toGeminiMessages_not_newline_joined :
  let messages := [ {| role := system; content := $"" |};
                    {| role := system; content := $"Be brief." |} ] in
  systemInstruction (toGeminiMessages messages) = $"Be brief." /\
  instruction_as_documented messages = LF ++ $"Be brief." /\
  systemInstruction (toGeminiMessages messages) <> instruction_as_documented messages.
Proof. repeat split; vm_compute; congruence. Qed.

(** ** Chat-id recovery *)

(** Induction on a parsed value, with the hypothesis available for every
    element of an array and every property value of an object. *)
Lemma JValue_nested_ind (P : JValue -> Prop) :
  P JNull ->
  (forall b, P (JBool b)) ->
  (forall l, P (JNum l)) ->
  (forall s, P (JStr s)) ->
  (forall elems, Forall P elems -> P (JArr elems)) ->
  (forall props, Forall (fun kv => P (snd kv)) props -> P (JObj props)) ->
  forall v, P v.
Proof.
  intros Hnull Hbool Hnum Hstr Harr Hobj.
  fix IH 1. intros [ | b | l | s | elems | props ].
  - exact Hnull.
  - apply Hbool.
  - apply Hnum.
  - apply Hstr.
  - apply Harr. induction elems as [|e elems IHl]; constructor.
    + apply IH.
    + exact IHl.
  - apply Hobj. induction props as [|[k e] props IHl]; constructor.
    + apply IH.
    + exact IHl.
Qed.

Lemma length_le (id : jsstring) (n : nat) :
  (JS.length id <=? N.of_nat n)%N = (List.length id <=? n).
Proof.
  unfold JS.length.
  destruct (Nat.leb_spec (List.length id) n);
    [apply N.leb_le | apply N.leb_gt]; lia.
Qed.

Lemma length_lt (id : jsstring) (n : nat) :
  (N.of_nat n <? JS.length id)%N = (n <? List.length id).
Proof.
  unfold JS.length.
  destruct (Nat.ltb_spec n (List.length id));
    [apply N.ltb_lt | apply N.ltb_ge]; lia.
Qed.

(** The acceptance test accepts exactly the strings longer than 15 code
    units. *)
Lemma isValidChatId_length (id : jsstring) :
  isValidChatId id = (15 <? List.length id).
Proof.
  unfold isValidChatId.
  change 10%N with (N.of_nat 10). change 20%N with (N.of_nat 20).
  change 15%N with (N.of_nat 15).
  rewrite length_le, !length_lt.
  destruct (JS.eqb id $"hello-world") eqn:E.
  - apply eqb_eq in E. subst id. reflexivity.
  - cbn [orb].
    destruct (Nat.leb_spec (List.length id) 10) as [H|H].
    + symmetry. apply Nat.ltb_ge. lia.
    + destruct (Nat.ltb_spec 15 (List.length id)) as [H15|H15].
      * apply orb_true_r.
      * rewrite orb_false_r.
        replace (20 <? List.length id) with false
          by (symmetry; apply Nat.ltb_ge; lia).
        apply andb_false_r.
Qed.

Lemma valid_id_field_truthy (key : jsstring) (record : list (jsstring * JValue))
    (id : jsstring) :
  valid_id_field key record = Some id -> truthy id = true.
Proof.
  unfold valid_id_field.
  destruct (get key record) as [[ | | | s | | ]|]; try discriminate.
  destruct (truthy s) eqn:E; simpl; [|discriminate].
  destruct (isValidChatId s); [|discriminate].
  congruence.
Qed.

Lemma valid_id_field_accepted (key : jsstring) (record : list (jsstring * JValue))
    (id : jsstring) :
  valid_id_field key record = Some id ->
  get key record = Some (JStr id) /\ isValidChatId id = true.
Proof.
  unfold valid_id_field.
  destruct (get key record) as [[ | | | s | | ]|]; try discriminate.
  destruct (truthy s); simpl; [|discriminate].
  destruct (isValidChatId s) eqn:E; [|discriminate].
  intros [= ->]. auto.
Qed.

Lemma first_of_app (found : option jsstring) (cs cs' : list jsstring) :
  Forall (fun c => truthy c = true) cs ->
  first_of (first_of found cs) cs' = first_of found (cs ++ cs').
Proof.
  unfold first_of. intros H.
  destruct (truthy_opt found) eqn:E; [now rewrite E|].
  destruct cs as [|c cs]; simpl; [now rewrite E|].
  inversion H as [|? ? Hc _]; subst. now rewrite Hc.
Qed.

Lemma search_candidates (v : JValue) :
  Forall (fun c => truthy c = true) (candidates v) /\
  forall found, search v found = first_of found (candidates v).
Proof.
  induction v as [ | b | l | s | elems IH | props IH ] using JValue_nested_ind;
    try (split; [constructor | intros found; unfold first_of; simpl;
                               now destruct (truthy_opt found)]).
  - (* array *)
    assert (Hfold : Forall (fun c => truthy c = true) (flat_map candidates elems) /\
                    forall found,
                      fold_left (fun f e => search e f) elems found
                      = first_of found (flat_map candidates elems)).
    { induction IH as [|e elems [He1 He2] _ [IH1 IH2]]; simpl.
      - split; [constructor|]. intros found. unfold first_of.
        now destruct (truthy_opt found).
      - split; [apply Forall_app; auto|].
        intros found. rewrite He2, IH2. now apply first_of_app. }
    destruct Hfold as [H1 H2]. split; [exact H1|].
    intros found. cbn [search candidates]. rewrite H2.
    unfold first_of. now destruct (truthy_opt found).
  - (* object *)
    assert (Hfold : Forall (fun c => truthy c = true)
                      (flat_map (fun kv => candidates (snd kv)) props) /\
                    forall found,
                      fold_left (fun f kv => search (snd kv) f) props found
                      = first_of found (flat_map (fun kv => candidates (snd kv)) props)).
    { induction IH as [|e elems [He1 He2] _ [IH1 IH2]]; simpl.
      - split; [constructor|]. intros found. unfold first_of.
        now destruct (truthy_opt found).
      - split; [apply Forall_app; auto|].
        intros found. rewrite He2, IH2. now apply first_of_app. }
    destruct Hfold as [H1 H2].
    cbn [search candidates].
    destruct (valid_id_field $"chatId" props) as [id|] eqn:E1.
    { split; [repeat constructor; eauto using valid_id_field_truthy|].
      intros found. unfold first_of. now destruct (truthy_opt found). }
    destruct (valid_id_field $"id" props) as [id|] eqn:E2.
    { split; [repeat constructor; eauto using valid_id_field_truthy|].
      intros found. unfold first_of. now destruct (truthy_opt found). }
    split; [exact H1|].
    intros found. rewrite H2. unfold first_of. now destruct (truthy_opt found).
Qed.

Lemma extract_candidates (content : list JValue) (found : option jsstring) :
  fold_left (fun f v => search v f) content found
  = first_of found (flat_map candidates content).
Proof.
  revert found; induction content as [|v content IH]; intros found; simpl.
  - unfold first_of. now destruct (truthy_opt found).
  - rewrite IH. destruct (search_candidates v) as [H1 H2].
    rewrite H2. now apply first_of_app.
Qed.

Lemma no_id_field (key : jsstring) (props : list (jsstring * JValue)) :
  get key props = None -> valid_id_field key props = None.
Proof. unfold valid_id_field. now intros ->. Qed.

Lemma candidates_need_a_name (v : JValue) :
  names_an_id v = false -> candidates v = [].
Proof.
  induction v as [ | b | l | s | elems IH | props IH ] using JValue_nested_ind;
    try reflexivity.
  - cbn [names_an_id candidates]. induction IH as [|e elems He _ IHl]; simpl.
    + reflexivity.
    + intros H. apply orb_false_iff in H as [H1 H2].
      rewrite He, IHl by assumption. reflexivity.
  - cbn [names_an_id candidates].
    destruct (get $"chatId" props) eqn:E1; [discriminate|].
    destruct (get $"id" props) eqn:E2; [discriminate|].
    rewrite (no_id_field _ _ E1), (no_id_field _ _ E2). clear E1 E2.
    induction IH as [|e elems He _ IHl]; simpl.
    + reflexivity.
    + intros H. apply orb_false_iff in H as [H1 H2].
      rewrite He, IHl by assumption. reflexivity.
Qed.

(** C6.  The acceptance test rejects the placeholder and every string of
    at most 10 code units, and accepts exactly the strings that contain a
    hyphen and are longer than 20, or are longer than 15.  At an object a
    [chatId] that passes wins over an [id]; the search is depth first and
    returns the first accepted identifier in visiting order, after which
    nothing changes it.  Recovery is absent on the placeholder, on a short
    id, on the empty array and wherever no property is named [chatId] or
    [id]; it returns the [chatId] of the sample object. *)
Theorem extractChatIdFromContent_spec :
  (forall id, id = $"hello-world" \/ List.length id <= 10 ->
     isValidChatId id = false) /\
  (forall id, isValidChatId id = true <->
     (includes $"-" id = true /\ 20 < List.length id) \/ 15 < List.length id) /\
  (forall record id,
     get $"chatId" record = Some (JStr id) -> isValidChatId id = true ->
     search (JObj record) None = Some id) /\
  (forall record id,
     get $"id" record = Some (JStr id) -> isValidChatId id = true ->
     (forall c, get $"chatId" record = Some (JStr c) -> isValidChatId c = false) ->
     search (JObj record) None = Some id) /\
  (forall content,
     extractChatIdFromContent content = hd_error (flat_map candidates content)) /\
  (forall v id, truthy id = true -> search v (Some id) = Some id) /\
  extractChatIdFromContent [placeholder_id] = None /\
  extractChatIdFromContent [short_id] = None /\
  extractChatIdFromContent [] = None /\
  (forall content, existsb names_an_id content = false ->
     extractChatIdFromContent content = None) /\
  extractChatIdFromContent [uuid_chatId]
    = Some $"a1b2c3d4-e5f6-7890-aaaa-bbbbccccdddd".
Proof.
  assert (Hvalid : forall key record id,
             get key record = Some (JStr id) -> isValidChatId id = true ->
             valid_id_field key record = Some id).
  { intros key record id Hget Hok. unfold valid_id_field. rewrite Hget, Hok.
    rewrite isValidChatId_length in Hok. apply Nat.ltb_lt in Hok.
    destruct id; [simpl in Hok; lia | reflexivity]. }
  repeat apply conj.
  - intros id [-> | Hlen]; [reflexivity|].
    rewrite isValidChatId_length. apply Nat.ltb_ge. lia.
  - intros id. rewrite isValidChatId_length, Nat.ltb_lt. lia.
  - intros record id Hget Hok. cbn [search truthy_opt].
    now rewrite (Hvalid _ _ _ Hget Hok).
  - intros record id Hget Hok Hchat. cbn [search truthy_opt].
    rewrite (Hvalid _ _ _ Hget Hok).
    destruct (valid_id_field $"chatId" record) as [c|] eqn:E; [|reflexivity].
    apply valid_id_field_accepted in E as [Hc Hcok].
    rewrite (Hchat _ Hc) in Hcok. discriminate.
  - intros content. unfold extractChatIdFromContent.
    rewrite extract_candidates. unfold first_of. simpl.
    now destruct (flat_map candidates content).
  - intros v id Hid. destruct v; simpl; now rewrite Hid.
  - reflexivity.
  - reflexivity.
  - reflexivity.
  - intros content Hnone. unfold extractChatIdFromContent.
    rewrite extract_candidates.
    replace (flat_map candidates content) with (@nil jsstring); [reflexivity|].
    induction content as [|v content IH]; [reflexivity|].
    simpl in Hnone. apply orb_false_iff in Hnone as [Hv Hrest].
    simpl. rewrite (candidates_need_a_name v Hv). now apply IH.
  - reflexivity.
Qed.

(** The statement of C6 at the sample values. *)
Lemma extractChatIdFromContent_spec_witness :
  isValidChatId $"hello-world" = false /\
  isValidChatId $"a1b2c3d4-e5f6-7890-aaaa-bbbbccccdddd" = true /\
  search uuid_chatId None = Some $"a1b2c3d4-e5f6-7890-aaaa-bbbbccccdddd" /\
  extractChatIdFromContent [JArr [JStr $"id"; JNum $"1"]] = None.
Proof.
  destruct extractChatIdFromContent_spec
    as (Hreject & Haccept & Hchat & _ & _ & _ & _ & _ & _ & Hnone & _).
  repeat apply conj.
  - apply Hreject. left. reflexivity.
  - apply Haccept. right. vm_compute. lia.
  - apply Hchat; reflexivity.
  - apply Hnone. reflexivity.
Defined.

(** ** Termination of the recursive search *)

Lemma fold_search_within (depth : nat) (vs : list JValue) :
  Forall (fun v => forall found, search_within depth v found = Some (search v found)) vs ->
  forall found,
    fold_left
      (fun acc v =>
         match acc with
         | Some f => search_within depth v f
         | None => None
         end) vs (Some found)
    = Some (fold_left (fun f v => search v f) vs found).
Proof.
  induction 1 as [|v vs Hv _ IH]; intros found; simpl.
  - reflexivity.
  - rewrite Hv. apply IH.
Qed.

Lemma fold_left_snd {A : Type} (f : A -> JValue -> A) (props : list (jsstring * JValue))
    (a : A) :
  fold_left f (map snd props) a = fold_left (fun x kv => f x (snd kv)) props a.
Proof. revert a; induction props as [|kv props IH]; intros a; simpl; auto. Qed.

Lemma nesting_elems (depth : nat) (elems : list JValue) :
  fold_right (fun e m => Nat.max (nesting e) m) 0 elems <= depth ->
  Forall (fun e => nesting e <= depth) elems.
Proof.
  induction elems as [|e elems IH]; simpl; intros H; constructor.
  - lia.
  - apply IH. lia.
Qed.

Lemma nesting_props (depth : nat) (props : list (jsstring * JValue)) :
  fold_right (fun kv m => Nat.max (nesting (snd kv)) m) 0 props <= depth ->
  Forall (fun e => nesting e <= depth) (map snd props).
Proof.
  induction props as [|e props IH]; simpl; intros H; constructor.
  - lia.
  - apply IH. lia.
Qed.

(** A call stack as deep as the value nests is enough for [search]. *)
Lemma search_within_enough (depth : nat) :
  forall v found, nesting v <= depth ->
  search_within depth v found = Some (search v found).
Proof.
  induction depth as [|depth IH]; intros v found Hdepth.
  - destruct v; simpl in Hdepth; lia.
  - assert (Hall : forall vs, Forall (fun e => nesting e <= depth) vs ->
              Forall (fun v => forall f, search_within depth v f = Some (search v f)) vs).
    { intros vs Hvs. eapply Forall_impl; [|exact Hvs]. intros e He f. now apply IH. }
    destruct v as [ | b | l | s | elems | props ]; cbn [search_within search];
      destruct (truthy_opt found) eqn:E; try reflexivity.
    + simpl in Hdepth. apply fold_search_within, Hall, nesting_elems. lia.
    + destruct (valid_id_field $"chatId" props); [reflexivity|].
      destruct (valid_id_field $"id" props); [reflexivity|].
      simpl in Hdepth. rewrite fold_search_within.
      * now rewrite fold_left_snd.
      * apply Hall, nesting_props. lia.
Qed.

(** C10.  On every value, finite and acyclic as all values of the type
    are, the search returns: run with a call stack no deeper than the value
    nests, it comes back with the result. *)
Theorem extractChatIdFromContent_terminates (content : list JValue) (depth : nat) :
  list_max (map nesting content) <= depth ->
  extractChatIdFromContent_within depth content
  = Some (extractChatIdFromContent content).
Proof.
  intros Hdepth. unfold extractChatIdFromContent_within, extractChatIdFromContent.
  apply fold_search_within.
  apply list_max_le in Hdepth. rewrite Forall_map in Hdepth.
  eapply Forall_impl; [|exact Hdepth].
  intros v Hv found. now apply search_within_enough.
Qed.

(** C10 on the nested sample: four nested calls reach its strings. *)
Lemma extractChatIdFromContent_terminates_witness :
  list_max (map nesting nested_content) <= 4 /\
  extractChatIdFromContent_within 4 nested_content
  = Some (Some $"a1b2c3d4-e5f6-7890-aaaa-bbbbccccdddd").
Proof.
  split.
  - vm_compute. lia.
  - apply (extractChatIdFromContent_terminates nested_content (depth := 4)).
    vm_compute. lia.
Defined.

(** ** The streaming handler *)

Lemma encode_ascii (c : N) (s : jsstring) :
  (c <? 128)%N = true ->
  TextEncoder_encode (c :: s) = byte_of_N c :: TextEncoder_encode s.
Proof.
  intros Hc. apply N.ltb_lt in Hc.
  unfold TextEncoder_encode. cbn [scalars_of_utf16].
  replace (is_high_surrogate c) with false
    by (symmetry; unfold is_high_surrogate; apply andb_false_iff; left;
        apply N.leb_gt; lia).
  replace (is_low_surrogate c) with false
    by (symmetry; unfold is_low_surrogate; apply andb_false_iff; left;
        apply N.leb_gt; lia).
  cbn [flat_map]. unfold utf8_encode_scalar at 1.
  replace (c <? 128)%N with true by (symmetry; apply N.ltb_lt; lia).
  reflexivity.
Qed.

Lemma encode_ascii_app (p s : jsstring) :
  forallb (fun c => (c <? 128)%N) p = true ->
  TextEncoder_encode (p ++ s) = TextEncoder_encode p ++ TextEncoder_encode s.
Proof.
  induction p as [|c p IH]; intros H; [reflexivity|].
  simpl in H. apply andb_true_iff in H as [Hc Hp].
  rewrite <- app_comm_cons, !encode_ascii by assumption.
  simpl. now rewrite IH.
Qed.

(** Each frame begins as frames of its type do. *)
Lemma frame_begins (e : WireEvent) :
  exists rest,
    frame e
    = wire_kind (match e with
                 | Ev_chat_metadata _ => $"chat_metadata"
                 | Ev_content _ => $"content"
                 | Ev_done => $"done"
                 end) ++ rest.
Proof.
  destruct e as [id | delta | ]; unfold frame, sse, wire_kind.
  - exists (TextEncoder_encode
              ($"," ++ QuoteJSONString $"id" ++ $":" ++ QuoteJSONString id
               ++ $"," ++ QuoteJSONString $"object" ++ $":" ++ QuoteJSONString $"chat"
               ++ $"}" ++ LF ++ LF)).
    rewrite <- encode_ascii_app by reflexivity.
    unfold JSON_stringify, QuoteJSONString. cbn [map join fst snd].
    f_equal. rewrite <- !app_assoc. cbn. reflexivity.
  - exists (TextEncoder_encode
              ($"," ++ QuoteJSONString $"content" ++ $":" ++ QuoteJSONString delta
               ++ $"}" ++ LF ++ LF)).
    rewrite <- encode_ascii_app by reflexivity.
    unfold JSON_stringify, QuoteJSONString. cbn [map join fst snd].
    f_equal. rewrite <- !app_assoc. cbn. reflexivity.
  - exists (TextEncoder_encode ($"}" ++ LF ++ LF)).
    rewrite <- encode_ascii_app by reflexivity. reflexivity.
Qed.

Lemma is_frame_of_kind (k : jsstring) (rest : bytes) :
  is_frame_of k (wire_kind k ++ rest) = true.
Proof.
  unfold is_frame_of. induction (wire_kind k) as [|b p IH]; [reflexivity|].
  simpl. rewrite IH. now destruct b.
Qed.

(** The three types of frame are told apart by how they begin. *)
Lemma frame_kinds (e : WireEvent) :
  (is_frame_of $"chat_metadata" (frame e)
   = match e with Ev_chat_metadata _ => true | _ => false end) /\
  (is_frame_of $"content" (frame e)
   = match e with Ev_content _ => true | _ => false end) /\
  (is_frame_of $"done" (frame e)
   = match e with Ev_done => true | _ => false end).
Proof.
  destruct (frame_begins e) as [rest ->].
  destruct e; repeat split; try apply is_frame_of_kind; reflexivity.
Qed.

Section RouteProperties.

Variable createStreamingCompletion : AIProviderType -> list ChatMessage -> Generation.
Variable addMessageToChat_throws : AddedMessage -> bool.

(** The loop over the generator: every non-empty increment is appended to
    [fullResponse] and written as one content frame, in order; the loop
    throws when the generator does. *)
Lemma for_await_run (chunks : list StreamChunk) (thr : bool) (r : Route) :
  for_await chunks thr
    (fun chunk =>
       if truthy (chunk_content chunk) then
         append_fullResponse (chunk_content chunk) ;;
         controller_enqueue (frame (Ev_content (chunk_content chunk)))
       else ret tt) r
  = ({| enqueued := enqueued r ++ map (fun d => frame (Ev_content d)) (deltas chunks);
        stream_state := stream_state r;
        fullResponse := fullResponse r ++ List.concat (deltas chunks);
        added := added r |},
     if thr then None else Some tt).
Proof.
  revert r; induction chunks as [|[c] chunks IH]; intros r.
  - destruct r. unfold deltas. simpl. rewrite !app_nil_r. now destruct thr.
  - cbn [for_await]. unfold bind at 1. unfold deltas.
    cbn [map filter chunk_content].
    destruct (truthy c) eqn:Hc.
    + unfold bind at 1, append_fullResponse, controller_enqueue.
      rewrite IH. cbn [enqueued stream_state fullResponse added].
      unfold deltas. cbn [map List.concat app].
      rewrite <- !app_assoc. reflexivity.
    + unfold ret. rewrite IH. reflexivity.
Qed.

(** What a run of the handler leaves, case by case. *)
Lemma handleStreaming_run (provider : AIProviderType) (messages : list ChatMessage)
    (activeChatId : jsstring) :
  let g := createStreamingCompletion provider messages in
  let ds := deltas (yields g) in
  let contents := map (fun d => frame (Ev_content d)) ds in
  let message := {| added_chatId := activeChatId;
                    added_role := $"assistant";
                    added_content := List.concat ds |} in
  let persists := truthy activeChatId in
  let db_fails := persists && addMessageToChat_throws message in
  handleStreaming createStreamingCompletion addMessageToChat_throws
    provider messages activeChatId
  = {| enqueued :=
         frame (Ev_chat_metadata activeChatId) :: contents
         ++ (if throws g || db_fails then [] else [frame Ev_done]);
       stream_state := if throws g || db_fails then errored else closed;
       fullResponse := List.concat ds;
       added := if throws g then [] else if persists then [message] else [] |}.
Proof.
  cbn zeta. unfold handleStreaming, start, try_catch.
  set (g := createStreamingCompletion provider messages).
  unfold bind at 1. unfold controller_enqueue at 1.
  cbn [enqueued stream_state fullResponse added app].
  unfold bind at 1. rewrite for_await_run.
  cbn [enqueued stream_state fullResponse added app].
  destruct (throws g).
  - unfold controller_error. cbn [fst enqueued stream_state fullResponse added orb app].
    now rewrite app_nil_r.
  - cbn [orb].
    change ($"" ++ List.concat (deltas (yields g)))
      with (List.concat (deltas (yields g))).
    destruct (truthy activeChatId); cbn [andb].
    + unfold bind, read_fullResponse, addMessageToChat.
      cbn [enqueued stream_state fullResponse added app].
      destruct (addMessageToChat_throws _).
      * unfold controller_error.
        cbn [fst enqueued stream_state fullResponse added].
        now rewrite app_nil_r.
      * unfold controller_enqueue, controller_close.
        cbn [fst enqueued stream_state fullResponse added]. reflexivity.
    + unfold bind, ret, controller_enqueue, controller_close.
      cbn [fst enqueued stream_state fullResponse added]. reflexivity.
Qed.

End RouteProperties.

Lemma content_frames_filter (ds : list jsstring) :
  let contents := map (fun d => frame (Ev_content d)) ds in
  filter (is_frame_of $"chat_metadata") contents = [] /\
  filter (is_frame_of $"content") contents = contents /\
  filter (is_frame_of $"done") contents = [].
Proof.
  induction ds as [|d ds (IH1 & IH2 & IH3)]; [now repeat split|].
  cbn zeta in *. cbn [map filter].
  destruct (frame_kinds (Ev_content d)) as (-> & -> & ->).
  rewrite IH1, IH2, IH3. now repeat split.
Qed.

(** C2.  When the provider's stream completes, the content frames on the
    wire are, in order, the frames of the non-empty increments, and the
    text handed to [addMessageToChat] (once, whenever there is a chat id
    to store it under) is the concatenation of their payloads.  For the
    increments "Hel" and "lo!" the stored text is "Hello!" and the
    consumer reports the accumulations "Hel" and "Hello!". *)
Theorem persisted_text_is_concatenation
    (createStreamingCompletion : AIProviderType -> list ChatMessage -> Generation)
    (addMessageToChat_throws : AddedMessage -> bool)
    (provider : AIProviderType) (messages : list ChatMessage) (activeChatId : jsstring) :
  throws (createStreamingCompletion provider messages) = false ->
  let r := handleStreaming createStreamingCompletion addMessageToChat_throws
             provider messages activeChatId in
  let payloads := deltas (yields (createStreamingCompletion provider messages)) in
  (filter (is_frame_of $"content") (enqueued r)
   = map (fun d => frame (Ev_content d)) payloads) /\
  (added r
   = if truthy activeChatId
     then [ {| added_chatId := activeChatId;
               added_role := $"assistant";
               added_content := List.concat payloads |} ]
     else []) /\
  (let hello := handleStreaming (fun _ _ => hello_generation) (fun _ => false)
                  openai hi_messages $"chat-1" in
   map added_content (added hello) = [ $"Hello!" ] /\
   forall num : NumberConversions,
     consumeSSEStream (response_body hello)
     = ([ Call_onChatData (JStr $"chat-1");
          Call_onContent $"Hel";
          Call_onContent $"Hello!" ],
        Some $"Hello!")).
Proof.
  intros Hdone. cbn zeta. rewrite handleStreaming_run. cbn zeta.
  rewrite Hdone. cbn [orb enqueued added].
  repeat apply conj.
  - cbn [filter].
    destruct (frame_kinds (Ev_chat_metadata activeChatId)) as (_ & -> & _).
    rewrite filter_app.
    destruct (content_frames_filter
                (deltas (yields (createStreamingCompletion provider messages))))
      as (_ & -> & _).
    destruct (_ && _); cbn [filter]; rewrite ?app_nil_r; reflexivity.
  - reflexivity.
  - reflexivity.
  - intros num. vm_compute. reflexivity.
Qed.

(** C2 at the end-to-end scenario. *)
Lemma persisted_text_is_concatenation_witness :
  throws hello_generation = false /\
  added (handleStreaming (fun _ _ => hello_generation) (fun _ => false)
           openai hi_messages $"chat-1")
  = [ {| added_chatId := $"chat-1"; added_role := $"assistant";
         added_content := $"Hello!" |} ].
Proof.
  split; [reflexivity|].
  exact (proj1 (proj2 (persisted_text_is_concatenation
                         (fun _ _ => hello_generation) (fun _ => false)
                         openai hi_messages $"chat-1" eq_refl))).
Defined.

(** C3.  When the provider's stream throws, the response stream is put in
    the errored state, no done frame has been written, and
    [addMessageToChat] is never called: what was accumulated is dropped. *)
Theorem provider_failure_aborts
    (createStreamingCompletion : AIProviderType -> list ChatMessage -> Generation)
    (addMessageToChat_throws : AddedMessage -> bool)
    (provider : AIProviderType) (messages : list ChatMessage) (activeChatId : jsstring) :
  throws (createStreamingCompletion provider messages) = true ->
  let r := handleStreaming createStreamingCompletion addMessageToChat_throws
             provider messages activeChatId in
  stream_state r = errored /\
  filter (is_frame_of $"done") (enqueued r) = [] /\
  added r = [].
Proof.
  intros Hthrows. cbn zeta. rewrite handleStreaming_run. cbn zeta.
  rewrite Hthrows. cbn [orb enqueued added stream_state].
  repeat apply conj; try reflexivity.
  cbn [filter].
  destruct (frame_kinds (Ev_chat_metadata activeChatId)) as (_ & _ & ->).
  rewrite app_nil_r.
  now destruct (content_frames_filter
                  (deltas (yields (createStreamingCompletion provider messages))))
    as (_ & _ & ->).
Qed.

(** C3 on the answer cut short after "Hel". *)
Lemma provider_failure_aborts_witness :
  throws broken_generation = true /\
  let r := handleStreaming (fun _ _ => broken_generation) (fun _ => false)
             openai hi_messages $"chat-1" in
  stream_state r = errored /\
  filter (is_frame_of $"done") (enqueued r) = [] /\
  added r = [].
Proof.
  split; [reflexivity|].
  exact (provider_failure_aborts
           (fun _ _ => broken_generation) (fun _ => false)
           openai hi_messages $"chat-1" eq_refl).
Defined.

(** C8.  On a response that completes (the stream is closed), the chunks
    written are: one chat_metadata frame, first; then one content frame
    for each non-empty increment, in the order generated, carrying that
    increment alone; then one done frame, last.  No other chunk is a
    chat_metadata or a done frame. *)
Theorem wire_order
    (createStreamingCompletion : AIProviderType -> list ChatMessage -> Generation)
    (addMessageToChat_throws : AddedMessage -> bool)
    (provider : AIProviderType) (messages : list ChatMessage) (activeChatId : jsstring) :
  let r := handleStreaming createStreamingCompletion addMessageToChat_throws
             provider messages activeChatId in
  stream_state r = closed ->
  enqueued r
  = [frame (Ev_chat_metadata activeChatId)]
    ++ map (fun d => frame (Ev_content d))
         (deltas (yields (createStreamingCompletion provider messages)))
    ++ [frame Ev_done] /\
  filter (is_frame_of $"chat_metadata") (enqueued r)
  = [frame (Ev_chat_metadata activeChatId)] /\
  filter (is_frame_of $"done") (enqueued r) = [frame Ev_done].
Proof.
  cbn zeta. rewrite handleStreaming_run. cbn zeta.
  cbn [enqueued stream_state].
  destruct (_ || _); [discriminate|]. intros _.
  cbn [app filter]. rewrite !filter_app. cbn [filter].
  destruct (frame_kinds (Ev_chat_metadata activeChatId)) as (-> & _ & ->).
  destruct (frame_kinds Ev_done) as (-> & _ & ->).
  destruct (content_frames_filter
              (deltas (yields (createStreamingCompletion provider messages))))
    as (-> & _ & ->).
  now repeat split.
Qed.

(** C8 at the end-to-end scenario. *)
Lemma wire_order_witness :
  let r := handleStreaming (fun _ _ => hello_generation) (fun _ => false)
             openai hi_messages $"chat-1" in
  stream_state r = closed /\
  enqueued r
  = [ wire_frame "data: {'type':'chat_metadata','id':'chat-1','object':'chat'}";
      wire_frame "data: {'type':'content','content':'Hel'}";
      wire_frame "data: {'type':'content','content':'lo!'}";
      wire_frame "data: {'type':'done'}" ].
Proof.
  split; [reflexivity|].
  exact (proj1 (wire_order (fun _ _ => hello_generation) (fun _ => false)
                  openai hi_messages $"chat-1" eq_refl)).
Defined.

(** ** The event-stream consumer *)

(** Decoding in stream mode composes: the text of two reads is the text of
    their bytes read at once. *)
Lemma decode_stream_app (d : TextDecoder) (a b : bytes) :
  decode_stream d (a ++ b)
  = let (d1, t1) := decode_stream d a in
    let (d2, t2) := decode_stream d1 b in
    (d2, t1 ++ t2).
Proof.
  revert d; induction a as [|x a IH]; intros d.
  - simpl. now destruct (decode_stream d b).
  - cbn [app decode_stream].
    destruct (utf8_handler d (N_of_byte x)) as [d1 items].
    destruct (serialize d1 items) as [d2 text].
    rewrite IH.
    destruct (decode_stream d2 a) as [d3 t3].
    destruct (decode_stream d3 b) as [d4 t4].
    now rewrite app_assoc.
Qed.

Section ConsumerProperties.
Context {num : NumberConversions}.

Lemma handleSSELine_no_data {S : Type} (callbacks : SSECallbacks S) (st : S)
    (line : jsstring) :
  line_data line = None -> handleSSELine line callbacks st = st.
Proof.
  unfold line_data, handleSSELine.
  destruct (startsWith $"data: " line); [|reflexivity]. cbn [negb].
  destruct (truthy (trim (slice 6 line))); [|reflexivity]. cbn [negb].
  now intros ->.
Qed.

Lemma skipped_line_no_data (line : jsstring) :
  startsWith $"data: " line = false \/
  trim (slice 6 line) = $"" \/
  JSON_parse (trim (slice 6 line)) = None ->
  line_data line = None.
Proof.
  unfold line_data. intros [H | [H | H]].
  - now rewrite H.
  - rewrite H. now destruct (startsWith $"data: " line).
  - rewrite H. destruct (startsWith $"data: " line); [|reflexivity].
    now destruct (truthy _).
Qed.

Lemma content_calls_app (l l' : list Call) :
  content_calls (l ++ l') = content_calls l ++ content_calls l'.
Proof. unfold content_calls. apply flat_map_app. Qed.

(** What one line does to the consumer: it appends the text of its
    payload and reports the new total, or changes neither. *)
Lemma handleSSELine_effect (line : jsstring) (st : Consumer) :
  let st' := handleSSELine line consume_callbacks st in
  decoder st' = decoder st /\
  accumulated st' = accumulated st ++ List.concat (appended line) /\
  content_calls (calls st')
  = content_calls (calls st) ++ running_totals (accumulated st) (appended line).
Proof.
  cbn zeta.
  destruct (line_data line) as [data|] eqn:Hdata.
  2:{ rewrite (handleSSELine_no_data _ _ _ Hdata).
      unfold appended, content_payload. rewrite Hdata. simpl.
      now rewrite !app_nil_r. }
  unfold appended, content_payload, line_type. rewrite Hdata.
  unfold handleSSELine. unfold line_data in Hdata.
  destruct (startsWith $"data: " line); [|discriminate]. cbn [negb].
  destruct (truthy (trim (slice 6 line))); [|discriminate]. cbn [negb].
  rewrite Hdata. clear Hdata.
  destruct data as [ | b | l | s | elems | props ]; cbn [prop];
    try (cbn; now rewrite !app_nil_r).
  destruct (get $"type" props) as [[ | | | t | | ]|];
    try (cbn; now rewrite !app_nil_r).
  destruct (JS.eqb t $"chat_metadata") eqn:Hmeta.
  - apply eqb_eq in Hmeta. subst t. cbn [JS.eqb str].
    replace (JS.eqb $"chat_metadata" $"content") with false by reflexivity.
    destruct (truthy_value (get $"id" props)); cbn;
      rewrite ?content_calls_app; cbn; now rewrite !app_nil_r.
  - destruct (JS.eqb t $"content") eqn:Hcontent.
    + destruct (truthy_value (get $"content" props)) as [c|];
        [|cbn; now rewrite !app_nil_r].
      cbn [consume_callbacks onContent].
      destruct (ToString c) as [text|]; cbn;
        rewrite ?content_calls_app; cbn; now rewrite !app_nil_r.
    + cbn. now rewrite !app_nil_r.
Qed.

Lemma running_totals_app (acc : jsstring) (ts ts' : list jsstring) :
  running_totals acc (ts ++ ts')
  = running_totals acc ts ++ running_totals (acc ++ List.concat ts) ts'.
Proof.
  revert acc; induction ts as [|t ts IH]; intros acc; simpl.
  - now rewrite app_nil_r.
  - rewrite IH. now rewrite <- app_assoc.
Qed.

Lemma consume_lines_effect (lines : list jsstring) (st : Consumer) :
  let texts := flat_map appended lines in
  let st' := consume_lines lines st in
  decoder st' = decoder st /\
  accumulated st' = accumulated st ++ List.concat texts /\
  content_calls (calls st')
  = content_calls (calls st) ++ running_totals (accumulated st) texts.
Proof.
  cbn zeta. revert st; induction lines as [|line lines IH]; intros st.
  - simpl. now rewrite !app_nil_r.
  - cbn [consume_lines fold_left flat_map].
    destruct (handleSSELine_effect line st) as (Hd & Ha & Hc). cbn zeta in *.
    destruct (IH (handleSSELine line consume_callbacks st)) as (IHd & IHa & IHc).
    unfold consume_lines in *. rewrite IHd, IHa, IHc, Hd, Ha, Hc.
    rewrite concat_app, running_totals_app, <- !app_assoc. auto.
Qed.

Lemma consume_chunks_effect (chunks : list bytes) (st : Consumer) :
  let texts := flat_map appended (lines_read (decoder st) chunks) in
  let st' := fold_left consume_chunk chunks st in
  accumulated st' = accumulated st ++ List.concat texts /\
  content_calls (calls st')
  = content_calls (calls st) ++ running_totals (accumulated st) texts.
Proof.
  cbn zeta. revert st; induction chunks as [|value chunks IH]; intros st.
  - simpl. now rewrite !app_nil_r.
  - cbn [fold_left lines_read]. unfold consume_chunk at 2 4.
    destruct (decode_stream (decoder st) value) as [d text].
    destruct (consume_lines_effect (split_lines text)
                {| decoder := d; accumulated := accumulated st; calls := calls st |})
      as (Hd & Ha & Hc).
    cbn zeta in *. cbn [decoder accumulated calls] in *.
    destruct (IH (consume_lines (split_lines text)
                    {| decoder := d; accumulated := accumulated st; calls := calls st |}))
      as (IHa & IHc).
    rewrite IHa, IHc, Hd, Ha, Hc.
    rewrite flat_map_app, concat_app, running_totals_app, <- !app_assoc. auto.
Qed.

(** Running totals never get shorter, and get longer with every text that
    is not empty. *)
Lemma running_totals_lengths (texts : list jsstring) :
  forall acc,
  Forall (fun a => List.length acc <= List.length a) (running_totals acc texts) /\
  StronglySorted le (lengths (running_totals acc texts)) /\
  (Forall (fun t => t <> []) texts ->
   Forall (fun a => List.length acc < List.length a) (running_totals acc texts) /\
   StronglySorted lt (lengths (running_totals acc texts))).
Proof.
  induction texts as [|t texts IH]; intros acc.
  - simpl. repeat split; constructor.
  - destruct (IH (acc ++ t)) as (Hge & Hle & Hlt).
    assert (Hlen : List.length (acc ++ t) = List.length acc + List.length t)
      by apply length_app.
    cbn [running_totals lengths map]. repeat apply conj.
    + constructor; [lia|]. eapply Forall_impl; [|exact Hge]. cbn. intros a Ha. lia.
    + constructor; [exact Hle|]. unfold lengths. now rewrite Forall_map.
    + intros Hne. inversion Hne as [|? ? Ht Hrest]; subst.
      destruct (Hlt Hrest) as (Hgt & Hsorted).
      assert (Hpos : 0 < List.length t) by (destruct t; [contradiction|simpl; lia]).
      split.
      * constructor; [lia|]. eapply Forall_impl; [|exact Hge]. cbn. intros a Ha. lia.
      * constructor; [exact Hsorted|]. unfold lengths. now rewrite Forall_map.
Qed.

(** A payload that is a string adds a text that is not empty. *)
Lemma string_payload_appends (line : jsstring) :
  (exists s, content_payload line = Some (JStr s)) ->
  Forall (fun t => t <> []) (appended line).
Proof.
  intros [s Hs]. unfold appended. rewrite Hs. cbn [ToString].
  constructor; [|constructor].
  unfold content_payload in Hs.
  destruct (line_data line) as [[ | | | | | props]|]; try discriminate.
  destruct (line_type line) as [t|]; [|discriminate].
  destruct (JS.eqb t $"content"); [|discriminate].
  unfold truthy_value in Hs.
  destruct (get $"content" props) as [v|]; [|discriminate].
  destruct (ToBoolean v) eqn:Hv; [|discriminate].
  injection Hs as ->. now destruct s.
Qed.

End ConsumerProperties.

Section ConsumerClaims.
Context {num : NumberConversions}.

Lemma handleSSELine_other_type {S : Type} (callbacks : SSECallbacks S) (st : S)
    (line : jsstring) :
  line_type line <> Some $"chat_metadata" ->
  line_type line <> Some $"content" ->
  handleSSELine line callbacks st = st.
Proof.
  intros Hmeta Hcontent.
  destruct (line_data line) as [data|] eqn:Hdata;
    [|now apply handleSSELine_no_data].
  unfold line_type in Hmeta, Hcontent. rewrite Hdata in Hmeta, Hcontent.
  unfold handleSSELine. unfold line_data in Hdata.
  destruct (startsWith $"data: " line); [|discriminate]. cbn [negb].
  destruct (truthy (trim (slice 6 line))); [|discriminate]. cbn [negb].
  rewrite Hdata. clear Hdata.
  destruct data as [ | b | l | s | elems | props ]; cbn [prop]; try reflexivity.
  destruct (get $"type" props) as [[ | | | t | | ]|]; try reflexivity.
  destruct (JS.eqb t $"chat_metadata") eqn:E1;
    [apply eqb_eq in E1; congruence|].
  destruct (JS.eqb t $"content") eqn:E2;
    [apply eqb_eq in E2; congruence|].
  reflexivity.
Qed.

Lemma consume_lines_skip (line : jsstring) (before after : list jsstring) (c : Consumer) :
  handleSSELine line consume_callbacks (consume_lines before c) = consume_lines before c ->
  consume_lines (before ++ line :: after) c = consume_lines (before ++ after) c.
Proof.
  intros H. unfold consume_lines in *. rewrite !fold_left_app. cbn [fold_left].
  now rewrite H.
Qed.

(** C7.  A line that does not begin with "data: ", a line with nothing
    after the prefix once trimmed, and a line whose remainder is not JSON
    each leave the caller's state as it was, whatever the callbacks, and
    the lines around it are handled as if it were not there; a line of
    broken JSON between two content frames does not stop the
    accumulation. *)
Theorem malformed_lines_are_skipped {S : Type} (callbacks : SSECallbacks S) (st : S)
    (line : jsstring) (before after : list jsstring) (c : Consumer) :
  startsWith $"data: " line = false \/
  trim (slice 6 line) = $"" \/
  JSON_parse (trim (slice 6 line)) = None ->
  handleSSELine line callbacks st = st /\
  consume_lines (before ++ line :: after) c = consume_lines (before ++ after) c /\
  consumeSSEStream corrupted_between
  = ([Call_onContent $"Hel"; Call_onContent $"Hello!"], Some $"Hello!").
Proof.
  intros Hskip. apply skipped_line_no_data in Hskip.
  repeat apply conj.
  - now apply handleSSELine_no_data.
  - apply consume_lines_skip. now apply handleSSELine_no_data.
  - vm_compute. reflexivity.
Qed.

(** C9, as the code has it.  The [onContent] calls receive, in the order
    the frames are read, the running totals of the texts the content
    payloads convert to, and the promise resolves with the last total;
    the totals never get shorter, and they get strictly longer when every
    payload is a string.  A line whose type is neither chat_metadata nor
    content, done included, leaves the caller's state as it was, and the
    lines after it are still handled. *)
Theorem onContent_running_totals (stream : ReadableStream) :
  let lines := lines_read new_TextDecoder (chunks stream) in
  let texts := flat_map appended lines in
  let totals := content_calls (fst (consumeSSEStream stream)) in
  totals = running_totals $"" texts /\
  snd (consumeSSEStream stream)
  = (if fails stream then None else Some (List.concat texts)) /\
  StronglySorted le (lengths totals) /\
  (forallb text_payload lines = true -> StronglySorted lt (lengths totals)) /\
  (forall (S : Type) (callbacks : SSECallbacks S) (st : S) (line : jsstring),
     line_type line <> Some $"chat_metadata" ->
     line_type line <> Some $"content" ->
     handleSSELine line callbacks st = st) /\
  (forall (line : jsstring) (before after : list jsstring) (c : Consumer),
     line_type line <> Some $"chat_metadata" ->
     line_type line <> Some $"content" ->
     consume_lines (before ++ line :: after) c = consume_lines (before ++ after) c).
Proof.
  cbn zeta. unfold consumeSSEStream, consume_all. cbn [fst snd].
  destruct (consume_chunks_effect (chunks stream) consume_start) as (Ha & Hc).
  cbn zeta in *. cbn [consume_start decoder accumulated calls content_calls flat_map app]
    in Ha, Hc.
  rewrite Ha, Hc.
  set (texts := flat_map appended (lines_read new_TextDecoder (chunks stream))).
  destruct (running_totals_lengths texts $"") as (_ & Hle & Hlt).
  repeat apply conj; auto.
  - intros Htext. apply Hlt. unfold texts.
    rewrite forallb_forall in Htext.
    rewrite Forall_forall. intros t Ht. apply in_flat_map in Ht as (line & Hin & Ht).
    specialize (Htext line Hin). unfold text_payload in Htext.
    assert (Hall : Forall (fun t => t <> []) (appended line)).
    { destruct (content_payload line) as [[ | | | s | | ]|] eqn:E; try discriminate.
      - apply string_payload_appends. now exists s.
      - unfold appended. rewrite E. constructor. }
    rewrite Forall_forall in Hall. now apply Hall.
  - intros S callbacks st line H1 H2. now apply handleSSELine_other_type.
  - intros line before after c H1 H2. apply consume_lines_skip.
    now apply handleSSELine_other_type.
Qed.

(** C1, where the code departs from it.  The decoder itself does not
    depend on where the reads cut: bytes held back at the end of one read
    are completed by the next.  The lines do: a content frame read whole is
    accumulated, and the same bytes cut inside the frame, or inside the
    two bytes of a character of its payload, leave nothing. *)
Theorem frame_cut_across_reads :
  (forall (d : TextDecoder) (a b : bytes),
     let (d1, t1) := decode_stream d a in
     let (d2, t2) := decode_stream d1 b in
     decode_stream d (a ++ b) = (d2, t1 ++ t2)) /\
  List.concat (chunks hello_cut) = List.concat (chunks hello_whole) /\
  consumeSSEStream hello_whole = ([Call_onContent $"Hello"], Some $"Hello") /\
  consumeSSEStream hello_cut = ([], Some $"") /\
  List.concat (chunks accent_cut) = List.concat (chunks accent_whole) /\
  consumeSSEStream accent_whole = ([Call_onContent [233%N]], Some [233%N]) /\
  consumeSSEStream accent_cut = ([], Some $"").
Proof.
  split.
  - intros d a b. rewrite decode_stream_app.
    destruct (decode_stream d a) as [d1 t1].
    now destruct (decode_stream d1 b).
  - repeat apply conj; vm_compute; reflexivity.
Qed.

End ConsumerClaims.

(** C7 on the line of broken JSON of the sample stream. *)
Lemma malformed_lines_are_skipped_witness :
  let num := {| Number_ToBoolean := fun _ => true; Number_toString := fun l => l |} in
  let line := $"data: {oops" in
  JSON_parse (trim (slice 6 line)) = None /\
  handleSSELine line consume_callbacks consume_start = consume_start.
Proof.
  cbn zeta. split; [reflexivity|].
  exact (proj1 (@malformed_lines_are_skipped
                  {| Number_ToBoolean := fun _ => true; Number_toString := fun l => l |}
                  Consumer consume_callbacks consume_start
                  $"data: {oops" [] [] consume_start
                  (or_intror (or_intror eq_refl)))).
Defined.

(** C9 on the response of the end-to-end scenario, whose payloads are
    strings. *)
Lemma onContent_running_totals_witness :
  let num := {| Number_ToBoolean := fun _ => true; Number_toString := fun l => l |} in
  let stream := response_body
                  (handleStreaming (fun _ _ => hello_generation) (fun _ => false)
                     openai hi_messages $"chat-1") in
  forallb text_payload (lines_read new_TextDecoder (chunks stream)) = true /\
  StronglySorted lt (lengths (content_calls (fst (consumeSSEStream stream)))).
Proof.
  cbn zeta. split; [vm_compute; reflexivity|].
  apply (@onContent_running_totals
           {| Number_ToBoolean := fun _ => true; Number_toString := fun l => l |}).
  vm_compute. reflexivity.
Defined.

(** C9, as the document words it, fails: a content frame whose payload is
    an empty array is truthy and adds the empty string, so [onContent] is
    called again with a total that is no longer than the one before. *)
Lemma onContent_not_strictly_increasing :
  (forall num : NumberConversions,
     fst (consumeSSEStream empty_array_payload)
     = [Call_onContent $"a"; Call_onContent $"a"]) /\
  ~ (forall (num : NumberConversions) (stream : ReadableStream),
       StronglySorted lt (lengths (content_calls (fst (consumeSSEStream stream))))).
Proof.
  split.
  - intros num. vm_compute. reflexivity.
  - intros H.
    specialize (H {| Number_ToBoolean := fun _ => true; Number_toString := fun l => l |}
                  empty_array_payload).
    vm_compute in H.
    inversion H as [|? ? _ Hall]; subst.
    inversion Hall as [|? ? Hlt _]; subst.
    lia.
Qed.

(** ** UTF-8: decoding what was encoded *)

Lemma list_ind2 {A : Type} (P : list A -> Prop) :
  P [] -> (forall a, P [a]) ->
  (forall a b l, P l -> P (b :: l) -> P (a :: b :: l)) ->
  forall l, P l.
Proof.
  intros H0 H1 H2 l.
  assert (H : P l /\ forall a, P (a :: l)).
  { induction l as [|b l [IH1 IH2]]; split; auto. }
  apply H.
Qed.

Lemma N_below (n : nat) (x : N) :
  (x < N.of_nat n)%N -> In x (map N.of_nat (seq 0 n)).
Proof.
  intros H. apply in_map_iff. exists (N.to_nat x). split.
  - apply N2Nat.id.
  - apply in_seq. lia.
Qed.

Ltac below x n :=
  let H := fresh "H" in
  assert (H : In x (map N.of_nat (seq 0 n))) by (apply N_below; simpl; lia);
  simpl in H;
  repeat (destruct H as [H|H]; [subst x|]); [..|contradiction].

Lemma byte_of_N_to_N (n : N) : (n < 256)%N -> N_of_byte (byte_of_N n) = n.
Proof.
  intros H. unfold N_of_byte, byte_of_N.
  destruct (Byte.of_N n) as [b|] eqn:E.
  - now apply Byte.to_of_N.
  - apply Byte.of_N_None_iff in E. lia.
Qed.

Lemma decode_stream_units (d : TextDecoder) (ns : list N) :
  Forall (fun n => (n < 256)%N) ns ->
  decode_stream d (map byte_of_N ns) = decode_units d ns.
Proof.
  intros H. revert d. induction H as [|n ns Hn _ IH]; intros d; [reflexivity|].
  cbn [map decode_stream decode_units]. rewrite (byte_of_N_to_N Hn).
  destruct (utf8_handler d n) as [d1 items].
  destruct (serialize d1 items) as [d2 text]. now rewrite IH.
Qed.

Lemma lor_shiftl_low (a x k : N) :
  (x < 2 ^ k)%N -> N.lor (N.shiftl a k) x = (a * 2 ^ k + x)%N.
Proof.
  intros Hx.
  assert (Hland : N.land (N.shiftl a k) x = 0%N).
  { apply N.bits_inj. intros m. rewrite N.land_spec, N.bits_0.
    destruct (N.lt_ge_cases m k) as [Hm|Hm].
    - now rewrite N.shiftl_spec_low.
    - rewrite <- (N.mod_small x (2 ^ k)) by assumption.
      rewrite N.mod_pow2_bits_high by assumption. apply andb_false_r. }
  rewrite <- N.lxor_lor by assumption.
  rewrite <- N.add_nocarry_lxor by assumption.
  now rewrite N.shiftl_mul_pow2.
Qed.

Lemma low6 (x : N) : (x < 64)%N ->
  N.lor 128 x = (128 + x)%N /\ N.land (128 + x) 63 = x.
Proof. intros H. below x 64; split; reflexivity. Qed.

Ltac divmod := zify; Z.to_euclidean_division_equations; lia.

(** A continuation byte in range shifts six more bits into the code
    point, and ends the sequence when it is the last one needed. *)
Lemma utf8_continue (acc seen needed L U x : N) (bom : bool) :
  needed <> 0%N -> (x < 64)%N -> (L <= 128 + x)%N -> (128 + x <= U)%N ->
  utf8_handler {| code_point := acc; bytes_seen := seen; bytes_needed := needed;
                  lower_boundary := L; upper_boundary := U; BOM_seen := bom |}
               (128 + x)
  = if (seen + 1 =? needed)%N then (idle bom, [(acc * 64 + x)%N])
    else ({| code_point := acc * 64 + x; bytes_seen := seen + 1;
             bytes_needed := needed;
             lower_boundary := 128; upper_boundary := 191; BOM_seen := bom |}, []).
Proof.
  intros Hn Hx HL HU. unfold utf8_handler.
  cbn [bytes_needed lower_boundary upper_boundary code_point bytes_seen BOM_seen].
  apply N.eqb_neq in Hn. rewrite Hn.
  apply N.leb_le in HL, HU. rewrite HL, HU. cbn [andb negb].
  destruct (low6 Hx) as [_ ->].
  rewrite (@lor_shiftl_low acc x 6) by exact Hx.
  change (2 ^ 6)%N with 64%N. reflexivity.
Qed.

Lemma utf8_lead2 (d : TextDecoder) (h : N) :
  (2 <= h)%N -> (h < 32)%N ->
  N.lor 192 h = (192 + h)%N /\
  utf8_lead d (192 + h)
  = ({| code_point := h; bytes_seen := 0; bytes_needed := 1;
        lower_boundary := 128; upper_boundary := 191; BOM_seen := BOM_seen d |}, []).
Proof. intros H2 H. below h 32; try lia; split; reflexivity. Qed.

Lemma utf8_lead3 (d : TextDecoder) (h : N) :
  (h < 16)%N ->
  N.lor 224 h = (224 + h)%N /\
  utf8_lead d (224 + h)
  = ({| code_point := h; bytes_seen := 0; bytes_needed := 2;
        lower_boundary := if (h =? 0)%N then 160 else 128;
        upper_boundary := if (h =? 13)%N then 159 else 191;
        BOM_seen := BOM_seen d |}, []).
Proof. intros H. below h 16; split; reflexivity. Qed.

Lemma utf8_lead4 (d : TextDecoder) (h : N) :
  (h < 5)%N ->
  N.lor 240 h = (240 + h)%N /\
  utf8_lead d (240 + h)
  = ({| code_point := h; bytes_seen := 0; bytes_needed := 3;
        lower_boundary := if (h =? 0)%N then 144 else 128;
        upper_boundary := if (h =? 4)%N then 143 else 191;
        BOM_seen := BOM_seen d |}, []).
Proof. intros H. below h 5; split; reflexivity. Qed.

Lemma shifts (cp : N) :
  N.shiftr cp 6 = (cp / 64)%N /\ N.shiftr cp 12 = (cp / 4096)%N /\
  N.shiftr cp 18 = (cp / 262144)%N /\ N.land cp 63 = (cp mod 64)%N /\
  N.land (N.shiftr cp 6) 63 = ((cp / 64) mod 64)%N /\
  N.land (N.shiftr cp 12) 63 = ((cp / 4096) mod 64)%N.
Proof.
  rewrite !N.shiftr_div_pow2. change 63%N with (N.ones 6).
  rewrite !N.land_ones. repeat split.
Qed.

Lemma utf8_handler_idle (bom : bool) (b : N) :
  utf8_handler (idle bom) b = utf8_lead (idle bom) b.
Proof. reflexivity. Qed.

Lemma serialize_one (bom : bool) (cp : N) :
  bom = true \/ cp <> 65279%N ->
  serialize (idle bom) [cp] = (idle true, utf16_of_scalar cp).
Proof.
  intros H. cbn [serialize BOM_seen idle code_point bytes_seen bytes_needed
                 lower_boundary upper_boundary].
  replace (negb bom && (cp =? 65279)%N) with false.
  - now rewrite app_nil_r.
  - symmetry. destruct H as [-> | H]; [reflexivity|].
    apply N.eqb_neq in H. rewrite H. apply andb_false_r.
Qed.

(** Decoding the UTF-8 bytes of a scalar value gives back its UTF-16 code
    units and leaves the decoder between characters. *)
Lemma scalar_round_trip (cp : N) (bom : bool) :
  is_scalar cp -> bom = true \/ cp <> 65279%N ->
  decode_stream (idle bom) (utf8_encode_scalar cp) = (idle true, utf16_of_scalar cp).
Proof.
  intros [Hmax Hsur] Hbom. unfold utf8_encode_scalar.
  destruct (shifts cp) as (S6 & S12 & S18 & L0 & L6 & L12).
  rewrite L6, L12, L0, S6, S12, S18.
  destruct (N.ltb_spec cp 128) as [H1|H1].
  { rewrite decode_stream_units by (repeat constructor; lia).
    cbn [decode_units]. rewrite utf8_handler_idle. unfold utf8_lead.
    replace (cp <=? 127)%N with true by (symmetry; apply N.leb_le; lia).
    rewrite (serialize_one Hbom). now rewrite app_nil_r. }
  destruct (N.ltb_spec cp 2048) as [H2|H2].
  { assert (Hh : (2 <= cp / 64)%N /\ (cp / 64 < 32)%N) by divmod.
    assert (Hl : (cp mod 64 < 64)%N) by divmod.
    destruct (utf8_lead2 (idle bom) (proj1 Hh) (proj2 Hh)) as [E1 E2].
    destruct (low6 Hl) as [E3 _]. rewrite E1, E3.
    rewrite decode_stream_units by (repeat constructor; lia).
    cbn [decode_units]. rewrite utf8_handler_idle, E2. cbn [serialize BOM_seen idle].
    rewrite utf8_continue by lia.
    change (0 + 1 =? 1)%N with true. cbn iota.
    replace (cp / 64 * 64 + cp mod 64)%N with cp by divmod.
    rewrite (serialize_one Hbom). now rewrite !app_nil_r. }
  destruct (N.ltb_spec cp 65536) as [H3|H3].
  { assert (Hh : (cp / 4096 < 16)%N) by divmod.
    assert (Hm : ((cp / 64) mod 64 < 64)%N) by divmod.
    assert (Hl : (cp mod 64 < 64)%N) by divmod.
    destruct (utf8_lead3 (idle bom) Hh) as [E1 E2].
    destruct (low6 Hm) as [E3 _]. destruct (low6 Hl) as [E4 _].
    rewrite E1, E3, E4.
    rewrite decode_stream_units by (repeat constructor; lia).
    cbn [decode_units]. rewrite utf8_handler_idle, E2. cbn [serialize BOM_seen idle].
    rewrite utf8_continue;
      [ | lia | assumption
        | destruct (N.eqb_spec (cp / 4096) 0); divmod
        | destruct (N.eqb_spec (cp / 4096) 13); divmod ].
    change (0 + 1 =? 2)%N with false. cbn iota. cbn [serialize].
    rewrite utf8_continue by lia.
    change (0 + 1 + 1 =? 2)%N with true. cbn iota.
    replace ((cp / 4096 * 64 + (cp / 64) mod 64) * 64 + cp mod 64)%N with cp by divmod.
    rewrite (serialize_one Hbom). now rewrite !app_nil_r. }
  assert (Hh : (cp / 262144 < 5)%N) by divmod.
  assert (Hm2 : ((cp / 4096) mod 64 < 64)%N) by divmod.
  assert (Hm : ((cp / 64) mod 64 < 64)%N) by divmod.
  assert (Hl : (cp mod 64 < 64)%N) by divmod.
  destruct (utf8_lead4 (idle bom) Hh) as [E1 E2].
  destruct (low6 Hm2) as [E5 _]. destruct (low6 Hm) as [E3 _].
  destruct (low6 Hl) as [E4 _].
  rewrite E1, E3, E4, E5.
  rewrite decode_stream_units by (repeat constructor; lia).
  cbn [decode_units]. rewrite utf8_handler_idle, E2. cbn [serialize BOM_seen idle].
  rewrite utf8_continue;
    [ | lia | assumption
      | destruct (N.eqb_spec (cp / 262144) 0); divmod
      | destruct (N.eqb_spec (cp / 262144) 4); divmod ].
  change (0 + 1 =? 3)%N with false. cbn iota. cbn [serialize].
  rewrite utf8_continue by lia.
  change (0 + 1 + 1 =? 3)%N with false. cbn iota. cbn [serialize].
  rewrite utf8_continue by lia.
  change (0 + 1 + 1 + 1 =? 3)%N with true. cbn iota.
  replace (((cp / 262144 * 64 + (cp / 4096) mod 64) * 64 + (cp / 64) mod 64) * 64
           + cp mod 64)%N with cp by divmod.
  rewrite (serialize_one Hbom). now rewrite !app_nil_r.
Qed.

Lemma surrogate_bounds (c : N) :
  (is_high_surrogate c = true <-> (55296 <= c <= 56319)%N) /\
  (is_low_surrogate c = true <-> (56320 <= c <= 57343)%N).
Proof.
  unfold is_high_surrogate, is_low_surrogate.
  rewrite !andb_true_iff, !N.leb_le. tauto.
Qed.

Lemma pair_scalar (a b : N) :
  is_high_surrogate a = true -> is_low_surrogate b = true ->
  let cp := (65536 + N.shiftl (a - 55296) 10 + (b - 56320))%N in
  is_scalar cp /\ cp <> 65279%N /\ utf16_of_scalar cp = [a; b].
Proof.
  intros Ha Hb. apply surrogate_bounds in Ha, Hb. cbn zeta.
  rewrite N.shiftl_mul_pow2. change (2 ^ 10)%N with 1024%N.
  unfold is_scalar, utf16_of_scalar.
  replace (_ <? 65536)%N with false by (symmetry; apply N.ltb_ge; lia).
  rewrite N.shiftr_div_pow2. change (2 ^ 10)%N with 1024%N.
  change 1023%N with (N.ones 10). rewrite N.land_ones. change (2 ^ 10)%N with 1024%N.
  repeat split; try lia.
  f_equal; [|f_equal]; divmod.
Qed.

Lemma single_scalar (a : N) :
  is_high_surrogate a = false -> is_low_surrogate a = false -> (a < 65536)%N ->
  is_scalar a /\ utf16_of_scalar a = [a].
Proof.
  intros Ha Hb Hc. unfold is_scalar, utf16_of_scalar.
  apply N.ltb_lt in Hc as Hc'. rewrite Hc'.
  repeat split; try lia.
  intros [H1 H2].
  destruct (N.le_gt_cases a 56319).
  - assert (is_high_surrogate a = true) by (apply surrogate_bounds; lia). congruence.
  - assert (is_low_surrogate a = true) by (apply surrogate_bounds; lia). congruence.
Qed.

Lemma encode_single (a : N) (rest : jsstring) :
  is_high_surrogate a = false -> is_low_surrogate a = false ->
  TextEncoder_encode (a :: rest) = utf8_encode_scalar a ++ TextEncoder_encode rest.
Proof.
  intros Ha Hb. unfold TextEncoder_encode. cbn [scalars_of_utf16].
  now rewrite Ha, Hb.
Qed.

Lemma encode_pair (a b : N) (rest : jsstring) :
  is_high_surrogate a = true -> is_low_surrogate b = true ->
  TextEncoder_encode (a :: b :: rest)
  = utf8_encode_scalar (65536 + N.shiftl (a - 55296) 10 + (b - 56320))
    ++ TextEncoder_encode rest.
Proof.
  intros Ha Hb. unfold TextEncoder_encode. cbn [scalars_of_utf16].
  now rewrite Ha, Hb.
Qed.

(** [TextDecoder] gives back what [TextEncoder] was given, when that is
    well-formed text that does not start with a byte order mark the
    decoder would strip. *)
Lemma text_round_trip (s : jsstring) :
  forall bom,
  well_formed s = true -> bom = true \/ hd 0%N s <> 65279%N ->
  decode_stream (idle bom) (TextEncoder_encode s)
  = (idle (bom || match s with [] => false | _ => true end), s).
Proof.
  induction s as [ | a | a b l IHl IHbl ] using list_ind2; intros bom Hwf Hbom.
  - cbn. now rewrite orb_false_r.
  - cbn [well_formed] in Hwf.
    destruct (is_high_surrogate a) eqn:Ha; [discriminate|].
    apply andb_true_iff in Hwf as [Hwf _]. apply andb_true_iff in Hwf as [Hlow Hlt].
    apply negb_true_iff in Hlow. apply N.ltb_lt in Hlt.
    destruct (@single_scalar a Ha Hlow Hlt) as [Hs Hu].
    rewrite (@encode_single a [] Ha Hlow). change (TextEncoder_encode []) with (@nil Byte.byte).
    rewrite app_nil_r, scalar_round_trip, Hu; auto.
    now rewrite orb_true_r.
  - cbn [well_formed] in Hwf. rewrite orb_true_r.
    destruct (is_high_surrogate a) eqn:Ha.
    + apply andb_true_iff in Hwf as [Hb Hwf].
      destruct (@pair_scalar a b Ha Hb) as (Hs & Hne & Hu). cbn zeta in *.
      rewrite (@encode_pair a b l Ha Hb).
      rewrite decode_stream_app, scalar_round_trip by auto.
      rewrite (IHl true Hwf (or_introl eq_refl)), Hu. reflexivity.
    + apply andb_true_iff in Hwf as [Hwf Hrest]. apply andb_true_iff in Hwf as [Hlow Hlt].
      apply negb_true_iff in Hlow. apply N.ltb_lt in Hlt.
      destruct (@single_scalar a Ha Hlow Hlt) as [Hs Hu].
      rewrite (@encode_single a (b :: l) Ha Hlow).
      rewrite decode_stream_app, scalar_round_trip by auto.
      rewrite (IHbl true Hrest (or_introl eq_refl)), Hu. reflexivity.
Qed.

(** ** JSON: parsing what was serialised *)

Lemma list_length_ind {A : Type} (P : list A -> Prop) :
  (forall l, (forall l', List.length l' < List.length l -> P l') -> P l) ->
  forall l, P l.
Proof.
  intros H l. remember (List.length l) as n eqn:E. revert l E.
  induction n as [n IH] using lt_wf_ind. intros l ->.
  apply H. intros l' Hl'. now apply (IH (List.length l')).
Qed.

(** How [quote_body] writes the first character of a string: as a
    two-character escape, as a [\u] escape, as itself, or as itself together
    with the low surrogate that follows it. *)
Lemma quote_body_cases (c : N) (rest : jsstring) :
  (exists e, quote_body (c :: rest) = [92%N; e] ++ quote_body rest /\
             unescape e = Some c /\ (e < 128)%N /\ e <> 10%N /\ e <> 117%N) \/
  (quote_body (c :: rest) = unicode_escape c ++ quote_body rest /\ (c < 65536)%N) \/
  (quote_body (c :: rest) = c :: quote_body rest /\
   (32 <= c)%N /\ c <> 34%N /\ c <> 92%N /\
   is_high_surrogate c = false /\ is_low_surrogate c = false) \/
  (exists c2 rest', rest = c2 :: rest' /\
     is_high_surrogate c = true /\ is_low_surrogate c2 = true /\
     quote_body (c :: rest) = c :: c2 :: quote_body rest').
Proof.
  cbn [quote_body].
  destruct (N.eqb_spec c 8) as [->|H8]; [left; exists 98%N; repeat split; lia|].
  destruct (N.eqb_spec c 9) as [->|H9]; [left; exists 116%N; repeat split; lia|].
  destruct (N.eqb_spec c 10) as [->|H10]; [left; exists 110%N; repeat split; lia|].
  destruct (N.eqb_spec c 12) as [->|H12]; [left; exists 102%N; repeat split; lia|].
  destruct (N.eqb_spec c 13) as [->|H13]; [left; exists 114%N; repeat split; lia|].
  destruct (N.eqb_spec c 34) as [->|H34]; [left; exists 34%N; repeat split; lia|].
  destruct (N.eqb_spec c 92) as [->|H92]; [left; exists 92%N; repeat split; lia|].
  destruct (N.ltb_spec c 32) as [H32|H32]; [right; left; split; [reflexivity|lia]|].
  destruct (is_high_surrogate c) eqn:Hh.
  - apply surrogate_bounds in Hh as Hb.
    destruct rest as [|c2 rest']; [right; left; split; [reflexivity|lia]|].
    destruct (is_low_surrogate c2) eqn:Hl.
    + right; right; right. exists c2, rest'. auto.
    + right; left. split; [reflexivity|lia].
  - destruct (is_low_surrogate c) eqn:Hl.
    + apply surrogate_bounds in Hl as Hb. right; left. split; [reflexivity|lia].
    + right; right; left. repeat split; auto.
Qed.

Lemma hex_digit_round_trip (x : N) :
  (x < 16)%N ->
  hexval (hex_digit x) = Some x /\ (hex_digit x < 128)%N /\
  hex_digit x <> 10%N /\ (32 <= hex_digit x)%N.
Proof. intros H. below x 16; repeat split; try reflexivity; cbn; lia. Qed.

Lemma nibbles (c : N) :
  (c < 65536)%N ->
  let d3 := N.land (N.shiftr c 12) 15 in
  let d2 := N.land (N.shiftr c 8) 15 in
  let d1 := N.land (N.shiftr c 4) 15 in
  let d0 := N.land c 15 in
  (d3 < 16 /\ d2 < 16 /\ d1 < 16 /\ d0 < 16)%N /\
  ((((0 * 16 + d3) * 16 + d2) * 16 + d1) * 16 + d0 = c)%N.
Proof.
  intros H. cbn zeta. rewrite !N.shiftr_div_pow2.
  change 15%N with (N.ones 4). rewrite !N.land_ones.
  change (2 ^ 4)%N with 16%N. change (2 ^ 8)%N with 256%N.
  change (2 ^ 12)%N with 4096%N.
  repeat split; divmod.
Qed.

Lemma lex_literal (c : N) (acc : jsstring) (p : pstate) :
  (32 <= c)%N -> c <> 34%N -> c <> 92%N ->
  lex_step (LString acc, p) c = Some (LString (acc ++ [c]), p).
Proof.
  intros H32 H34 H92. cbn [lex_step].
  apply N.eqb_neq in H34, H92. rewrite H34, H92.
  replace (c <? 32)%N with false by (symmetry; apply N.ltb_ge; lia).
  reflexivity.
Qed.

Lemma lex_simple_escape (e c : N) (acc : jsstring) (p : pstate) (rest : jsstring) :
  unescape e = Some c ->
  lex_all (LString acc, p) ([92%N; e] ++ rest)
  = lex_all (LString (acc ++ [c]), p) rest.
Proof.
  intros He. cbn [app lex_all].
  change (lex_step (LString acc, p) 92%N) with (Some (LEscape acc, p)).
  cbn iota. cbn [lex_step]. now rewrite He.
Qed.

Lemma lex_unicode_escape (c : N) (acc : jsstring) (p : pstate) (rest : jsstring) :
  (c < 65536)%N ->
  lex_all (LString acc, p) (unicode_escape c ++ rest)
  = lex_all (LString (acc ++ [c]), p) rest.
Proof.
  intros Hc. destruct (nibbles Hc) as ((H3 & H2 & H1 & H0) & Hval). cbn zeta in *.
  unfold unicode_escape. cbn [app lex_all].
  change (lex_step (LString acc, p) 92%N) with (Some (LEscape acc, p)). cbn iota.
  change (lex_step (LEscape acc, p) 117%N) with (Some (LHex acc 0 4, p)). cbn iota.
  cbn [lex_step].
  destruct (hex_digit_round_trip H3) as [-> _].
  cbn iota. cbn [lex_step].
  destruct (hex_digit_round_trip H2) as [-> _].
  cbn iota. cbn [lex_step].
  destruct (hex_digit_round_trip H1) as [-> _].
  cbn iota. cbn [lex_step].
  destruct (hex_digit_round_trip H0) as [-> _].
  cbn iota. now rewrite Hval.
Qed.

(** The scanner reads the body of a quoted string back as the string. *)
Lemma lex_quote_body (d : jsstring) :
  forall (acc : jsstring) (p : pstate) (rest : jsstring),
  lex_all (LString acc, p) (quote_body d ++ rest)
  = lex_all (LString (acc ++ d), p) rest.
Proof.
  induction d as [d IH] using list_length_ind. intros acc p rest.
  destruct d as [|c d]; [now rewrite app_nil_r|].
  replace (acc ++ c :: d) with ((acc ++ [c]) ++ d) by now rewrite <- app_assoc.
  destruct (quote_body_cases c d)
    as [ (e & -> & He & _) | [ (-> & Hc) | [ (-> & H32 & H34 & H92 & _)
       | (c2 & d' & -> & Hh & Hl & ->) ] ] ].
  - rewrite <- app_assoc. erewrite lex_simple_escape by exact He. apply IH. simpl. lia.
  - rewrite <- app_assoc, lex_unicode_escape by exact Hc. apply IH. simpl. lia.
  - cbn [app lex_all]. rewrite lex_literal by assumption. apply IH. simpl. lia.
  - apply surrogate_bounds in Hh, Hl.
    cbn [app lex_all]. rewrite lex_literal by lia. rewrite lex_literal by lia.
    replace ((acc ++ [c]) ++ c2 :: d') with (((acc ++ [c]) ++ [c2]) ++ d')
      by now rewrite <- !app_assoc.
    apply IH. simpl. lia.
Qed.

(** A quoted string is read as one string token. *)
Lemma lex_quoted (s : jsstring) (p : pstate) (rest : jsstring) :
  lex_all (LStart, p) (QuoteJSONString s ++ rest)
  = match feed p (TStr s) with
    | Some p' => lex_all (LStart, p') rest
    | None => None
    end.
Proof.
  unfold QuoteJSONString. cbn [app lex_all].
  change (lex_step (LStart, p) 34%N) with (Some (LString [], p)). cbn iota.
  rewrite <- app_assoc, lex_quote_body. cbn [app lex_all lex_step].
  change (34 =? 34)%N with true. cbn iota. unfold emit.
  now destruct (feed p (TStr s)).
Qed.

Lemma lex_member (k v : jsstring) (ps : list (jsstring * JValue)) (e : expect)
    (rest : jsstring) :
  e = EKeyOrClose \/ e = EKey ->
  lex_all (LStart, ([FObj ps], e))
    (QuoteJSONString k ++ 58%N :: QuoteJSONString v ++ rest)
  = lex_all (LStart, ([FObj (define ps k (JStr v))], ECommaOrClose)) rest.
Proof.
  intros He. rewrite lex_quoted.
  replace (feed ([FObj ps], e) (TStr k)) with (Some ([FKey ps k], EColon))
    by (destruct He as [-> | ->]; reflexivity).
  cbn [app lex_all].
  change (lex_step (LStart, ([FKey ps k], EColon)) 58%N)
    with (Some (LStart, ([FKey ps k], EValue))).
  cbn iota. rewrite lex_quoted. reflexivity.
Qed.

Lemma lex_members (props : list (jsstring * jsstring)) :
  forall (ps : list (jsstring * JValue)) (rest : jsstring),
  lex_all (LStart, ([FObj ps], ECommaOrClose))
    (List.concat
       (map (fun m => [44%N] ++ m)
          (map (fun kv => QuoteJSONString (fst kv) ++ [58%N] ++ QuoteJSONString (snd kv))
             props))
     ++ rest)
  = lex_all (LStart,
             ([FObj (fold_left (fun ps kv => define ps (fst kv) (JStr (snd kv))) props ps)],
              ECommaOrClose)) rest.
Proof.
  induction props as [|[k v] props IH]; intros ps rest; [reflexivity|].
  cbn [map List.concat fold_left fst snd]. rewrite <- !app_assoc.
  cbn [app lex_all].
  change (lex_step (LStart, ([FObj ps], ECommaOrClose)) 44%N)
    with (Some (LStart, ([FObj ps], EKey))).
  cbn iota.
  rewrite (@lex_member k v ps EKey) by auto. apply IH.
Qed.

(** [JSON.parse] reads what [JSON.stringify] wrote for an object of
    strings back as that object. *)
Lemma parse_stringify (props : list (jsstring * jsstring)) :
  JSON_parse (JSON_stringify props) = Some (JObj (object_of props)).
Proof.
  unfold JSON_parse, JSON_stringify, object_of.
  cbn [app lex_all].
  change (lex_step (LStart, ([], EValue)) 123%N)
    with (Some (LStart, ([FObj []], EKeyOrClose))).
  cbn iota.
  destruct props as [|[k v] props].
  - reflexivity.
  - cbn [map fst snd]. rewrite join_cons. rewrite <- !app_assoc. cbn [app].
    rewrite (@lex_member k v [] EKeyOrClose) by auto.
    rewrite lex_members. reflexivity.
Qed.

(** ** What a frame looks like on the wire *)

Lemma well_formed_ascii (p tail : jsstring) :
  forallb (fun c => (c <? 128)%N) p = true ->
  well_formed (p ++ tail) = well_formed tail.
Proof.
  induction p as [|c p IH]; intros H; [reflexivity|].
  cbn [forallb] in H. apply andb_true_iff in H as [Hc Hp]. apply N.ltb_lt in Hc.
  cbn [app well_formed].
  replace (is_high_surrogate c) with false
    by (symmetry; unfold is_high_surrogate; apply andb_false_iff; left;
        apply N.leb_gt; lia).
  replace (is_low_surrogate c) with false
    by (symmetry; unfold is_low_surrogate; apply andb_false_iff; left;
        apply N.leb_gt; lia).
  replace (c <? 65536)%N with true by (symmetry; apply N.ltb_lt; lia).
  cbn [negb andb]. now apply IH.
Qed.

Lemma unicode_escape_ascii (c : N) :
  forallb (fun c => (c <? 128)%N) (unicode_escape c) = true /\
  one_line (unicode_escape c) = true.
Proof.
  assert (H : forall x, (N.land x 15 < 16)%N).
  { intros x. change 15%N with (N.ones 4). rewrite N.land_ones. divmod. }
  unfold unicode_escape, one_line. cbn [forallb].
  pose proof (hex_digit_round_trip (H (N.shiftr c 12))) as (_ & A3 & B3 & _).
  pose proof (hex_digit_round_trip (H (N.shiftr c 8))) as (_ & A2 & B2 & _).
  pose proof (hex_digit_round_trip (H (N.shiftr c 4))) as (_ & A1 & B1 & _).
  pose proof (hex_digit_round_trip (H c)) as (_ & A0 & B0 & _).
  apply N.ltb_lt in A3, A2, A1, A0. apply N.eqb_neq in B3, B2, B1, B0.
  rewrite A3, A2, A1, A0, B3, B2, B1, B0. split; reflexivity.
Qed.

(** The body of a quoted string is well-formed text on one line. *)
Lemma quote_body_text (d : jsstring) :
  code_units d ->
  (forall tail, well_formed (quote_body d ++ tail) = well_formed tail) /\
  one_line (quote_body d) = true.
Proof.
  induction d as [d IH] using list_length_ind. intros Hd.
  destruct d as [|c d]; [split; reflexivity|].
  inversion Hd as [|? ? Hc Hd']; subst.
  destruct (quote_body_cases c d)
    as [ (e & -> & He & He128 & He10 & _) | [ (-> & _) | [ (-> & H32 & _ & _ & Hh & Hl)
       | (c2 & d' & -> & Hh & Hl & ->) ] ] ].
  - destruct (IH d) as [IH1 IH2]; [simpl; lia | assumption |].
    split.
    + intros tail. rewrite <- app_assoc, well_formed_ascii; [apply IH1|].
      cbn. apply N.ltb_lt in He128. now rewrite He128.
    + unfold one_line in *. cbn [app forallb]. apply N.eqb_neq in He10.
      now rewrite He10, IH2.
  - destruct (IH d) as [IH1 IH2]; [simpl; lia | assumption |].
    destruct (unicode_escape_ascii c) as [U1 U2].
    split.
    + intros tail. rewrite <- app_assoc, well_formed_ascii; [apply IH1|exact U1].
    + unfold one_line in *. now rewrite forallb_app, U2, IH2.
  - destruct (IH d) as [IH1 IH2]; [simpl; lia | assumption |].
    split.
    + intros tail. cbn [app well_formed]. rewrite Hh, Hl.
      apply N.ltb_lt in Hc. rewrite Hc. cbn [negb andb]. apply IH1.
    + unfold one_line in *. cbn [forallb].
      replace (c =? 10)%N with false by (symmetry; apply N.eqb_neq; lia).
      exact IH2.
  - inversion Hd' as [|? ? Hc2 Hd'']; subst.
    destruct (IH d') as [IH1 IH2]; [simpl; lia | assumption |].
    apply surrogate_bounds in Hh as Hhb. apply surrogate_bounds in Hl as Hlb.
    split.
    + intros tail. cbn [app well_formed]. rewrite Hh, Hl. cbn [andb]. apply IH1.
    + unfold one_line in *. cbn [forallb].
      replace (c =? 10)%N with false by (symmetry; apply N.eqb_neq; lia).
      replace (c2 =? 10)%N with false by (symmetry; apply N.eqb_neq; lia).
      exact IH2.
Qed.

Lemma quoted_text (s : jsstring) :
  code_units s ->
  (forall tail, well_formed (QuoteJSONString s ++ tail) = well_formed tail) /\
  one_line (QuoteJSONString s) = true.
Proof.
  intros Hs. destruct (quote_body_text Hs) as [H1 H2].
  unfold QuoteJSONString. split.
  - intros tail. rewrite <- !app_assoc. cbn [app well_formed].
    change (is_high_surrogate 34) with false. change (is_low_surrogate 34) with false.
    cbn [negb andb N.ltb]. rewrite H1. reflexivity.
  - unfold one_line in *. cbn [app forallb]. now rewrite forallb_app, H2.
Qed.

Lemma one_line_app (a b : jsstring) :
  one_line (a ++ b) = one_line a && one_line b.
Proof. apply forallb_app. Qed.

Lemma text_piece_app (a b : jsstring) :
  text_piece a -> text_piece b -> text_piece (a ++ b).
Proof.
  intros [A1 A2] [B1 B2]. split.
  - intros tail. now rewrite <- app_assoc, A1, B1.
  - now rewrite one_line_app, A2, B2.
Qed.

Lemma text_piece_ascii (p : jsstring) :
  forallb (fun c => (c <? 128)%N && negb (c =? 10)%N) p = true -> text_piece p.
Proof.
  intros H. split.
  - intros tail. apply well_formed_ascii.
    rewrite forallb_forall in *. intros c Hc. specialize (H c Hc).
    now apply andb_true_iff in H as [H _].
  - unfold one_line. rewrite forallb_forall in *. intros c Hc. specialize (H c Hc).
    now apply andb_true_iff in H as [_ H].
Qed.

Lemma text_piece_quoted (s : jsstring) : code_units s -> text_piece (QuoteJSONString s).
Proof.
  intros Hs. unfold QuoteJSONString.
  repeat apply text_piece_app; try (apply text_piece_ascii; reflexivity).
  exact (quote_body_text Hs).
Qed.

Lemma text_piece_join (sep : jsstring) (parts : list jsstring) :
  text_piece sep -> Forall text_piece parts -> text_piece (join sep parts).
Proof.
  intros Hsep Hparts. induction Hparts as [|m ms Hm Hms IH].
  - split; reflexivity.
  - rewrite join_cons. apply text_piece_app; [exact Hm|].
    clear IH. induction Hms as [|m' ms' Hm' _ IH']; cbn [map List.concat].
    + split; reflexivity.
    + repeat apply text_piece_app; assumption.
Qed.

(** What [JSON.stringify] writes for an object of strings is well-formed
    text on one line. *)
Lemma text_piece_stringify (props : list (jsstring * jsstring)) :
  props_code_units props -> text_piece (JSON_stringify props).
Proof.
  intros Hp. unfold JSON_stringify.
  repeat apply text_piece_app; try (apply text_piece_ascii; reflexivity).
  apply text_piece_join; [apply text_piece_ascii; reflexivity|].
  rewrite Forall_map. eapply Forall_impl; [|exact Hp].
  intros [k v] [Hk Hv]. cbn [fst snd] in *.
  apply text_piece_app; [now apply text_piece_quoted|].
  apply text_piece_app; [apply text_piece_ascii; reflexivity|].
  now apply text_piece_quoted.
Qed.

Lemma split_one_line (x : jsstring) :
  one_line x = true ->
  forall rest, split_lines (x ++ 10%N :: rest) = x :: split_lines rest.
Proof.
  intros Hx rest. induction x as [|c x IH]; cbn [app split_lines].
  - reflexivity.
  - cbn [one_line forallb] in Hx. apply andb_true_iff in Hx as [Hc Hx].
    apply negb_true_iff in Hc. rewrite Hc, (IH Hx). reflexivity.
Qed.

Lemma trim_braces (body : jsstring) :
  trim ([123%N] ++ body ++ [125%N]) = [123%N] ++ body ++ [125%N].
Proof.
  unfold trim, trimEnd. cbn [app trimStart].
  change (is_trim_space 123) with false. cbn iota.
  change (123%N :: body ++ [125%N]) with ([123%N] ++ body ++ [125%N]).
  rewrite !rev_app_distr. cbn [rev app trimStart].
  change (is_trim_space 125) with false. cbn iota.
  change (125%N :: rev body ++ [123%N]) with ([125%N] ++ rev body ++ [123%N]).
  rewrite !rev_app_distr, rev_involutive. reflexivity.
Qed.

(** The line of a frame is recognised as a [data: ] line and parsed back
    to the object that was serialised. *)
Lemma line_data_stringify (props : list (jsstring * jsstring)) :
  line_data ($"data: " ++ JSON_stringify props) = Some (JObj (object_of props)).
Proof.
  unfold line_data.
  change (startsWith $"data: " ($"data: " ++ JSON_stringify props)) with true.
  cbn iota.
  change (slice 6 ($"data: " ++ JSON_stringify props)) with (JSON_stringify props).
  unfold JSON_stringify at 1 2. rewrite trim_braces.
  fold (JSON_stringify props). cbn [app truthy]. cbn iota.
  change (123%N :: ?x ++ [125%N]) with ([123%N] ++ x ++ [125%N]).
  apply parse_stringify.
Qed.

(** ** The consumer on the frames the handler writes *)

Section RoundTrip.
Context {num : NumberConversions}.

Lemma handleSSELine_dispatch {S : Type} (line : jsstring) (callbacks : SSECallbacks S)
    (st : S) :
  handleSSELine line callbacks st
  = match line_data line with
    | Some data => dispatch data callbacks st
    | None => st
    end.
Proof.
  unfold handleSSELine, line_data, dispatch.
  destruct (startsWith $"data: " line); [|reflexivity]. cbn [negb].
  destruct (truthy (trim (slice 6 line))); [|reflexivity]. cbn [negb].
  now destruct (JSON_parse (trim (slice 6 line))).
Qed.

(** Reading one chunk that holds one frame: the frame's line is handled,
    and the decoder is again between characters. *)
Lemma consume_sse (props : list (jsstring * jsstring)) (bom : bool) (acc : jsstring)
    (cs : list Call) :
  props_code_units props ->
  consume_chunk (reading bom acc cs) (sse (JSON_stringify props))
  = dispatch (JObj (object_of props)) consume_callbacks (reading true acc cs).
Proof.
  intros Hp. destruct (text_piece_stringify Hp) as [Hwf Hline].
  unfold consume_chunk, sse. cbn [decoder reading].
  rewrite text_round_trip.
  - change (match $"data: " ++ JSON_stringify props ++ LF ++ LF with
            | [] => false | _ :: _ => true end) with true.
    rewrite orb_true_r. cbn [accumulated calls reading]. fold (reading true acc cs).
    change ($"data: " ++ JSON_stringify props ++ LF ++ LF)
      with (($"data: " ++ JSON_stringify props) ++ 10%N :: 10%N :: []).
    rewrite split_one_line.
    + cbn [split_lines]. change (10 =? 10)%N with true. cbn iota.
      unfold consume_lines. cbn [fold_left].
      rewrite !handleSSELine_dispatch, line_data_stringify.
      change (line_data []) with (@None JValue). reflexivity.
    + rewrite one_line_app, Hline. reflexivity.
  - rewrite well_formed_ascii by reflexivity.
    change (JSON_stringify props ++ LF ++ LF)
      with (JSON_stringify props ++ (LF ++ LF)).
    now rewrite Hwf.
  - right. cbn. lia.
Qed.

Lemma consume_frame_metadata (id : jsstring) (bom : bool) (acc : jsstring)
    (cs : list Call) :
  code_units id ->
  consume_chunk (reading bom acc cs) (frame (Ev_chat_metadata id))
  = reading true acc (cs ++ if truthy id then [Call_onChatData (JStr id)] else []).
Proof.
  intros Hid. unfold frame. rewrite consume_sse.
  - unfold dispatch, object_of. cbn.
    destruct id; cbn; [now rewrite app_nil_r | reflexivity].
  - repeat constructor; cbn [fst snd]; try assumption; repeat constructor.
Qed.

Lemma consume_frame_content (delta : jsstring) (bom : bool) (acc : jsstring)
    (cs : list Call) :
  code_units delta -> truthy delta = true ->
  consume_chunk (reading bom acc cs) (frame (Ev_content delta))
  = reading true (acc ++ delta) (cs ++ [Call_onContent (acc ++ delta)]).
Proof.
  intros Hd Ht. unfold frame. rewrite consume_sse.
  - unfold dispatch, object_of. cbn.
    destruct delta; [discriminate|reflexivity].
  - repeat constructor; cbn [fst snd]; try assumption; repeat constructor.
Qed.

Lemma consume_frame_done (bom : bool) (acc : jsstring) (cs : list Call) :
  consume_chunk (reading bom acc cs) (frame Ev_done) = reading true acc cs.
Proof.
  unfold frame. rewrite consume_sse.
  - reflexivity.
  - repeat constructor.
Qed.

Lemma fold_left_cons {A B : Type} (f : A -> B -> A) (x : B) (l : list B) (a : A) :
  fold_left f (x :: l) a = fold_left f l (f a x).
Proof. reflexivity. Qed.

Lemma consume_content_frames (ds : list jsstring) :
  Forall code_units ds -> Forall (fun d => truthy d = true) ds ->
  forall (acc : jsstring) (cs : list Call),
  fold_left consume_chunk (map (fun d => frame (Ev_content d)) ds) (reading true acc cs)
  = reading true (acc ++ List.concat ds)
      (cs ++ map Call_onContent (running_totals acc ds)).
Proof.
  intros Hcu Htr. revert Htr.
  induction Hcu as [|d ds Hd _ IH]; intros Htr acc cs.
  - cbn. now rewrite !app_nil_r.
  - inversion Htr as [|? ? Ht Htr']; subst.
    rewrite map_cons, fold_left_cons, consume_frame_content by assumption.
    rewrite (IH Htr').
    change (List.concat (d :: ds)) with (d ++ List.concat ds).
    change (running_totals acc (d :: ds))
      with ((acc ++ d) :: running_totals (acc ++ d) ds).
    rewrite map_cons, <- !app_assoc. reflexivity.
Qed.

End RoundTrip.

Lemma deltas_truthy (chunks : list StreamChunk) :
  Forall (fun d => truthy d = true) (deltas chunks).
Proof.
  unfold deltas. apply Forall_forall. intros d Hd.
  now apply filter_In in Hd as [_ Hd].
Qed.

(** Reading the frames of a response, one to a read: the metadata frame,
    the content frames, and the closing frame unless the response was cut
    short. *)
Lemma consume_frames {num : NumberConversions} (id : jsstring) (ds : list jsstring)
    (cut_short failing : bool) :
  code_units id -> Forall code_units ds -> Forall (fun d => truthy d = true) ds ->
  consumeSSEStream
    {| chunks := frame (Ev_chat_metadata id)
                 :: map (fun d => frame (Ev_content d)) ds
                 ++ (if cut_short then [] else [frame Ev_done]);
       fails := failing |}
  = ((if truthy id then [Call_onChatData (JStr id)] else [])
     ++ map Call_onContent (running_totals $"" ds),
     if failing then None else Some (List.concat ds)).
Proof.
  intros Hid Hds Htr.
  unfold consumeSSEStream, consume_all. cbn [chunks fails].
  change consume_start with (reading false [] []).
  rewrite fold_left_cons, consume_frame_metadata by assumption.
  rewrite fold_left_app, consume_content_frames by assumption.
  cbn [app].
  destruct cut_short.
  - cbn [fold_left calls accumulated reading]. reflexivity.
  - rewrite fold_left_cons, consume_frame_done.
    cbn [fold_left calls accumulated reading]. reflexivity.
Qed.

(** X1.  What the client accumulates is what the server accumulated: read
    one enqueued chunk at a time, the response of [handleStreaming] makes
    [consumeSSEStream] call [onChatData] with the chat id (when it is not
    empty), then [onContent] with each running total of the increments,
    and resolve with [fullResponse], the text the handler stores; when the
    handler errors the stream, the same calls are made and the promise
    rejects. *)
Theorem stream_round_trip {num : NumberConversions}
    (createStreamingCompletion : AIProviderType -> list ChatMessage -> Generation)
    (addMessageToChat_throws : AddedMessage -> bool)
    (provider : AIProviderType) (messages : list ChatMessage) (activeChatId : jsstring) :
  code_units activeChatId ->
  Forall code_units (deltas (yields (createStreamingCompletion provider messages))) ->
  let r := handleStreaming createStreamingCompletion addMessageToChat_throws
             provider messages activeChatId in
  consumeSSEStream (response_body r)
  = ((if truthy activeChatId then [Call_onChatData (JStr activeChatId)] else [])
     ++ map Call_onContent
          (running_totals $"" (deltas (yields (createStreamingCompletion provider messages)))),
     match stream_state r with
     | errored => None
     | _ => Some (fullResponse r)
     end).
Proof.
  intros Hid Hds. cbn zeta. rewrite handleStreaming_run. cbn zeta.
  unfold response_body. cbn [enqueued stream_state fullResponse].
  rewrite consume_frames by (assumption || apply deltas_truthy).
  now destruct (_ || _).
Qed.

(** X1 at the end-to-end scenario. *)
Lemma stream_round_trip_witness :
  let num := {| Number_ToBoolean := fun _ => true; Number_toString := fun l => l |} in
  code_units $"chat-1" /\
  Forall code_units (deltas (yields hello_generation)) /\
  snd (consumeSSEStream
         (response_body
            (handleStreaming (fun _ _ => hello_generation) (fun _ => false)
               openai hi_messages $"chat-1")))
  = Some $"Hello!".
Proof.
  cbn zeta.
  assert (H1 : code_units $"chat-1") by (repeat constructor).
  assert (H2 : Forall code_units (deltas (yields hello_generation)))
    by (repeat constructor).
  split; [exact H1 | split; [exact H2 |]].
  exact (f_equal snd
           (@stream_round_trip
              {| Number_ToBoolean := fun _ => true; Number_toString := fun l => l |}
              (fun _ _ => hello_generation) (fun _ => false)
              openai hi_messages $"chat-1" H1 H2)).
Defined.

(** ** Reads that end where a line ends *)

Lemma utf8_lead_expects (d : TextDecoder) (b : N) :
  expects_continuation d -> expects_continuation (fst (utf8_lead d b)).
Proof.
  unfold expects_continuation, utf8_lead. intros H.
  repeat match goal with
         | |- context [if ?c then _ else _] => destruct c
         end; cbn [fst lower_boundary]; try assumption; lia.
Qed.

Lemma utf8_handler_expects (d : TextDecoder) (b : N) :
  expects_continuation d -> expects_continuation (fst (utf8_handler d b)).
Proof.
  intros H. unfold utf8_handler.
  destruct (bytes_needed d =? 0)%N; [now apply utf8_lead_expects|].
  destruct (negb _).
  - pose proof (@utf8_lead_expects (utf8_reset d) b) as H'.
    destruct (utf8_lead (utf8_reset d) b) as [d' out]. cbn [fst] in *.
    apply H'. unfold expects_continuation. cbn. lia.
  - destruct (_ =? _)%N; unfold expects_continuation; cbn; lia.
Qed.

Lemma serialize_boundaries (items : list N) (d : TextDecoder) :
  lower_boundary (fst (serialize d items)) = lower_boundary d /\
  bytes_needed (fst (serialize d items)) = bytes_needed d.
Proof.
  revert d; induction items as [|item items IH]; intros d; [split; reflexivity|].
  cbn [serialize].
  specialize (IH {| code_point := code_point d; bytes_seen := bytes_seen d;
                    bytes_needed := bytes_needed d;
                    lower_boundary := lower_boundary d;
                    upper_boundary := upper_boundary d; BOM_seen := true |}).
  destruct (serialize _ items) as [d' out]. cbn [fst lower_boundary bytes_needed] in IH.
  now destruct (negb (BOM_seen d) && (item =? 65279)%N).
Qed.

Lemma decode_stream_expects (value : bytes) (d : TextDecoder) :
  expects_continuation d -> expects_continuation (fst (decode_stream d value)).
Proof.
  revert d; induction value as [|b value IH]; intros d H; [exact H|].
  cbn [decode_stream].
  pose proof (utf8_handler_expects (N_of_byte b) H) as H1.
  destruct (utf8_handler d (N_of_byte b)) as [d1 items]. cbn [fst] in H1.
  pose proof (serialize_boundaries items d1) as [H2 _].
  destruct (serialize d1 items) as [d2 text]. cbn [fst] in H2.
  assert (H3 : expects_continuation d2) by (unfold expects_continuation in *; lia).
  specialize (IH d2 H3). now destruct (decode_stream d2 value).
Qed.

(** A line feed ends whatever sequence was pending: the text it decodes to
    ends with the line feed. *)
Lemma decode_line_feed (d : TextDecoder) :
  expects_continuation d ->
  exists d' t, decode_stream d [Byte.x0a] = (d', t ++ [10%N]).
Proof.
  intros H. cbn [decode_stream]. change (N_of_byte Byte.x0a) with 10%N.
  unfold utf8_handler.
  destruct (bytes_needed d =? 0)%N.
  - change (utf8_lead d 10) with (d, [10%N]). cbn [serialize].
    change (10 =? 65279)%N with false. rewrite andb_false_r.
    eexists _, []. reflexivity.
  - replace ((lower_boundary d <=? 10)%N) with false
      by (symmetry; apply N.leb_gt; unfold expects_continuation in H; lia).
    cbn [andb negb]. change (utf8_lead (utf8_reset d) 10) with (utf8_reset d, [10%N]).
    cbn [serialize]. change (10 =? 65279)%N with false.
    change (65533 =? 65279)%N with false. rewrite !andb_false_r.
    eexists _, [65533%N]. reflexivity.
Qed.

Lemma split_lines_LF (x y : jsstring) :
  split_lines (x ++ 10%N :: y) = split_lines x ++ split_lines y.
Proof.
  induction x as [|c x IH]; [reflexivity|].
  cbn [app split_lines]. rewrite IH.
  destruct (c =? 10)%N; [reflexivity|].
  destruct (split_lines x) as [|l ls] eqn:E; [|reflexivity].
  destruct x; cbn in E; [discriminate|].
  destruct (n =? 10)%N; [discriminate|]. now destruct (split_lines x).
Qed.

Section LineEnds.
Context {num : NumberConversions}.

Lemma handleSSELine_with_decoder (line : jsstring) (d : TextDecoder) (st : Consumer) :
  handleSSELine line consume_callbacks (with_decoder d st)
  = with_decoder d (handleSSELine line consume_callbacks st).
Proof.
  rewrite !handleSSELine_dispatch.
  destruct (line_data line) as [data|]; [|reflexivity].
  unfold dispatch.
  destruct (prop data $"type") as [type|]; [|reflexivity].
  cbn zeta.
  destruct (if match type with Some (JStr t) => JS.eqb t $"chat_metadata" | _ => false end
            then _ else None) as [id|]; [reflexivity|].
  destruct (if match type with Some (JStr t) => JS.eqb t $"content" | _ => false end
            then _ else None) as [c|]; [|reflexivity].
  cbn [consume_callbacks onContent].
  destruct (ToString c); reflexivity.
Qed.

Lemma consume_lines_with_decoder (lines : list jsstring) (d : TextDecoder) (st : Consumer) :
  consume_lines lines (with_decoder d st) = with_decoder d (consume_lines lines st).
Proof.
  revert st; induction lines as [|line lines IH]; intros st; [reflexivity|].
  unfold consume_lines in *. cbn [fold_left].
  now rewrite handleSSELine_with_decoder, IH.
Qed.

Lemma consume_lines_app (l l' : list jsstring) (st : Consumer) :
  consume_lines (l ++ l') st = consume_lines l' (consume_lines l st).
Proof. unfold consume_lines. apply fold_left_app. Qed.

Lemma consume_chunk_spec (st : Consumer) (value : bytes) :
  consume_chunk st value
  = with_decoder (fst (decode_stream (decoder st) value))
      (consume_lines (split_lines (snd (decode_stream (decoder st) value))) st).
Proof.
  unfold consume_chunk. destruct (decode_stream (decoder st) value) as [d text].
  cbn [fst snd]. fold (with_decoder d st).
  apply consume_lines_with_decoder.
Qed.

Lemma with_decoder_twice (d d' : TextDecoder) (st : Consumer) :
  with_decoder d (with_decoder d' st) = with_decoder d st.
Proof. reflexivity. Qed.

Lemma consume_lines_decoder (lines : list jsstring) (st : Consumer) :
  decoder (consume_lines lines st) = decoder st.
Proof. now destruct (consume_lines_effect lines st) as [H _]. Qed.

(** Two reads, the first of which ends with a line feed, are handled as
    one read of their bytes. *)
Lemma consume_chunk_after_line (st : Consumer) (a b : bytes) :
  expects_continuation (decoder st) ->
  consume_chunk (consume_chunk st (a ++ [Byte.x0a])) b
  = consume_chunk st ((a ++ [Byte.x0a]) ++ b).
Proof.
  intros Hok. rewrite !consume_chunk_spec.
  cbn [decoder with_decoder]. rewrite consume_lines_with_decoder.
  cbn [decoder with_decoder]. rewrite with_decoder_twice.
  rewrite (decode_stream_app (decoder st) (a ++ [Byte.x0a]) b).
  rewrite (decode_stream_app (decoder st) a [Byte.x0a]).
  pose proof (decode_stream_expects a Hok) as Hok1.
  destruct (decode_stream (decoder st) a) as [d1 t1]. cbn [fst] in Hok1.
  destruct (decode_line_feed Hok1) as (d2 & t & ->).
  cbn [fst snd].
  destruct (decode_stream d2 b) as [d3 t3]. cbn [fst snd].
  f_equal.
  replace ((t1 ++ t ++ [10%N]) ++ t3) with ((t1 ++ t) ++ 10%N :: t3)
    by (now rewrite <- !app_assoc).
  replace (t1 ++ t ++ [10%N]) with ((t1 ++ t) ++ 10%N :: []) by (now rewrite <- !app_assoc).
  rewrite !split_lines_LF, !consume_lines_app.
  cbn [split_lines]. f_equal.
Qed.

Lemma consume_chunk_empty (st : Consumer) : consume_chunk st [] = st.
Proof. now destruct st. Qed.

Lemma consume_chunk_expects (st : Consumer) (value : bytes) :
  expects_continuation (decoder st) ->
  expects_continuation (decoder (consume_chunk st value)).
Proof.
  intros H. rewrite consume_chunk_spec. cbn [decoder with_decoder].
  now apply decode_stream_expects.
Qed.

Lemma consume_aligned (parts : list bytes) :
  Forall line_aligned parts ->
  forall (st : Consumer) (last : bytes),
  expects_continuation (decoder st) ->
  fold_left consume_chunk (parts ++ [last]) st
  = consume_chunk st (List.concat parts ++ last).
Proof.
  induction 1 as [|p parts Hp _ IH]; intros st last Hok; [reflexivity|].
  cbn [app fold_left List.concat].
  rewrite IH by now apply consume_chunk_expects.
  destruct Hp as [-> | [a ->]].
  - now rewrite consume_chunk_empty.
  - rewrite consume_chunk_after_line by assumption. now rewrite <- !app_assoc.
Qed.

(** X2.  Where the reads cut the byte stream does not matter as long as
    every read but the last ends with a line feed (or is empty): the calls
    made and the text returned are those of a single read of all the
    bytes. *)
Theorem reads_cut_at_line_ends (parts : list bytes) (last : bytes) (failing : bool) :
  Forall line_aligned parts ->
  consumeSSEStream {| chunks := parts ++ [last]; fails := failing |}
  = consumeSSEStream {| chunks := [List.concat parts ++ last]; fails := failing |}.
Proof.
  intros H. unfold consumeSSEStream, consume_all. cbn [chunks fails fold_left].
  rewrite (consume_aligned H); [reflexivity|].
  unfold expects_continuation. cbn. lia.
Qed.

End LineEnds.

(** X2 on the sample frame, cut after its line and after the blank line
    that follows. *)
Lemma reads_cut_at_line_ends_witness :
  let num := {| Number_ToBoolean := fun _ => true; Number_toString := fun l => l |} in
  let line := wire "data: {'type':'content','content':'Hello'}" in
  Forall line_aligned [line ++ [Byte.x0a]; [Byte.x0a]] /\
  consumeSSEStream {| chunks := [line ++ [Byte.x0a]; [Byte.x0a]] ++ [[]]; fails := false |}
  = ([Call_onContent $"Hello"], Some $"Hello").
Proof.
  cbn zeta.
  assert (H : Forall line_aligned
                [wire "data: {'type':'content','content':'Hello'}" ++ [Byte.x0a];
                 [Byte.x0a]]).
  { constructor; [right; eexists; reflexivity|].
    constructor; [right; exists []; reflexivity|constructor]. }
  split; [exact H|].
  refine (eq_trans (@reads_cut_at_line_ends
             {| Number_ToBoolean := fun _ => true; Number_toString := fun l => l |}
             _ [] false H) _).
  vm_compute. reflexivity.
Defined.

(** ** Frames delivered several to a read *)

Lemma scalars_step (c : N) (rest : jsstring) :
  scalars_of_utf16 (c :: rest)
  = if is_high_surrogate c then
      match rest with
      | c2 :: rest' =>
          if is_low_surrogate c2
          then (65536 + N.shiftl (c - 55296) 10 + (c2 - 56320))%N :: scalars_of_utf16 rest'
          else 65533%N :: scalars_of_utf16 rest
      | [] => [65533%N]
      end
    else if is_low_surrogate c then 65533%N :: scalars_of_utf16 rest
    else c :: scalars_of_utf16 rest.
Proof. reflexivity. Qed.

Lemma scalars_line_feed (s : jsstring) :
  scalars_of_utf16 (s ++ [10%N]) = scalars_of_utf16 s ++ [10%N].
Proof.
  induction s as [ | a | a b l IHl IHbl ] using list_ind2.
  - reflexivity.
  - cbn. destruct (is_high_surrogate a); [reflexivity|].
    now destruct (is_low_surrogate a).
  - change ((a :: b :: l) ++ [10%N]) with (a :: (b :: l) ++ [10%N]).
    rewrite (scalars_step a ((b :: l) ++ [10%N])), (scalars_step a (b :: l)).
    rewrite IHbl. cbn [app]. rewrite IHl.
    destruct (is_high_surrogate a).
    + now destruct (is_low_surrogate b).
    + now destruct (is_low_surrogate a).
Qed.

Lemma encode_line_feed (s : jsstring) :
  TextEncoder_encode (s ++ [10%N]) = TextEncoder_encode s ++ [Byte.x0a].
Proof.
  unfold TextEncoder_encode. now rewrite scalars_line_feed, flat_map_app.
Qed.

Lemma frame_line_aligned (e : WireEvent) : line_aligned (frame e).
Proof.
  right.
  assert (H : forall json, exists a, sse json = a ++ [Byte.x0a]).
  { intros json. unfold sse, LF.
    exists (TextEncoder_encode ($"data: " ++ json ++ [10%N])).
    rewrite <- encode_line_feed. f_equal. now rewrite <- !app_assoc. }
  destruct e; apply H.
Qed.

Lemma line_aligned_app (p q : bytes) :
  line_aligned p -> line_aligned q -> line_aligned (p ++ q).
Proof.
  intros Hp [-> | [b ->]].
  - now rewrite app_nil_r.
  - right. exists (p ++ b). now rewrite app_assoc.
Qed.

Lemma line_aligned_concat (ps : list bytes) :
  Forall line_aligned ps -> line_aligned (List.concat ps).
Proof.
  induction 1 as [|p ps Hp _ IH]; [now left|].
  now apply line_aligned_app.
Qed.

Lemma Forall_concat_groups {A : Type} (P : A -> Prop) (groups : list (list A)) :
  Forall P (List.concat groups) -> Forall (Forall P) groups.
Proof.
  induction groups as [|g groups IH]; intros H; [constructor|].
  cbn [List.concat] in H. apply Forall_app in H as [Hg H]. constructor; auto.
Qed.

Section Batches.
Context {num : NumberConversions}.

(** Reads that all end at a line end are handled as one read. *)
Lemma consume_aligned_all (parts : list bytes) (st : Consumer) :
  Forall line_aligned parts ->
  expects_continuation (decoder st) ->
  fold_left consume_chunk parts st = consume_chunk st (List.concat parts).
Proof.
  intros H Hok.
  rewrite <- (app_nil_r (List.concat parts)), <- (consume_aligned H) by assumption.
  rewrite fold_left_app. cbn [fold_left]. now rewrite consume_chunk_empty.
Qed.

Lemma consume_regrouped (groups : list (list bytes)) (st : Consumer) :
  Forall line_aligned (List.concat groups) ->
  expects_continuation (decoder st) ->
  fold_left consume_chunk (map (@List.concat _) groups) st
  = fold_left consume_chunk (List.concat groups) st.
Proof.
  intros H Hok.
  rewrite !consume_aligned_all; try assumption.
  - f_equal. clear. induction groups as [|g groups IH]; [reflexivity|].
    cbn [map List.concat]. now rewrite concat_app, IH.
  - apply Forall_concat_groups in H.
    induction H as [|g groups Hg _ IH]; constructor; auto using line_aligned_concat.
Qed.

End Batches.

Lemma handleStreaming_line_aligned
    (createStreamingCompletion : AIProviderType -> list ChatMessage -> Generation)
    (addMessageToChat_throws : AddedMessage -> bool)
    (provider : AIProviderType) (messages : list ChatMessage) (activeChatId : jsstring) :
  Forall line_aligned
    (enqueued (handleStreaming createStreamingCompletion addMessageToChat_throws
                 provider messages activeChatId)).
Proof.
  rewrite handleStreaming_run. cbn zeta. cbn [enqueued].
  constructor; [apply frame_line_aligned|].
  apply Forall_app. split.
  - apply Forall_map, Forall_forall. intros; apply frame_line_aligned.
  - destruct (_ || _); [constructor|].
    constructor; [apply frame_line_aligned | constructor].
Qed.

(** X3.  The frames of a response may reach the client several to a read,
    in any grouping that keeps their order: the calls made and the text
    returned are those of the response read frame by frame. *)
Theorem frames_grouped_into_reads {num : NumberConversions}
    (createStreamingCompletion : AIProviderType -> list ChatMessage -> Generation)
    (addMessageToChat_throws : AddedMessage -> bool)
    (provider : AIProviderType) (messages : list ChatMessage) (activeChatId : jsstring)
    (groups : list (list bytes)) :
  let r := handleStreaming createStreamingCompletion addMessageToChat_throws
             provider messages activeChatId in
  List.concat groups = enqueued r ->
  consumeSSEStream {| chunks := map (@List.concat _) groups;
                      fails := fails (response_body r) |}
  = consumeSSEStream (response_body r).
Proof.
  cbn zeta. intros H.
  unfold consumeSSEStream, consume_all, response_body. cbn [chunks fails].
  rewrite <- H, consume_regrouped; [reflexivity| |].
  - rewrite H. apply handleStreaming_line_aligned.
  - unfold expects_continuation. cbn. lia.
Qed.

(** X3 at the end-to-end scenario, with the four frames in two reads. *)
Lemma frames_grouped_into_reads_witness :
  let num := {| Number_ToBoolean := fun _ => true; Number_toString := fun l => l |} in
  let r := handleStreaming (fun _ _ => hello_generation) (fun _ => false)
             openai hi_messages $"chat-1" in
  let groups := [firstn 3 (enqueued r); skipn 3 (enqueued r)] in
  List.concat groups = enqueued r /\
  consumeSSEStream {| chunks := map (@List.concat _) groups;
                      fails := fails (response_body r) |}
  = consumeSSEStream (response_body r).
Proof.
  cbn zeta.
  assert (H : forall l : list bytes, List.concat [firstn 3 l; skipn 3 l] = l).
  { intros l. cbn [List.concat]. rewrite app_nil_r. apply firstn_skipn. }
  split; [apply H|].
  exact (@frames_grouped_into_reads
           {| Number_ToBoolean := fun _ => true; Number_toString := fun l => l |}
           (fun _ _ => hello_generation) (fun _ => false)
           openai hi_messages $"chat-1" _ (H _)).
Defined.

(** ** Anthropic message normaliser *)

Lemma toAnthropic_fold (rest : list ChatMessage) (acc : AnthropicMessages) :
  let a := fold_left toAnthropic_step rest acc in
  anthropic_system a
    = fold_left instruction_append (system_contents rest) (anthropic_system acc) /\
  anthropic_messages a
    = anthropic_messages acc
      ++ map (fun m => {| a_role := role m; a_content := content m |})
           (filter (fun m => negb (is_system (role m))) rest).
Proof.
  revert acc; induction rest as [|m rest IH]; intros acc; cbn zeta.
  - cbn. now rewrite app_nil_r.
  - cbn [fold_left]. destruct (IH (toAnthropic_step acc m)) as [Hs Hm].
    rewrite Hs, Hm. unfold toAnthropic_step, system_contents. cbn [filter].
    destruct (is_system (role m)); cbn [negb map fold_left anthropic_system
                                          anthropic_messages].
    + split; reflexivity.
    + split; [reflexivity|]. now rewrite <- app_assoc.
Qed.

(** X4.  The Anthropic client is given, as messages, every message that is
    not a system message, in order, with its role and content unchanged,
    and none with the system role; the system messages go, in order, into
    the one system text, separated by a line feed once that text is not
    empty. *)
Theorem toAnthropicMessages_shape (messages : list ChatMessage) :
  let a := toAnthropicMessages messages in
  anthropic_system a = join LF (drop_empty (system_contents messages)) /\
  anthropic_messages a
    = map (fun m => {| a_role := role m; a_content := content m |})
        (filter (fun m => negb (is_system (role m))) messages) /\
  Forall (fun m => a_role m <> system) (anthropic_messages a) /\
  List.length (anthropic_messages a) + List.length (system_contents messages)
    = List.length messages.
Proof.
  cbn zeta. unfold toAnthropicMessages.
  destruct (toAnthropic_fold messages
              {| anthropic_system := $""; anthropic_messages := [] |}) as [Hs Hm].
  cbn [anthropic_system anthropic_messages app] in Hs, Hm.
  rewrite Hs, Hm, instruction_fold. unfold system_contents.
  repeat apply conj; try reflexivity.
  - apply Forall_map, Forall_forall. intros m Hin.
    apply filter_In in Hin as [_ Hin]. cbn [a_role].
    destruct (role m); [discriminate | congruence | congruence].
  - rewrite !length_map. clear Hs Hm.
    induction messages as [|m l IH]; [reflexivity|].
    cbn [filter]. destruct (is_system (role m)); cbn [negb List.length]; lia.
Qed.

Lemma removelast_snoc {A : Type} (l : list A) (x : A) : removelast (l ++ [x]) = l.
Proof. rewrite removelast_app by discriminate. cbn. apply app_nil_r. Qed.

(** X5.  Gemini and Claude are given the same conversation: the same
    system text and the same turns in the same order, the role assistant
    being called model on the Gemini side.  The one difference is that
    when the messages do not end with a user turn, Gemini is sent an empty
    user message after them. *)
Theorem gemini_and_anthropic_agree (messages : list ChatMessage) :
  let g := toGeminiMessages messages in
  let a := toAnthropicMessages messages in
  systemInstruction g = anthropic_system a /\
  gemini_conversation g
  = map gemini_turn (anthropic_messages a)
    ++ (if ends_with_user messages then []
        else [{| g_role := g_user; parts := [$""] |}]).
Proof.
  cbn zeta. unfold toGeminiMessages, toAnthropicMessages, gemini_conversation.
  destruct (toAnthropic_fold messages
              {| anthropic_system := $""; anthropic_messages := [] |}) as [Hs Hm].
  destruct (@toGemini_loop_spec (List.length messages) messages
              {| systemInstruction := $""; history := []; lastMessage := $"" |}
              0 eq_refl) as (Gs & Gh & Gl).
  cbn zeta in *.
  rewrite Hs, Hm, Gs, Gh, Gl.
  cbn [anthropic_system anthropic_messages systemInstruction history lastMessage app].
  split; [reflexivity|]. clear Hs Hm Gs Gh Gl.
  assert (Hturn : forall l : list ChatMessage,
            map relay l
            = map gemini_turn
                (map (fun m => {| a_role := role m; a_content := content m |}) l)).
  { intros l. rewrite map_map. apply map_ext. reflexivity. }
  destruct (ends_with_user messages) eqn:Hend.
  - destruct (rev messages) as [|m r] eqn:E.
    { unfold ends_with_user in Hend. rewrite E in Hend. discriminate. }
    assert (Hm' : messages = rev r ++ [m]).
    { rewrite <- (rev_involutive messages), E. reflexivity. }
    unfold ends_with_user in Hend. rewrite E in Hend.
    rewrite Hm'. rewrite removelast_snoc, last_last, filter_app, !map_app, app_nil_r.
    clear Hm' E. destruct m as [rm cm]. cbn [role] in Hend.
    destruct rm; try discriminate.
    cbn [filter role content is_system negb map app]. f_equal. apply Hturn.
  - f_equal. apply Hturn.
Qed.

(** ** The provider streams *)

Lemma yield_content_truthy (content : jsstring) :
  Forall (fun c => truthy (chunk_content c) = true) (yield_content content).
Proof.
  unfold yield_content. destruct (truthy content) eqn:E; repeat constructor. exact E.
Qed.

Lemma Forall_flat_map_intro {A B : Type} (P : B -> Prop) (f : A -> list B) (l : list A) :
  (forall x, Forall P (f x)) -> Forall P (flat_map f l).
Proof.
  intros H. induction l as [|x l IH]; [constructor|].
  cbn [flat_map]. apply Forall_app. auto.
Qed.

Lemma deltas_all (chunks : list StreamChunk) :
  Forall (fun c => truthy (chunk_content c) = true) chunks ->
  deltas chunks = map chunk_content chunks.
Proof.
  unfold deltas. induction 1 as [|c l Hc _ IH]; [reflexivity|].
  cbn [map filter]. now rewrite Hc, IH.
Qed.

Lemma provider_yields_truthy (env : ModelEnv)
    (openai_create : OpenAIParams -> SdkStream OpenAIChunk)
    (gemini_sendMessageStream : GeminiParams -> SdkStream jsstring)
    (anthropic_stream : AnthropicParams -> SdkStream AnthropicEvent)
    (provider : AIProviderType) (messages : list ChatMessage) (config : CompletionConfig) :
  Forall (fun c => truthy (chunk_content c) = true)
    (yields (createStreamingCompletion env openai_create gemini_sendMessageStream
               anthropic_stream provider messages config)).
Proof.
  destruct provider; cbn [createStreamingCompletion];
    unfold openaiStream, geminiStream, claudeStream; cbn [yields];
    apply Forall_flat_map_intro; intros x; try apply yield_content_truthy.
  destruct (claude_content x); [apply yield_content_truthy | constructor].
Qed.

(** X6.  Whichever provider is chosen, no chunk it yields is empty, so
    the handler relays every yielded chunk: one content frame for each,
    in order, between the metadata frame and the closing frame, and the
    text it keeps is all of them put together. *)
Theorem every_yield_is_relayed (env : ModelEnv)
    (openai_create : OpenAIParams -> SdkStream OpenAIChunk)
    (gemini_sendMessageStream : GeminiParams -> SdkStream jsstring)
    (anthropic_stream : AnthropicParams -> SdkStream AnthropicEvent)
    (addMessageToChat_throws : AddedMessage -> bool)
    (provider : AIProviderType) (messages : list ChatMessage) (activeChatId : jsstring) :
  let g := createStreamingCompletion env openai_create gemini_sendMessageStream
             anthropic_stream provider messages default_config in
  let r := handleStreaming
             (fun p ms => createStreamingCompletion env openai_create
                            gemini_sendMessageStream anthropic_stream p ms default_config)
             addMessageToChat_throws provider messages activeChatId in
  Forall (fun c => truthy (chunk_content c) = true) (yields g) /\
  enqueued r
  = frame (Ev_chat_metadata activeChatId)
    :: map (fun c => frame (Ev_content (chunk_content c))) (yields g)
    ++ match stream_state r with errored => [] | _ => [frame Ev_done] end /\
  fullResponse r = List.concat (map chunk_content (yields g)).
Proof.
  cbn zeta.
  pose proof (provider_yields_truthy env openai_create gemini_sendMessageStream
                anthropic_stream provider messages default_config) as Hall.
  split; [exact Hall|].
  rewrite handleStreaming_run. cbn zeta. cbn [enqueued stream_state fullResponse].
  rewrite (deltas_all Hall), map_map.
  split; [|reflexivity].
  now destruct (_ || _).
Qed.

(** ** The request handler *)

Lemma split_cons {A : Type} (x e : A) (l pre post : list A) :
  x :: l = pre ++ e :: post ->
  (pre = [] /\ e = x /\ post = l) \/
  (exists pre', pre = x :: pre' /\ l = pre' ++ e :: post).
Proof.
  destruct pre as [|y pre]; cbn [app]; intros H; injection H as -> ->; eauto.
Qed.

Lemma split_nil {A : Type} (e : A) (pre post : list A) : [] = pre ++ e :: post -> False.
Proof. destruct pre; discriminate. Qed.

(** Running a handler: its statements unfolded, then one case for each
    way its calls can end. *)
Ltac run :=
  repeat (progress (unfold and_then, await, settled, proceed, reply_with, checkRateLimit,
                      handleNonStreaming, handleStreaming_call);
          cbn [fst snd app]).

Ltac cases :=
  repeat (match goal with
          | |- context [match ?x with _ => _ end] =>
              lazymatch x with
              | context [match _ with _ => _ end] => fail
              | _ => destruct x eqn:?
              end
          end; cbn [fst snd app]);
  try match goal with
      | H : false = true |- _ => discriminate H
      | H : true = false |- _ => discriminate H
      end.

(** Every way a log with known entries splits around one of them. *)
Ltac splits H :=
  repeat (first
    [ apply split_nil in H; destruct H
    | apply split_cons in H; destruct H as [(-> & -> & ->) | (? & -> & H)] ]).

Section ChatRouteProperties.

Variable env : ProcessEnv.
Variable maxMessagesPerDay : N.
Variable getChatCountByUserId : jsstring -> N -> Exn + N.
Variable getChatById : jsstring -> Exn + option Chat.
Variable createChat : jsstring -> jsstring -> Exn + jsstring.
Variable addMessageToChat_result : AddedMessage -> Exn + unit.
Variable createCompletion : AIProviderType -> list ChatMessage -> Exn + jsstring.
Variable createStreamingCompletion : AIProviderType -> list ChatMessage -> Generation.

Lemma includes_provider_configured (provider : AIProviderType) :
  includes_provider (getAvailableProviders env) provider = configured env provider.
Proof.
  unfold includes_provider, getAvailableProviders, configured.
  destruct (truthy_opt (OPENAI_API_KEY env)), (truthy_opt (GEMINI_API_KEY env)),
    (truthy_opt (ANTHROPIC_API_KEY env)), provider; reflexivity.
Qed.

(** X7.  A request that is turned down, with status 400 or by the check
    of the session and of the daily limit, stores nothing and reaches no
    provider. *)
Theorem refused_request_touches_nothing
    (auth : Exn + option jsstring) (request_json : Exn + RequestBody) :
  refused (snd (POST env maxMessagesPerDay getChatCountByUserId getChatById createChat
                  addMessageToChat_result createCompletion createStreamingCompletion
                  auth request_json)) = true ->
  Forall (fun e => is_write e = false /\ is_provider_call e = false)
    (fst (POST env maxMessagesPerDay getChatCountByUserId getChatById createChat
            addMessageToChat_result createCompletion createStreamingCompletion
            auth request_json)).
Proof.
  unfold POST, POST_try. run. cases.
  all: cbn [refused N.eqb Pos.eqb]; intros H; try discriminate H.
  all: repeat constructor.
Qed.

(** X8.  A provider is called only for a signed-in user below the daily
    limit, and only when the API key of that provider is configured. *)
Theorem provider_called_only_when_allowed
    (auth : Exn + option jsstring) (request_json : Exn + RequestBody) (e : Effect) :
  In e (fst (POST env maxMessagesPerDay getChatCountByUserId getChatById createChat
               addMessageToChat_result createCompletion createStreamingCompletion
               auth request_json)) ->
  is_provider_call e = true ->
  exists userId chatCount provider messages,
    auth = inr (Some userId) /\ truthy userId = true /\
    getChatCountByUserId userId 24 = inr chatCount /\
    (chatCount < maxMessagesPerDay)%N /\
    provider_call e = Some (provider, messages) /\
    configured env provider = true.
Proof.
  unfold POST, POST_try. run. cases.
  all: cbn [In]; intros Hin Hcall.
  all: repeat (destruct Hin as [<- | Hin]; try discriminate Hcall); try destruct Hin.
  all: match goal with
       | H : negb (includes_provider _ _) = false |- _ =>
           apply negb_false_iff in H; rewrite includes_provider_configured in H
       end.
  all: match goal with H : (_ <=? _)%N = false |- _ => apply N.leb_gt in H end.
  all: repeat eexists; cbn [provider_call]; eauto.
Qed.

(** X9.  What a provider is sent is the system prompt, then the stored
    messages of the chat the request names, then the new message as a user
    turn; the provider is the one the request and the environment
    resolve to. *)
Theorem provider_prompt
    (auth : Exn + option jsstring) (request_json : Exn + RequestBody) (e : Effect)
    (provider : AIProviderType) (messages : list ChatMessage) :
  In e (fst (POST env maxMessagesPerDay getChatCountByUserId getChatById createChat
               addMessageToChat_result createCompletion createStreamingCompletion
               auth request_json)) ->
  provider_call e = Some (provider, messages) ->
  exists body message,
    request_json = inr body /\ body_message body = Some message /\
    provider = getActiveProvider env (body_provider body) /\
    messages
    = {| role := system; content := SYSTEM_PROMPT |}
      :: loaded_history getChatById (body_chatId body)
      ++ [{| role := user; content := message |}].
Proof.
  unfold POST, POST_try. run. cases.
  all: cbn [In]; intros Hin Hcall.
  all: repeat (destruct Hin as [<- | Hin]; try discriminate Hcall); try destruct Hin.
  all: cbn [provider_call] in Hcall; injection Hcall as <- <-.
  all: do 2 eexists; repeat apply conj; eauto.
  all: unfold loaded_history;
       repeat match goal with
              | H : body_chatId _ = _ |- _ => rewrite H; clear H
              | H : truthy _ = _ |- _ => rewrite H; clear H
              | H : getChatById _ = _ |- _ => rewrite H; clear H
              | H : chat_messages _ = _ |- _ => rewrite H; clear H
              end; reflexivity.
Qed.

(** X10.  When a provider is called, the new message has been stored
    before, once, as a user turn: added to the chat the request names, or
    as the first message of a new chat. *)
Theorem user_turn_stored_before_provider_call
    (auth : Exn + option jsstring) (request_json : Exn + RequestBody)
    (pre post : list Effect) (e : Effect) :
  fst (POST env maxMessagesPerDay getChatCountByUserId getChatById createChat
         addMessageToChat_result createCompletion createStreamingCompletion
         auth request_json) = pre ++ e :: post ->
  is_provider_call e = true ->
  exists body message stored,
    request_json = inr body /\ body_message body = Some message /\
    filter is_write pre = [stored] /\ stores_user_turn message stored.
Proof.
  unfold POST, POST_try. run. cases.
  all: intros Hlog Hcall; splits Hlog; try discriminate Hcall.
  all: repeat eexists; eauto; cbn; auto.
Qed.


(** X12.  A streamed answer belongs to the chat of the question: the
    stream opens with the metadata frame of the chat in which the new
    message was stored, and whatever the stream stores is the text it
    gathered, as an assistant turn of that chat. *)
Theorem stream_belongs_to_chat
    (auth : Exn + option jsstring) (request_json : Exn + RequestBody)
    (stream : Route) :
  snd (POST env maxMessagesPerDay getChatCountByUserId getChatById createChat
         addMessageToChat_result createCompletion createStreamingCompletion
         auth request_json) = createStreamingResponse stream ->
  exists body message userId stored activeChatId,
    request_json = inr body /\ body_message body = Some message /\
    auth = inr (Some userId) /\
    filter is_write
      (fst (POST env maxMessagesPerDay getChatCountByUserId getChatById createChat
              addMessageToChat_result createCompletion createStreamingCompletion
              auth request_json)) = [stored] /\
    (stored = Called_addMessageToChat {| added_chatId := activeChatId;
                                         added_role := $"user";
                                         added_content := message |} \/
     stored = Called_createChat userId message /\
     createChat userId message = inr activeChatId) /\
    hd_error (enqueued stream) = Some (frame (Ev_chat_metadata activeChatId)) /\
    Forall (fun m => m = {| added_chatId := activeChatId;
                            added_role := $"assistant";
                            added_content := fullResponse stream |})
      (added stream).
Proof.
  unfold POST, POST_try. run. cases.
  all: intros H; try discriminate H; injection H as <-.
  all: rewrite handleStreaming_run; cbn zeta;
       cbn [enqueued added fullResponse hd_error].
  all: do 5 eexists; repeat apply conj; eauto.
  all: try (right; split; [reflexivity | eassumption]).
  all: try (cbn [filter is_write]; reflexivity).
  all: match goal with |- Forall _ (if ?c then _ else _) => destruct c end;
       try constructor;
       try match goal with |- Forall _ (if ?c then _ else _) => destruct c end;
       repeat constructor.
Qed.


(** The JSON responses to a request for a stream carry no [message], and
    their status is 400 or 500. *)
Lemma POST_error_body
    (auth : Exn + option jsstring) (request : RequestBody)
    (body : JValue) (status : N) :
  body_streaming request = true ->
  snd (POST env maxMessagesPerDay getChatCountByUserId getChatById createChat
         addMessageToChat_result createCompletion createStreamingCompletion
         auth (inr request)) = NextResponse_json body status ->
  prop body $"message" = Some None /\ (status = 400 \/ status = 500)%N.
Proof.
  intros Hstreaming. unfold POST, POST_try. run. rewrite Hstreaming. cases.
  all: intros H; try discriminate H; injection H as <- <-.
  all: split; [reflexivity | auto].
Qed.

End ChatRouteProperties.

(** X7 for a visitor who is not signed in. *)
Lemma refused_request_touches_nothing_witness :
  refused (snd (sample_POST (inr None) false)) = true /\
  Forall (fun e => is_write e = false /\ is_provider_call e = false)
    (fst (sample_POST (inr None) false)).
Proof.
  unfold sample_POST.
  split; [reflexivity | apply refused_request_touches_nothing; reflexivity].
Defined.

(** X8 for the first question of a signed-in user. *)
Lemma provider_called_only_when_allowed_witness :
  let e := Called_createCompletion openai
             [ {| role := system; content := SYSTEM_PROMPT |};
               {| role := user; content := $"hi" |} ] in
  In e (fst (sample_POST (inr (Some $"u1")) false)) /\
  is_provider_call e = true /\
  configured sample_env openai = true.
Proof.
  cbn zeta. unfold sample_POST.
  match goal with |- ?A /\ ?B /\ _ =>
    assert (H1 : A) by (right; right; left; reflexivity);
    assert (H2 : B) by reflexivity
  end.
  split; [exact H1 | split; [exact H2 |]].
  destruct (@provider_called_only_when_allowed _ _ _ _ _ _ _ _ _ _ _ H1 H2)
    as (u & c & p & ms & _ & _ & _ & _ & Hcall & Hkey).
  injection Hcall as <- _. exact Hkey.
Defined.

(** X9 for the first question of a signed-in user. *)
Lemma provider_prompt_witness :
  let messages := [ {| role := system; content := SYSTEM_PROMPT |};
                    {| role := user; content := $"hi" |} ] in
  let e := Called_createCompletion openai messages in
  In e (fst (sample_POST (inr (Some $"u1")) false)) /\
  provider_call e = Some (openai, messages) /\
  openai = getActiveProvider sample_env None.
Proof.
  cbn zeta. unfold sample_POST.
  match goal with |- ?A /\ ?B /\ _ =>
    assert (H1 : A) by (right; right; left; reflexivity);
    assert (H2 : B) by reflexivity
  end.
  split; [exact H1 | split; [exact H2 |]].
  destruct (@provider_prompt _ _ _ _ _ _ _ _ _ _ _ _ _ H1 H2)
    as (body & message & Hbody & _ & Hp & _).
  injection Hbody as <-. exact Hp.
Defined.

(** X10 for the first question of a signed-in user. *)
Lemma user_turn_stored_before_provider_call_witness :
  let pre := [Called_getChatCountByUserId $"u1" 24; Called_createChat $"u1" $"hi"] in
  let e := Called_createCompletion openai
             [ {| role := system; content := SYSTEM_PROMPT |};
               {| role := user; content := $"hi" |} ] in
  let post := [Called_addMessageToChat {| added_chatId := $"chat-1";
                                          added_role := $"assistant";
                                          added_content := $"Hello!" |}] in
  fst (sample_POST (inr (Some $"u1")) false) = pre ++ e :: post /\
  is_provider_call e = true /\
  exists stored, filter is_write pre = [stored] /\ stores_user_turn $"hi" stored.
Proof.
  cbn zeta. unfold sample_POST.
  match goal with |- ?A /\ ?B /\ _ =>
    assert (H1 : A) by reflexivity;
    assert (H2 : B) by reflexivity
  end.
  split; [exact H1 | split; [exact H2 |]].
  destruct (@user_turn_stored_before_provider_call _ _ _ _ _ _ _ _ _ _ _ _ _ H1 H2)
    as (body & message & stored & Hbody & Hmessage & Hpre & Hstored).
  injection Hbody as <-. injection Hmessage as <-.
  exists stored. split; [exact Hpre | exact Hstored].
Defined.


(** X12 for the first question of a signed-in user, streamed. *)
Lemma stream_belongs_to_chat_witness :
  let stream := handleStreaming (fun _ _ => hello_generation) (fun _ => false) openai
                  [ {| role := system; content := SYSTEM_PROMPT |};
                    {| role := user; content := $"hi" |} ] $"chat-1" in
  snd (sample_POST (inr (Some $"u1")) true) = createStreamingResponse stream /\
  exists activeChatId,
    hd_error (enqueued stream) = Some (frame (Ev_chat_metadata activeChatId)).
Proof.
  cbn zeta. unfold sample_POST.
  match goal with |- ?A /\ _ => assert (H1 : A) by reflexivity end.
  split; [exact H1 |].
  destruct (@stream_belongs_to_chat _ _ _ _ _ _ _ _ _ _ _ H1)
    as (body & message & userId & stored & activeChatId & _ & _ & _ & _ & _ & Hhd & _).
  exists activeChatId. exact Hhd.
Defined.

(** ** The chat hook *)

Section ClientProperties.
Context {num : NumberConversions}.
Variable conversion_error : jsstring.


Lemma after_ui_calls_app (chatId : jsstring) (has_currentChat : bool)
    (l l' : list UiCall) (st : UseChat) :
  after_ui_calls chatId has_currentChat (l ++ l') st
  = after_ui_calls chatId has_currentChat l' (after_ui_calls chatId has_currentChat l st).
Proof. unfold after_ui_calls. apply fold_left_app. Qed.

(** The calls made while the stream is read leave the hook alone. *)
Lemma after_ui_calls_during (chatId : jsstring) (has_currentChat : bool)
    (calls : list Call) (st : UseChat) :
  after_ui_calls chatId has_currentChat (flat_map ui_callbacks calls) st = st.
Proof.
  revert st. induction calls as [|c calls IH]; intros st; [reflexivity|].
  change (flat_map ui_callbacks (c :: calls))
    with (ui_callbacks c ++ flat_map ui_callbacks calls).
  rewrite after_ui_calls_app, IH. now destruct c.
Qed.

(** What one run of the streaming message leaves of the hook: one call of
    [handleStreamingComplete], with the text read, or with the empty text
    when reading failed. *)
Lemma after_streaming_message (chatId : jsstring) (has_currentChat : bool)
    (stream : ReadableStream) (st : UseChat) :
  after_ui_calls chatId has_currentChat (snd (TextStreamingMessage false stream)) st
  = handleStreamingComplete chatId has_currentChat
      (Text match snd (consumeSSEStream stream) with
            | Some finalContent => finalContent
            | None => $""
            end) st.
Proof.
  unfold TextStreamingMessage.
  destruct (consumeSSEStream stream) as [calls [finalContent|]]; cbn [snd].
  - rewrite after_ui_calls_app, after_ui_calls_during. reflexivity.
  - rewrite after_ui_calls_app, after_ui_calls_during. reflexivity.
Qed.


(** X13.  Chat-id recovery never runs for a streamed text: whatever the
    stream holds, the streaming message completes with a text, so the hook
    refreshes the details of its own chat and of no other, and
    [extractChatIdFromContent] has no say in it. *)
Theorem recovery_never_runs_for_text (chatId : jsstring) (has_currentChat : bool)
    (stream : ReadableStream) (st : UseChat) :
  let done := after_ui_calls chatId has_currentChat
                (snd (TextStreamingMessage false stream)) st in
  hook_refreshed done = hook_refreshed st ++ [chatId] /\
  hook_isLoading done = false /\ hook_isStreaming done = false /\
  List.length (hook_chatHistory done) = List.length (hook_chatHistory st).
Proof.
  cbn zeta. rewrite after_streaming_message.
  unfold handleStreamingComplete.
  cbn [hook_refreshed hook_isLoading hook_isStreaming hook_chatHistory app].
  repeat apply conj; try reflexivity.
  unfold complete_last.
  destruct (rev (hook_chatHistory st)) as [|m before] eqn:E; [reflexivity|].
  destruct (msg_isStreaming m) as [[|]|]; try reflexivity.
  rewrite length_app, length_rev. cbn [List.length].
  rewrite <- (length_rev (hook_chatHistory st)), E. cbn [List.length]. lia.
Qed.

End ClientProperties.

Section EndToEnd.
Context {num : NumberConversions}.
Variable conversion_error : jsstring.
Variable env : ProcessEnv.
Variable maxMessagesPerDay : N.
Variable getChatCountByUserId : jsstring -> N -> Exn + N.
Variable getChatById : jsstring -> Exn + option Chat.
Variable createChat : jsstring -> jsstring -> Exn + jsstring.
Variable addMessageToChat_result : AddedMessage -> Exn + unit.
Variable createCompletion : AIProviderType -> list ChatMessage -> Exn + jsstring.
Variable createStreamingCompletion : AIProviderType -> list ChatMessage -> Generation.

(** X14.  The text the handler puts in a JSON error never reaches the
    user: when a message the hook sends is answered with a JSON response,
    the history gains the message and, as the reply, the default error
    message, and the hook stops loading. *)
Theorem handler_error_text_is_not_shown
    (auth : Exn + option jsstring) (chatId : jsstring) (st : UseChat)
    (fetched : RequestBody -> Exn + ClientResponse) (c : ClientResponse)
    (body : JValue) (status : N) :
  let userMessage := trim (hook_message st) in
  truthy userMessage = true -> hook_isLoading st = false -> truthy chatId = true ->
  snd (POST env maxMessagesPerDay getChatCountByUserId getChatById createChat
         addMessageToChat_result createCompletion createStreamingCompletion
         auth (inr (request_body userMessage chatId))) = NextResponse_json body status ->
  fetched (request_body userMessage chatId) = inr c ->
  delivered_as (NextResponse_json body status) c ->
  let sent := handleSendMessage conversion_error chatId fetched st in
  hook_chatHistory sent
  = hook_chatHistory st
    ++ [{| msg_type := type_user; msg_content := Text userMessage;
           msg_isStreaming := None; msg_stream := None |};
        {| msg_type := type_assistant; msg_content := Text defaultMessage;
           msg_isStreaming := None; msg_stream := None |}] /\
  hook_isLoading sent = false /\
  streaming_messages (hook_chatHistory sent) = streaming_messages (hook_chatHistory st).
Proof.
  cbn zeta. intros Hmessage Hloading Hchat Hpost Hfetched (Hok & Hstatus & Hjson).
  apply POST_error_body in Hpost as [Hprop Hcode]; [|reflexivity].
  assert (Hnot : response_ok c = false).
  { rewrite Hok. destruct Hcode as [-> | ->]; reflexivity. }
  assert (Hparse : parseErrorResponse c = JStr defaultMessage).
  { unfold parseErrorResponse. rewrite Hjson, Hprop, Hstatus.
    destruct Hcode as [-> | ->]; reflexivity. }
  unfold handleSendMessage.
  rewrite Hmessage, Hloading, Hchat. cbn [negb orb].
  rewrite Hfetched, Hnot, Hparse. cbn [negb].
  unfold Error_message. cbn [ToString].
  unfold push_message. cbn [hook_chatHistory hook_isLoading].
  rewrite <- app_assoc. cbn [app].
  repeat apply conj; try reflexivity.
  unfold streaming_messages. rewrite flat_map_app. cbn. apply app_nil_r.
Qed.


End EndToEnd.

(** X14 when the check of the session throws. *)
Lemma handler_error_text_is_not_shown_witness :
  let body := JObj [($"error", JStr $"Failed to process request");
                    ($"details", JStr $"Unknown error")] in
  let c := {| response_ok := false; response_status := 500;
              response_json := inr body; response_stream := None |} in
  snd (sample_server (inl None) (request_body $"hi" $"chat-1"))
  = NextResponse_json body 500 /\
  hook_chatHistory
    (handleSendMessage (num := sample_num) $"" $"chat-1" (fun _ => inr c) sample_hook)
  = [{| msg_type := type_user; msg_content := Text $"hi";
        msg_isStreaming := None; msg_stream := None |};
     {| msg_type := type_assistant; msg_content := Text defaultMessage;
        msg_isStreaming := None; msg_stream := None |}].
Proof.
  cbn zeta. unfold sample_server.
  match goal with |- ?A /\ _ => assert (H : A) by reflexivity end.
  split; [exact H|].
  refine (proj1 (@handler_error_text_is_not_shown sample_num $"" _ _ _ _ _ _ _ _
                   (inl None) $"chat-1" sample_hook _ _ _ _
                   eq_refl eq_refl eq_refl H eq_refl _)).
  repeat split.
Defined.


(** ** The routes of a chat *)

Ltac run_route :=
  repeat (progress (unfold and_then, await, settled, proceed, reply_with, destructured);
          cbn [fst snd app]).

Lemma includes_privacy_setting (privacy : JValue) (visibility : jsstring) :
  includes_privacy privacy = Some visibility ->
  privacy = JStr visibility /\ In visibility privacy_settings.
Proof.
  unfold includes_privacy. destruct privacy as [| | |s| |]; try discriminate.
  destruct (existsb (JS.eqb s) privacy_settings) eqn:E; [|discriminate].
  intros H. injection H as <-. split; [reflexivity|].
  apply existsb_exists in E as (x & Hx & Hs). apply eqb_eq in Hs. now subst.
Qed.

Lemma signed_in_truthy (session : option jsstring) (userId : jsstring) :
  signed_in session = Some userId -> session = Some userId /\ truthy userId = true.
Proof.
  unfold signed_in. destruct session as [id|]; [|discriminate].
  destruct (truthy id) eqn:E; [|discriminate]. intros H. injection H as <-. auto.
Qed.

Section ChatRoutesProperties.
Context {num : NumberConversions}.

Variable getChatById : jsstring -> Exn + option Chat.
Variable updateChatVisibility_result : jsstring -> jsstring -> Exn + unit.
Variable forkChat : JValue -> jsstring -> Exn + jsstring.
Variable null_error : jsstring.
Variable Date_toJSON : N -> jsstring.

(** X16.  Only its owner changes the visibility of a chat, and only to
    one of the five settings: whenever the route writes, the caller is
    signed in, the chat exists and belongs to the caller, and the one
    write sets the visibility of that chat to the setting the request
    names. *)
Theorem visibility_changed_only_by_owner
    (auth : Exn + option jsstring) (chatId : jsstring) (request_json : Exn + JValue)
    (e : Effect) :
  In e (fst (PATCH_visibility getChatById updateChatVisibility_result null_error
               auth chatId request_json)) ->
  is_write e = true ->
  exists userId chat body visibility,
    auth = inr (Some userId) /\ truthy userId = true /\
    getChatById chatId = inr (Some chat) /\ chat_user_id chat = userId /\
    request_json = inr body /\ prop body $"privacy" = Some (Some (JStr visibility)) /\
    In visibility privacy_settings /\
    e = Called_updateChatVisibility chatId visibility.
Proof.
  unfold PATCH_visibility, PATCH_visibility_try. run_route. cases.
  all: cbn [In]; intros Hin Hwrite.
  all: repeat (destruct Hin as [<- | Hin]; try discriminate Hwrite); try destruct Hin.
  all: repeat match goal with
       | H : signed_in _ = Some _ |- _ => apply signed_in_truthy in H as [-> ?]
       | H : includes_privacy _ = Some _ |- _ =>
           apply includes_privacy_setting in H as [-> ?]
       | H : negb _ = false |- _ => apply negb_false_iff in H
       | H : JS.eqb _ _ = true |- _ => apply eqb_eq in H
       end.
  all: try match goal with H : false = true |- _ => discriminate H end.
  all: repeat eexists; eauto.
Qed.

(** X17.  Who may read a chat: the route answers with the chat exactly
    when the chat exists and the caller is its owner or is not signed in
    at all; the visibility of the chat is not consulted, and makes no
    difference to the answer. *)
Theorem chat_read_access (auth : Exn + option jsstring) (chatId : jsstring) :
  ((exists body,
      snd (GET_chat getChatById Date_toJSON auth chatId) = NextResponse_json body 200)
   <-> exists session chat,
         auth = inr session /\ truthy chatId = true /\
         getChatById chatId = inr (Some chat) /\
         (signed_in session = None \/ signed_in session = Some (chat_user_id chat))) /\
  forall visibility : option jsstring,
    GET_chat (fun id => match getChatById id with
                        | inr (Some chat) => inr (Some (with_visibility visibility chat))
                        | other => other
                        end) Date_toJSON auth chatId
    = GET_chat getChatById Date_toJSON auth chatId.
Proof.
  split; [split|].
  - unfold GET_chat, GET_chat_try. run_route. cases.
    all: intros [body H]; try discriminate H.
    all: repeat match goal with
         | H : negb _ = false |- _ => apply negb_false_iff in H
         | H : negb _ = true |- _ => apply negb_true_iff in H
         | H : JS.eqb _ _ = true |- _ => apply eqb_eq in H
         end.
    all: do 2 eexists; repeat apply conj; eauto.
    all: try (right; congruence).
  - intros (session & chat & -> & Hid & Hchat & Haccess).
    unfold GET_chat, GET_chat_try. run_route. rewrite Hid, Hchat. cbn [negb fst snd].
    destruct Haccess as [-> | ->]; [eexists; reflexivity|].
    rewrite eqb_refl. cbn [negb]. eexists; reflexivity.
  - intros visibility. unfold GET_chat, GET_chat_try. run_route.
    destruct auth as [e|session]; [reflexivity|].
    destruct (negb (truthy chatId)); [reflexivity|].
    destruct (getChatById chatId) as [e|[chat|]]; cbn [fst snd]; try reflexivity.
    destruct (signed_in session) as [userId|]; cbn [with_visibility chat_user_id].
    + destruct (negb (JS.eqb (chat_user_id chat) userId)); reflexivity.
    + reflexivity.
Qed.

(** X18.  A visitor who is not signed in changes nothing: neither the
    visibility route nor the fork route makes a call that writes. *)
Theorem visitor_changes_nothing
    (session : option jsstring) (chatId : jsstring) (request_json : Exn + JValue) :
  signed_in session = None ->
  filter is_write
    (fst (PATCH_visibility getChatById updateChatVisibility_result null_error
            (inr session) chatId request_json)) = [] /\
  filter is_write
    (fst (POST_fork forkChat null_error (inr session) request_json)) = [].
Proof.
  intros Hsession. split.
  - unfold PATCH_visibility, PATCH_visibility_try. run_route. now rewrite Hsession.
  - unfold POST_fork, POST_fork_try. run_route. rewrite Hsession. cases; reflexivity.
Qed.

End ChatRoutesProperties.

(** X16 for the owner of the sample chat making it public. *)
Lemma visibility_changed_only_by_owner_witness :
  let PATCH := PATCH_visibility (fun _ => inr (Some sample_chat)) (fun _ _ => inr tt) $""
                 (inr (Some $"u1")) $"chat-1"
                 (inr (JObj [($"privacy", JStr $"public")])) in
  let e := Called_updateChatVisibility $"chat-1" $"public" in
  In e (fst PATCH) /\ is_write e = true /\ chat_user_id sample_chat = $"u1".
Proof.
  cbn zeta.
  match goal with |- ?A /\ ?B /\ _ =>
    assert (H1 : A) by (right; left; reflexivity);
    assert (H2 : B) by reflexivity
  end.
  split; [exact H1 | split; [exact H2 |]].
  destruct (@visibility_changed_only_by_owner _ _ _ _ _ _ _ H1 H2)
    as (userId & chat & body & visibility & Hauth & _ & Hchat & Howner & _).
  injection Hauth as <-. injection Hchat as <-. exact Howner.
Defined.

(** X18 for a visitor who asks to make the sample chat public, or to fork
    it. *)
Lemma visitor_changes_nothing_witness :
  signed_in None = None /\
  filter is_write
    (fst (PATCH_visibility (fun _ => inr (Some sample_chat)) (fun _ _ => inr tt) $""
            (inr None) $"chat-1" (inr (JObj [($"privacy", JStr $"public")])))) = [] /\
  filter is_write
    (fst (POST_fork (num := sample_num) (fun _ _ => inr $"chat-2") $""
            (inr None) (inr (JObj [($"privacy", JStr $"public")])))) = [].
Proof.
  split; [reflexivity|].
  apply (@visitor_changes_nothing sample_num (fun _ => inr (Some sample_chat))
           (fun _ _ => inr tt) (fun _ _ => inr $"chat-2") $"" None $"chat-1"
           (inr (JObj [($"privacy", JStr $"public")])) eq_refl).
Defined.

(** ** Message ids *)





(** ** The check of the environment *)

Lemma set_and_not_blank_truthy (value : option jsstring) :
  set_and_not_blank value = true -> truthy_opt value = true.
Proof.
  destruct value as [[|c s]|]; cbn; [discriminate | reflexivity | discriminate].
Qed.

Lemma not_blank_truthy (value : option jsstring) :
  unset_or_blank value = false -> truthy_opt value = true.
Proof.
  destruct value as [[|c s]|]; cbn; [discriminate | reflexivity | discriminate].
Qed.

(** X20.  A deployment that passes the check of the environment is one
    the rest of the code accepts: [hasEnvVars] holds of it, the API key of
    OpenAI or of Gemini is configured, whatever the Anthropic key is, and
    when no default provider is set, the provider a request that names
    none resolves to is a configured one. *)
Theorem checked_environment_is_served (env : SetupEnv) :
  hasAllRequiredEnvVars env = true ->
  hasEnvVars env = true /\
  (configured (provider_env env) openai = true \/
   configured (provider_env env) gemini = true) /\
  (AI_PROVIDER (provider_env env) = None ->
   configured (provider_env env) (getActiveProvider (provider_env env) None) = true).
Proof.
  unfold hasAllRequiredEnvVars, checkRequiredEnvVars, hasEnvVars, requiredVars.
  cbn [filter var_name]. 
  change (getenv env $"AUTH_SECRET") with (AUTH_SECRET env).
  change (getenv env $"POSTGRES_URL") with (POSTGRES_URL env).
  destruct (unset_or_blank (AUTH_SECRET env)) eqn:Ha;
    [destruct (unset_or_blank (POSTGRES_URL env)), (negb _); discriminate|].
  destruct (unset_or_blank (POSTGRES_URL env)) eqn:Hp;
    [destruct (negb _); discriminate|].
  destruct (set_and_not_blank (OPENAI_API_KEY (provider_env env))) eqn:Ho;
    [|destruct (set_and_not_blank (GEMINI_API_KEY (provider_env env))) eqn:Hg;
      [|discriminate]].
  all: intros _; cbn [orb negb].
  all: apply not_blank_truthy in Ha, Hp; rewrite Ha, Hp.
  - apply set_and_not_blank_truthy in Ho. rewrite Ho. cbn [orb andb configured].
    repeat apply conj; auto.
    intros Hdefault. unfold getActiveProvider. rewrite Hdefault, Ho. exact Ho.
  - apply set_and_not_blank_truthy in Hg. rewrite Hg, orb_true_r. cbn [andb configured].
    repeat apply conj; auto.
    intros Hdefault. unfold getActiveProvider. rewrite Hdefault, Hg.
    cbn [is_str option_map].
    destruct (truthy_opt (OPENAI_API_KEY (provider_env env))) eqn:Ho'; cbn [configured];
      assumption.
Qed.

(** X20 for the sample deployment. *)
Lemma checked_environment_is_served_witness :
  hasAllRequiredEnvVars sample_setup = true /\ hasEnvVars sample_setup = true.
Proof.
  assert (H : hasAllRequiredEnvVars sample_setup = true) by reflexivity.
  split; [exact H|]. exact (proj1 (checked_environment_is_served sample_setup H)).
Defined.

(** ** The queries on chats *)

Lemma has_id_true (chatId : jsstring) (c : Chat) :
  Queries.has_id chatId c = true <-> chat_id c = chatId.
Proof. unfold Queries.has_id. apply eqb_eq. Qed.

Lemma has_id_other (chatId other : jsstring) (c : Chat) :
  other <> chatId -> Queries.has_id other c = true -> Queries.has_id chatId c = false.
Proof.
  intros Hne Hc. apply has_id_true in Hc.
  destruct (Queries.has_id chatId c) eqn:E; [|reflexivity].
  apply has_id_true in E. congruence.
Qed.

(** Looking a chat up after an update that keeps the ids. *)
Lemma lookup_after_update (chatId other : jsstring) (set : Chat -> Chat)
    (rows : list Chat) :
  (forall c, chat_id (set c) = chat_id c) ->
  hd_error (filter (Queries.has_id other)
              (map (fun c => if Queries.has_id chatId c then set c else c) rows))
  = option_map (fun c => if Queries.has_id chatId c then set c else c)
      (hd_error (filter (Queries.has_id other) rows)).
Proof.
  intros Hset. induction rows as [|c rows IH]; [reflexivity|].
  cbn [map filter].
  assert (Hsame : Queries.has_id other (if Queries.has_id chatId c then set c else c)
                  = Queries.has_id other c).
  { unfold Queries.has_id at 1 3. destruct (Queries.has_id chatId c); [|reflexivity].
    now rewrite Hset. }
  rewrite Hsame. destruct (Queries.has_id other c); [reflexivity | exact IH].
Qed.

Lemma lookup_other_after_update (chatId other : jsstring) (set : Chat -> Chat)
    (rows : list Chat) :
  (forall c, chat_id (set c) = chat_id c) -> other <> chatId ->
  hd_error (filter (Queries.has_id other)
              (map (fun c => if Queries.has_id chatId c then set c else c) rows))
  = hd_error (filter (Queries.has_id other) rows).
Proof.
  intros Hset Hne. rewrite lookup_after_update by assumption.
  destruct (hd_error (filter (Queries.has_id other) rows)) as [c|] eqn:E; [|reflexivity].
  cbn [option_map].
  assert (Hc : Queries.has_id other c = true).
  { destruct (filter (Queries.has_id other) rows) as [|c' l] eqn:F; [discriminate|].
    injection E as ->.
    assert (Hin : In c (filter (Queries.has_id other) rows)) by (rewrite F; now left).
    now apply filter_In in Hin. }
  now rewrite (@has_id_other chatId other c Hne Hc).
Qed.

Lemma lookup_has_id (chatId : jsstring) (rows : list Chat) (c : Chat) :
  hd_error (filter (Queries.has_id chatId) rows) = Some c -> Queries.has_id chatId c = true.
Proof.
  intros E.
  destruct (filter (Queries.has_id chatId) rows) as [|c' l] eqn:F; [discriminate|].
  injection E as ->.
  assert (Hin : In c (filter (Queries.has_id chatId) rows)) by (rewrite F; now left).
  now apply filter_In in Hin.
Qed.

(** Counting after an update that keeps what the count looks at. *)
Lemma count_after_update (p : Chat -> bool) (f : Chat -> Chat) (rows : list Chat) :
  (forall c, p (f c) = p c) ->
  List.length (filter p (map f rows)) = List.length (filter p rows).
Proof.
  intros Hp. induction rows as [|c rows IH]; [reflexivity|].
  cbn [map filter]. rewrite Hp. destruct (p c); cbn [List.length]; now rewrite IH.
Qed.

(** X21.  A message added to a chat is read back: when the chat exists,
    [addMessageToChat] succeeds, the chat is then read with the message at
    the end of its messages and with the time of the update, and every
    other chat is read as before; when the chat does not exist, or the
    database is not initialised, the call throws and changes nothing. *)
Theorem added_message_is_read_back (chatId : jsstring) (as_role : Role)
    (text : jsstring) (now : N) (conn : Queries.Connection) :
  let after := fst (Queries.addMessageToChat chatId as_role text now conn) in
  let result := snd (Queries.addMessageToChat chatId as_role text now conn) in
  match Queries.getChatById chatId conn with
  | inr (Some chat) =>
      result = inr tt /\
      Queries.getChatById chatId after
      = inr (Some {| chat_id := chat_id chat;
                     chat_user_id := chat_user_id chat;
                     chat_name := chat_name chat;
                     chat_messages :=
                       Some (match chat_messages chat with Some msgs => msgs | None => [] end
                             ++ [{| role := as_role; content := text |}]);
                     chat_visibility := chat_visibility chat;
                     chat_demo_url := chat_demo_url chat;
                     chat_created_at := chat_created_at chat;
                     chat_updated_at := now |}) /\
      forall other, other <> chatId ->
        Queries.getChatById other after = Queries.getChatById other conn
  | inr None => result = inl (Queries.not_found chatId) /\ after = conn
  | inl e => result = inl e /\ after = conn
  end.
Proof.
  cbn zeta. unfold Queries.addMessageToChat.
  destruct conn as [db|]; cbn [Queries.getChatById]; [|auto].
  destruct (hd_error (filter (Queries.has_id chatId) (Queries.chats db))) as [chat|] eqn:E;
    cbn [fst snd]; [|auto].
  split; [reflexivity|].
  unfold Queries.update_chat. cbn [Queries.getChatById Queries.chats].
  split.
  - rewrite lookup_after_update by reflexivity. rewrite E. cbn [option_map].
    now rewrite (@lookup_has_id _ _ _ E).
  - intros other Hne. now rewrite lookup_other_after_update.
Qed.

(** X22.  Messages do not count toward the daily limit: the number
    [getChatCountByUserId] gives, for every user and every window, is the
    same after [addMessageToChat] as before, whether the call succeeds
    or throws; it counts the chats a user created, and a message creates
    none. *)
Theorem messages_do_not_count (chatId : jsstring) (as_role : Role) (text : jsstring)
    (now : N) (conn : Queries.Connection)
    (userId : jsstring) (differenceInHours asked : N) :
  Queries.getChatCountByUserId userId differenceInHours asked
    (fst (Queries.addMessageToChat chatId as_role text now conn))
  = Queries.getChatCountByUserId userId differenceInHours asked conn.
Proof.
  unfold Queries.addMessageToChat.
  destruct conn as [db|]; cbn [Queries.getChatById]; [|reflexivity].
  destruct (hd_error (filter (Queries.has_id chatId) (Queries.chats db))) as [chat|];
    cbn [fst]; [|reflexivity].
  unfold Queries.getChatCountByUserId, Queries.update_chat. cbn [Queries.chats].
  do 2 f_equal. apply count_after_update.
  intros c. now destruct (Queries.has_id chatId c).
Qed.

Lemma lookup_fresh (chatId : jsstring) (rows : list Chat) :
  existsb (Queries.has_id chatId) rows = false ->
  filter (Queries.has_id chatId) rows = [].
Proof.
  induction rows as [|c rows IH]; [reflexivity|].
  cbn [existsb filter]. intros H. apply orb_false_iff in H as [Hc Hrows].
  rewrite Hc. now apply IH.
Qed.

Lemma lookup_after_insert (other : jsstring) (rows : list Chat) (row : Chat) :
  existsb (Queries.has_id (chat_id row)) rows = false ->
  hd_error (filter (Queries.has_id other) (rows ++ [row]))
  = if JS.eqb (chat_id row) other then Some row
    else hd_error (filter (Queries.has_id other) rows).
Proof.
  intros Hfresh. rewrite filter_app. cbn [filter]. unfold Queries.has_id at 2.
  destruct (JS.eqb (chat_id row) other) eqn:E.
  - apply eqb_eq in E. subst other. now rewrite lookup_fresh.
  - now rewrite app_nil_r.
Qed.

Lemma users_include (userId : jsstring) (ids : list jsstring) :
  In userId ids -> existsb (JS.eqb userId) ids = true.
Proof.
  intros H. apply existsb_exists. exists userId. split; [exact H | apply eqb_refl].
Qed.

Lemma count_after_insert (p : Chat -> bool) (rows : list Chat) (row : Chat) :
  p row = true ->
  N.of_nat (List.length (filter p (rows ++ [row])))
  = (N.of_nat (List.length (filter p rows)) + 1)%N.
Proof.
  intros H. rewrite filter_app, length_app. cbn [filter]. rewrite H. cbn [List.length]. lia.
Qed.

Lemma insert_ownership_chats (row : Queries.Ownership) (db : Queries.Database) :
  Queries.chats (Queries.insert_ownership row db) = Queries.chats db.
Proof. unfold Queries.insert_ownership. now destruct (existsb _ _). Qed.

(** What [getChatById] and [getChatCountByUserId] give depends on the rows
    of [chats] alone. *)
Lemma reads_depend_on_chats (db db' : Queries.Database) :
  Queries.chats db' = Queries.chats db ->
  (forall chatId, Queries.getChatById chatId (Some db') = Queries.getChatById chatId (Some db)) /\
  (forall userId differenceInHours now,
     Queries.getChatCountByUserId userId differenceInHours now (Some db')
     = Queries.getChatCountByUserId userId differenceInHours now (Some db)).
Proof.
  intros H. unfold Queries.getChatById, Queries.getChatCountByUserId. now rewrite H.
Qed.

(** Reading after a message was added to a chat that exists. *)
Lemma addMessageToChat_reads (chatId : jsstring) (as_role : Role) (text : jsstring)
    (now : N) (db : Queries.Database) (chat : Chat) :
  Queries.getChatById chatId (Some db) = inr (Some chat) ->
  forall other,
    Queries.getChatById other
      (fst (Queries.addMessageToChat chatId as_role text now (Some db)))
    = if JS.eqb chatId other
      then inr (Some {| chat_id := chat_id chat;
                        chat_user_id := chat_user_id chat;
                        chat_name := chat_name chat;
                        chat_messages :=
                          Some (match chat_messages chat with
                                | Some msgs => msgs
                                | None => []
                                end ++ [{| role := as_role; content := text |}]);
                        chat_visibility := chat_visibility chat;
                        chat_demo_url := chat_demo_url chat;
                        chat_created_at := chat_created_at chat;
                        chat_updated_at := now |})
      else Queries.getChatById other (Some db).
Proof.
  intros Hchat other. unfold Queries.addMessageToChat. rewrite Hchat.
  cbn [Queries.getChatById] in Hchat. injection Hchat as Hchat.
  cbn [fst]. unfold Queries.update_chat. cbn [Queries.getChatById Queries.chats].
  destruct (JS.eqb chatId other) eqn:E.
  - apply eqb_eq in E. subst other.
    rewrite lookup_after_update by reflexivity. rewrite Hchat. cbn [option_map].
    now rewrite (@lookup_has_id _ _ _ Hchat).
  - apply eqb_neq in E. rewrite lookup_other_after_update; [reflexivity..|congruence].
Qed.

Section QueriesProperties.

Variable constraint_error : jsstring.

(** A row inserted under an id that is not taken, for a user of the table
    of users: the insertion succeeds, and the chats are then the chats of
    before and the row. *)
Lemma createChat_inserts (userId message chatId : jsstring) (now : N)
    (db : Queries.Database) :
  existsb (Queries.has_id chatId) (Queries.chats db) = false ->
  In userId (Queries.users db) ->
  exists db',
    Queries.createChat constraint_error userId message chatId now (Some db)
    = (Some db', inr chatId) /\
    Queries.chats db'
    = Queries.chats db
      ++ [{| chat_id := chatId; chat_user_id := userId;
             chat_name := Some (firstn 100 message);
             chat_messages := Some [{| role := user; content := message |}];
             chat_visibility := Some $"private"; chat_demo_url := None;
             chat_created_at := now; chat_updated_at := now |}].
Proof.
  intros Hfresh Huser.
  unfold Queries.createChat, Queries.insert_chat. cbn [chat_id chat_user_id].
  rewrite Hfresh, (users_include _ _ Huser). cbn [orb negb].
  eexists. split; [reflexivity|]. now rewrite insert_ownership_chats.
Qed.

(** X23.  A new chat holds the first exchange.  For an id that is not
    taken and a user of the table of users, [createChat] succeeds, and
    once the reply has been added the chat is read with the user's message
    and then the reply as its messages, the first hundred code units of
    the message as its name, the user as its owner, and the visibility
    private; every other chat is read as before, and the user's count of
    chats in a window that ends at the creation has grown by one. *)
Theorem new_chat_holds_first_exchange (userId message chatId reply : jsstring)
    (created answered differenceInHours : N) (db : Queries.Database) :
  existsb (Queries.has_id chatId) (Queries.chats db) = false ->
  In userId (Queries.users db) ->
  let creation :=
    Queries.createChat constraint_error userId message chatId created (Some db) in
  let after := fst (Queries.addMessageToChat chatId assistant reply answered (fst creation)) in
  snd creation = inr chatId /\
  Queries.getChatById chatId after
  = inr (Some {| chat_id := chatId;
                 chat_user_id := userId;
                 chat_name := Some (firstn 100 message);
                 chat_messages := Some [ {| role := user; content := message |};
                                         {| role := assistant; content := reply |} ];
                 chat_visibility := Some $"private";
                 chat_demo_url := None;
                 chat_created_at := created;
                 chat_updated_at := answered |}) /\
  (forall other, other <> chatId ->
     Queries.getChatById other after = Queries.getChatById other (Some db)) /\
  Queries.getChatCountByUserId userId differenceInHours created (fst creation)
  = match Queries.getChatCountByUserId userId differenceInHours created (Some db) with
    | inr n => inr (n + 1)%N
    | inl e => inl e
    end.
Proof.
  intros Hfresh Huser. cbn zeta.
  destruct (@createChat_inserts userId message chatId created db Hfresh Huser)
    as (db' & -> & Hchats).
  cbn [fst snd]. split; [reflexivity|].
  assert (Hrow : forall other,
            Queries.getChatById other (Some db')
            = inr (if JS.eqb chatId other
                   then Some {| chat_id := chatId; chat_user_id := userId;
                                chat_name := Some (firstn 100 message);
                                chat_messages := Some [{| role := user; content := message |}];
                                chat_visibility := Some $"private"; chat_demo_url := None;
                                chat_created_at := created; chat_updated_at := created |}
                   else hd_error (filter (Queries.has_id other) (Queries.chats db)))).
  { intros other. cbn [Queries.getChatById]. rewrite Hchats.
    now rewrite lookup_after_insert by exact Hfresh. }
  pose proof (Hrow chatId) as Hnew. rewrite eqb_refl in Hnew.
  pose proof (@addMessageToChat_reads chatId assistant reply answered db' _ Hnew) as Hadd.
  cbn [chat_id chat_user_id chat_name chat_messages chat_visibility chat_demo_url
       chat_created_at app] in Hadd.
  repeat apply conj.
  - rewrite Hadd, eqb_refl. reflexivity.
  - intros other Hne. rewrite Hadd, Hrow.
    destruct (JS.eqb chatId other) eqn:E; [apply eqb_eq in E; congruence | reflexivity].
  - cbn [Queries.getChatCountByUserId]. rewrite Hchats. f_equal.
    apply count_after_insert. cbn [chat_user_id chat_created_at].
    rewrite eqb_refl. cbn [andb]. apply Z.leb_le. unfold Queries.hoursAgo. lia.
Qed.

(** X24.  A fork copies the conversation and leaves the original alone.
    For a chat that exists, an id that is not taken and a user of the
    table of users, [forkChat] succeeds; the new chat is read with the
    messages of the original, the forking user as its owner, the
    visibility private and a name made from the name of the original; and
    every chat of before, the original among them, is read as before. *)
Theorem fork_copies_conversation (chatId userId newChatId : jsstring) (now : N)
    (db : Queries.Database) (original : Chat) :
  Queries.getChatById chatId (Some db) = inr (Some original) ->
  existsb (Queries.has_id newChatId) (Queries.chats db) = false ->
  In userId (Queries.users db) ->
  let after := fst (Queries.forkChat constraint_error chatId userId newChatId now (Some db)) in
  snd (Queries.forkChat constraint_error chatId userId newChatId now (Some db))
  = inr newChatId /\
  Queries.getChatById newChatId after
  = inr (Some {| chat_id := newChatId;
                 chat_user_id := userId;
                 chat_name := Some match chat_name original with
                                   | Some name =>
                                       if truthy name then $"Fork of " ++ name
                                       else $"Forked Chat"
                                   | None => $"Forked Chat"
                                   end;
                 chat_messages := Some match chat_messages original with
                                       | Some msgs => msgs
                                       | None => []
                                       end;
                 chat_visibility := Some $"private";
                 chat_demo_url := None;
                 chat_created_at := now;
                 chat_updated_at := now |}) /\
  newChatId <> chatId /\
  forall other, other <> newChatId ->
    Queries.getChatById other after = Queries.getChatById other (Some db).
Proof.
  intros Horiginal Hfresh Huser. cbn zeta.
  unfold Queries.forkChat. rewrite Horiginal.
  unfold Queries.insert_chat. cbn [chat_id chat_user_id].
  rewrite Hfresh, (users_include _ _ Huser). cbn [orb negb fst snd].
  cbn [Queries.getChatById]. rewrite !insert_ownership_chats. cbn [Queries.chats].
  repeat apply conj.
  - reflexivity.
  - rewrite lookup_after_insert by exact Hfresh. cbn [chat_id]. now rewrite eqb_refl.
  - intros ->. cbn [Queries.getChatById] in Horiginal. injection Horiginal as H.
    now rewrite lookup_fresh in H.
  - intros other Hne. rewrite lookup_after_insert by exact Hfresh. cbn [chat_id].
    destruct (JS.eqb newChatId other) eqn:E; [apply eqb_eq in E; congruence | reflexivity].
Qed.

End QueriesProperties.

(** X25.  A deleted chat is gone, and only that chat: after [deleteChat]
    the chat is read as missing, no ownership row names it, every other
    chat is read as before, and adding a message to it throws. *)
Theorem deleted_chat_is_gone (chatId : jsstring) (db : Queries.Database) :
  exists db',
    Queries.deleteChat chatId (Some db) = (Some db', inr tt) /\
    Queries.getChatById chatId (Some db') = inr None /\
    Forall (fun o => Queries.v0_chat_id o <> chatId) (Queries.chat_ownerships db') /\
    (forall other, other <> chatId ->
       Queries.getChatById other (Some db') = Queries.getChatById other (Some db)) /\
    forall as_role text now,
      Queries.addMessageToChat chatId as_role text now (Some db')
      = (Some db', inl (Queries.not_found chatId)).
Proof.
  eexists. split; [reflexivity|].
  assert (Hgone : forall rows,
            filter (Queries.has_id chatId)
              (filter (fun c => negb (Queries.has_id chatId c)) rows) = []).
  { induction rows as [|c rows IH]; [reflexivity|].
    cbn [filter]. destruct (Queries.has_id chatId c) eqn:E; cbn [negb]; [exact IH|].
    cbn [filter]. now rewrite E. }
  repeat apply conj.
  - cbn [Queries.getChatById Queries.chats]. now rewrite Hgone.
  - cbn [Queries.chat_ownerships]. apply Forall_forall. intros o Hin.
    apply filter_In in Hin as [_ Hin]. apply negb_true_iff, eqb_neq in Hin. exact Hin.
  - intros other Hne. cbn [Queries.getChatById Queries.chats]. do 2 f_equal.
    induction (Queries.chats db) as [|c rows IH]; [reflexivity|].
    cbn [filter]. destruct (Queries.has_id chatId c) eqn:E; cbn [negb filter].
    + destruct (Queries.has_id other c) eqn:E'; [|exact IH].
      apply has_id_true in E, E'. congruence.
    + now rewrite IH.
  - intros as_role text now. unfold Queries.addMessageToChat.
    cbn [Queries.getChatById Queries.chats]. now rewrite Hgone.
Qed.

(** X23 for a second chat of the user of the sample database. *)
Lemma new_chat_holds_first_exchange_witness :
  existsb (Queries.has_id $"chat-2") (Queries.chats sample_db) = false /\
  In $"u1" (Queries.users sample_db) /\
  snd (Queries.createChat $"" $"u1" $"hi" $"chat-2" 5 (Some sample_db)) = inr $"chat-2".
Proof.
  assert (H1 : existsb (Queries.has_id $"chat-2") (Queries.chats sample_db) = false)
    by reflexivity.
  assert (H2 : In $"u1" (Queries.users sample_db)) by (left; reflexivity).
  split; [exact H1 | split; [exact H2 |]].
  exact (proj1 (@new_chat_holds_first_exchange $"" $"u1" $"hi" $"chat-2" $"Hello!"
                  5 6 24 sample_db H1 H2)).
Defined.

(** X24 for a fork of the sample chat by its owner. *)
Lemma fork_copies_conversation_witness :
  Queries.getChatById $"chat-1" (Some sample_db) = inr (Some sample_chat) /\
  existsb (Queries.has_id $"chat-2") (Queries.chats sample_db) = false /\
  In $"u1" (Queries.users sample_db) /\
  snd (Queries.forkChat $"" $"chat-1" $"u1" $"chat-2" 5 (Some sample_db)) = inr $"chat-2".
Proof.
  assert (H0 : Queries.getChatById $"chat-1" (Some sample_db) = inr (Some sample_chat))
    by reflexivity.
  assert (H1 : existsb (Queries.has_id $"chat-2") (Queries.chats sample_db) = false)
    by reflexivity.
  assert (H2 : In $"u1" (Queries.users sample_db)) by (left; reflexivity).
  split; [exact H0 | split; [exact H1 | split; [exact H2 |]]].
  exact (proj1 (@fork_copies_conversation $"" $"chat-1" $"u1" $"chat-2" 5
                  sample_db sample_chat H0 H1 H2)).
Defined.

(** ** The projects of a user *)




(** ** A frame cut inside its line *)

(** *** [JSON.parse] on the beginning of a text *)

Lemma lex_all_app (s : lexst * pstate) (a b : jsstring) :
  lex_all s (a ++ b)
  = match lex_all s a with Some s' => lex_all s' b | None => None end.
Proof.
  revert s; induction a as [|c a IH]; intros s; cbn [app lex_all]; [reflexivity|].
  destruct (lex_step s c); [apply IH | reflexivity].
Qed.

Lemma complete_open (stack : list container) (v : JValue) (p : pstate) :
  complete stack v = Some p -> open_or_done p.
Proof.
  destruct stack as [|[es|ps|ps k] st]; cbn; intros H; try discriminate;
    injection H as <-; cbn; congruence.
Qed.

Lemma feed_open (p p' : pstate) (t : token) :
  open_or_done p -> feed p t = Some p' -> open_or_done p'.
Proof.
  destruct p as [stack e]. intros Hp H.
  destruct e; destruct t; cbn in H; try discriminate;
    try (apply complete_open in H; exact H);
    try (injection H as <-; cbn in *; congruence);
    unfold close_array, close_object, begin_member in H;
    destruct stack as [|[es|ps|ps k] st]; try discriminate;
    try (apply complete_open in H; exact H);
    injection H as <-; cbn; congruence.
Qed.

Lemma lex_start_open (p p' : pstate) (c : N) (l' : lexst) :
  open_or_done p -> lex_start p c = Some (l', p') -> open_or_done p'.
Proof.
  intros Hp. unfold lex_start, emit.
  repeat match goal with
         | |- context [if ?b then _ else _] => destruct b
         | |- context [match feed ?q ?t with _ => _ end] =>
             destruct (feed q t) eqn:?
         end;
    intros H; try discriminate; injection H as <- <-;
    solve [exact Hp | eapply feed_open; eauto].
Qed.

Lemma lex_step_open (l l' : lexst) (p p' : pstate) (c : N) :
  open_or_done p -> lex_step (l, p) c = Some (l', p') -> open_or_done p'.
Proof.
  intros Hp. unfold lex_step.
  destruct l as [|rest t|acc|acc|acc v n|st lexeme].
  - now apply lex_start_open.
  - destruct rest as [|x [|y rest]]; [discriminate| |];
      destruct (c =? x)%N; try discriminate.
    + unfold emit. destruct (feed p t) eqn:E; [|discriminate].
      intros H; injection H as <- <-. eapply feed_open; eauto.
    + intros H; injection H as <- <-. exact Hp.
  - unfold emit. destruct (c =? 34)%N.
    + destruct (feed p (TStr acc)) eqn:E; [|discriminate].
      intros H; injection H as <- <-. eapply feed_open; eauto.
    + destruct (c =? 92)%N; [intros H; injection H as <- <-; exact Hp|].
      destruct (c <? 32)%N; [discriminate|].
      intros H; injection H as <- <-; exact Hp.
  - destruct (unescape c); [intros H; injection H as <- <-; exact Hp|].
    destruct (c =? 117)%N; [|discriminate].
    intros H; injection H as <- <-; exact Hp.
  - destruct (hexval c); [|discriminate].
    destruct n as [|[|n]]; [discriminate| |];
      intros H; injection H as <- <-; exact Hp.
  - destruct (num_next st c); [intros H; injection H as <- <-; exact Hp|].
    destruct (num_complete st); [|discriminate].
    destruct (feed p (TNum lexeme)) eqn:E; [|discriminate].
    apply lex_start_open. eapply feed_open; eauto.
Qed.

Lemma lex_all_open (text : jsstring) (l l' : lexst) (p p' : pstate) :
  open_or_done p -> lex_all (l, p) text = Some (l', p') -> open_or_done p'.
Proof.
  revert l p; induction text as [|c text IH]; intros l p Hp; cbn [lex_all].
  - intros H; injection H as <- <-; exact Hp.
  - destruct (lex_step (l, p) c) as [[l1 p1]|] eqn:E; [|discriminate].
    apply IH. eapply lex_step_open; eauto.
Qed.

(** Once a whole value is read, nothing but white space is accepted. *)
Lemma lex_step_after_done (v : JValue) (l l' : lexst) (p' : pstate) (c : N) :
  lex_step (l, ([], EDone v)) c = Some (l', p') ->
  p' = ([], EDone v) /\ (l' = LStart -> l = LStart /\ is_json_ws c = true).
Proof.
  unfold lex_step.
  destruct l as [|rest t|acc|acc|acc w n|st lexeme].
  - unfold lex_start, emit. cbn [feed].
    destruct (is_json_ws c); [intros H; injection H as <- <-; auto|].
    repeat match goal with
           | |- context [if ?b then _ else _] => destruct b
           end;
      intros H; try discriminate; injection H as <- <-;
      (split; [reflexivity|discriminate]).
  - destruct rest as [|x [|y rest]]; [discriminate| |];
      destruct (c =? x)%N; try discriminate.
    intros H; injection H as <- <-; split; [reflexivity|discriminate].
  - unfold emit. cbn [feed]. destruct (c =? 34)%N; [discriminate|].
    destruct (c =? 92)%N;
      [intros H; injection H as <- <-; split; [reflexivity|discriminate]|].
    destruct (c <? 32)%N; [discriminate|].
    intros H; injection H as <- <-; split; [reflexivity|discriminate].
  - destruct (unescape c);
      [intros H; injection H as <- <-; split; [reflexivity|discriminate]|].
    destruct (c =? 117)%N; [|discriminate].
    intros H; injection H as <- <-; split; [reflexivity|discriminate].
  - destruct (hexval c); [|discriminate].
    destruct n as [|[|n]]; [discriminate| |];
      intros H; injection H as <- <-; (split; [reflexivity|discriminate]).
  - destruct (num_next st c);
      [intros H; injection H as <- <-; split; [reflexivity|discriminate]|].
    cbn [feed]. destruct (num_complete st); discriminate.
Qed.

Lemma lex_all_after_done (v : JValue) (text : jsstring) (l l' : lexst) (p' : pstate) :
  lex_all (l, ([], EDone v)) text = Some (l', p') ->
  lex_end (l', p') <> None ->
  forallb is_json_ws text = true.
Proof.
  assert (Hend : forall text l l' p',
             lex_all (l, ([], EDone v)) text = Some (l', p') ->
             p' = ([], EDone v) /\ (l' = LStart -> l = LStart /\ forallb is_json_ws text = true)).
  { clear. induction text as [|c text IH]; intros l l' p'; cbn [lex_all forallb].
    - intros H; injection H as <- <-. auto.
    - destruct (lex_step (l, ([], EDone v)) c) as [[l1 p1]|] eqn:E; [|discriminate].
      apply lex_step_after_done in E as [-> E]. intros H.
      apply IH in H as [-> H]. split; [reflexivity|].
      intros Hl'. destruct (H Hl') as [Hl1 Hws]. destruct (E Hl1) as [Hl Hc].
      now rewrite Hc, Hws. }
  intros H Hne. apply Hend in H as [-> H].
  destruct l'; cbn [lex_end feed] in Hne; try congruence.
  - now apply H.
  - destruct (num_complete st); congruence.
Qed.

(** An object that is not yet closed is not a value: [JSON.parse] throws
    on every beginning of a text that starts with a brace, parses, and
    does not end with white space. *)
Lemma proper_prefix_fails (q b : jsstring) (c : N) :
  JSON_parse (q ++ b ++ [c]) <> None -> is_json_ws c = false ->
  hd 0%N (q ++ b ++ [c]) = 123%N ->
  JSON_parse q = None.
Proof.
  intros Hparse Hc Hhd.
  destruct q as [|c0 q]; [reflexivity|].
  cbn [app hd] in Hhd. subst c0.
  unfold JSON_parse in *. cbn [app lex_all] in *.
  change (lex_step (LStart, ([], EValue)) 123%N)
    with (Some (LStart, ([FObj []], EKeyOrClose))) in *.
  cbn iota in *. rewrite lex_all_app in Hparse.
  destruct (lex_all (LStart, ([FObj []], EKeyOrClose)) q) as [[l p]|] eqn:E;
    [|reflexivity].
  apply lex_all_open in E as Hp; [|discriminate].
  destruct l as [|rest t|acc|acc|acc w n|st lexeme]; try reflexivity.
  - cbn [lex_end]. destruct p as [stack [ | | | | | |v]]; try reflexivity.
    cbn in Hp. subst stack. exfalso.
    match type of Hparse with
    | context [lex_all ?s ?t] => destruct (lex_all s t) as [[l' p']|] eqn:E'
    end; [|exact (Hparse eq_refl)].
    apply lex_all_after_done in E'.
    + rewrite forallb_app in E'. cbn in E'. rewrite Hc in E'.
      now rewrite andb_false_r in E'.
    + intros Hend. now rewrite Hend in Hparse.
  - cbn [lex_end]. destruct (num_complete st); [|reflexivity].
    destruct p as [stack e].
    destruct e; cbn [feed begin_value scalar]; try reflexivity;
      destruct stack as [|[es|ps|ps k] stack']; cbn in Hp |- *; congruence.
Qed.

(** *** [JSON.parse] on the end of a text *)

Lemma lex_start_outside (p p' : pstate) (c : N) (l' : lexst) :
  c <> 34%N -> lex_start p c = Some (l', p') -> outside_string l' = true.
Proof.
  intros Hc. unfold lex_start, emit.
  destruct (is_json_ws c); [intros H; injection H as <- <-; reflexivity|].
  repeat match goal with
         | |- context [if (c =? 34)%N then _ else _] =>
             destruct (N.eqb_spec c 34); [contradiction|]
         | |- context [if ?b then _ else _] => destruct b
         | |- context [match feed ?q ?t with _ => _ end] => destruct (feed q t)
         end;
    intros H; try discriminate; injection H as <- <-; reflexivity.
Qed.

Lemma num_next_punctuation (st : numst) (c : N) :
  c = 34%N \/ c = 92%N -> num_next st c = None.
Proof. intros [-> | ->]; now destruct st. Qed.

(** Outside a string, a reverse solidus is a syntax error, a quotation
    mark opens a string, and any other code unit leaves the scanner
    outside a string. *)
Lemma lex_step_outside (l l' : lexst) (p p' : pstate) (c : N) :
  outside_string l = true -> lex_step (l, p) c = Some (l', p') ->
  c <> 92%N /\ (c = 34%N -> l' = LString []) /\
  (c <> 34%N -> outside_string l' = true).
Proof.
  intros Hl H.
  assert (Hstart : forall q, lex_start q c = Some (l', p') ->
            c <> 92%N /\ (c = 34%N -> l' = LString []) /\
            (c <> 34%N -> outside_string l' = true)).
  { intros q Hq. repeat split.
    - intros ->. discriminate Hq.
    - intros ->. cbn in Hq. now injection Hq as <- _.
    - intros Hc. eapply lex_start_outside; eauto. }
  unfold lex_step in H.
  destruct l as [|rest t|acc|acc|acc w n|st lexeme]; try discriminate Hl.
  - eapply Hstart; eauto.
  - cbn [outside_string] in Hl.
    destruct rest as [|x [|y rest]]; [discriminate| |];
      cbn [forallb] in Hl; apply andb_true_iff in Hl as [Hx Hrest];
      apply andb_true_iff in Hx as [H34 H92];
      apply negb_true_iff in H34, H92; apply N.eqb_neq in H34, H92;
      destruct (N.eqb_spec c x) as [->|]; try discriminate.
    + unfold emit in H. destruct (feed p t); [|discriminate].
      injection H as <- <-. repeat split; auto. contradiction.
    + injection H as <- <-. repeat split; auto. contradiction.
  - destruct (num_next st c) eqn:E.
    + injection H as <- <-. repeat split; auto;
        intros ->; now rewrite num_next_punctuation in E by auto.
    + destruct (num_complete st); [|discriminate].
      destruct (feed p (TNum lexeme)); [|discriminate].
      eapply Hstart; eauto.
Qed.

Lemma lex_all_outside (x : jsstring) :
  forall (prev : N) (l l' : lexst) (p p' : pstate),
  outside_string l = true -> prev <> 92%N -> quotes_escaped prev x = true ->
  lex_all (l, p) x = Some (l', p') -> outside_string l' = true.
Proof.
  induction x as [|c x IH]; intros prev l l' p p' Hl Hprev Hx; cbn [lex_all].
  - intros H; injection H as <- <-; exact Hl.
  - cbn [quotes_escaped] in Hx. apply andb_true_iff in Hx as [Hc Hx].
    destruct (lex_step (l, p) c) as [[l1 p1]|] eqn:E; [|discriminate].
    apply lex_step_outside in E as (H92 & _ & H34); [|exact Hl].
    apply (IH c); [|exact H92|exact Hx].
    apply H34. intros ->. cbn in Hc. apply N.eqb_eq in Hc. contradiction.
Qed.

Lemma quotes_escaped_after (a b : jsstring) (prev c : N) :
  quotes_escaped prev (a ++ c :: b) = true -> quotes_escaped c b = true.
Proof.
  revert prev; induction a as [|x a IH]; intros prev; cbn [app quotes_escaped];
    intros H; apply andb_true_iff in H as [_ H]; [exact H | eauto].
Qed.

Lemma hex_digit_not_quote (d : N) : (hex_digit d =? 34)%N = false.
Proof. unfold hex_digit. destruct (d <? 10)%N; apply N.eqb_neq; lia. Qed.

(** [quote_body] writes a quotation mark only after a reverse solidus. *)
Lemma quote_body_escaped (s : jsstring) :
  forall prev, quotes_escaped prev (quote_body s) = true.
Proof.
  induction s as [s IH] using list_length_ind. intros prev.
  destruct s as [|c s]; [reflexivity|].
  destruct (quote_body_cases c s)
    as [ (e & -> & _) | [ (-> & _) | [ (-> & _ & H34 & _)
       | (c2 & s' & -> & Hh & Hl & ->) ] ] ].
  - cbn [app quotes_escaped]. change (92 =? 34)%N with false.
    change (92 =? 92)%N with true. rewrite orb_true_r. cbn [negb orb andb].
    apply IH. simpl; lia.
  - unfold unicode_escape. cbn [app quotes_escaped].
    rewrite !hex_digit_not_quote. cbn. apply IH. simpl; lia.
  - cbn [quotes_escaped]. apply N.eqb_neq in H34. rewrite H34. cbn [negb orb andb].
    apply IH. simpl; lia.
  - apply surrogate_bounds in Hh, Hl. cbn [quotes_escaped].
    replace (c =? 34)%N with false by (symmetry; apply N.eqb_neq; lia).
    replace (c2 =? 34)%N with false by (symmetry; apply N.eqb_neq; lia).
    cbn [negb orb andb]. apply IH. simpl; lia.
Qed.

Lemma punctuation_in_string (c : N) :
  punctuation c = true ->
  (c =? 34)%N = false /\ (c =? 92)%N = false /\ (c <? 32)%N = false /\
  is_trim_space c = false /\ c <> 32%N.
Proof.
  unfold punctuation. intros H.
  repeat (apply orb_true_iff in H as [H | H]);
    apply N.eqb_eq in H; subst c; repeat split; discriminate.
Qed.

Lemma lex_marks (marks : jsstring) (acc : jsstring) (p : pstate) :
  forallb punctuation marks = true ->
  lex_all (LString acc, p) marks = Some (LString (acc ++ marks), p).
Proof.
  revert acc; induction marks as [|c marks IH]; intros acc H; cbn [lex_all].
  - now rewrite app_nil_r.
  - cbn [forallb] in H. apply andb_true_iff in H as [Hc H].
    apply punctuation_in_string in Hc as (H34 & H92 & H32 & _).
    cbn [lex_step]. rewrite H34, H92, H32, (IH _ H), <- app_assoc. reflexivity.
Qed.

(** Read from inside a string, what follows a closing quotation mark
    never ends as a value: strings are read as punctuation and the
    punctuation as strings, and the end falls inside a string. *)
Lemma lex_after_string (rest : jsstring) :
  after_string rest ->
  forall (acc : jsstring) (p : pstate) (s : lexst * pstate),
  lex_all (LString acc, p) rest = Some s -> lex_end s = None.
Proof.
  induction 1 as [marks Hmarks | marks s0 rest Hmarks Hrest IH]; intros acc p s.
  - rewrite lex_marks by exact Hmarks. intros H; injection H as <-. reflexivity.
  - rewrite lex_all_app, lex_marks by exact Hmarks. cbn [lex_all].
    destruct (lex_step (LString (acc ++ marks), p) 34%N) as [[l1 p1]|] eqn:E1;
      [|discriminate].
    cbn in E1. unfold emit in E1.
    destruct (feed p (TStr (acc ++ marks))); [|discriminate].
    injection E1 as <- <-.
    rewrite lex_all_app.
    destruct (lex_all (LStart, p0) (quote_body s0)) as [[l2 p2]|] eqn:E2;
      [|discriminate].
    apply (@lex_all_outside _ 34%N) in E2;
      [|reflexivity|discriminate|apply quote_body_escaped].
    cbn [lex_all].
    destruct (lex_step (l2, p2) 34%N) as [[l3 p3]|] eqn:E3; [|discriminate].
    apply lex_step_outside in E3 as (_ & E3 & _); [|exact E2].
    rewrite (E3 eq_refl). apply IH.
Qed.

(** The text of an object of strings, after its first quotation mark. *)
Lemma stringify_members_shape (props : list (jsstring * jsstring)) :
  after_string
    (List.concat
       (map (fun c => [44%N] ++ c)
          (map (fun kv => QuoteJSONString (fst kv) ++ [58%N] ++ QuoteJSONString (snd kv))
             props))
     ++ [125%N]).
Proof.
  induction props as [|[k v] props IH].
  - now apply after_last_string.
  - cbn [map List.concat fst snd]. unfold QuoteJSONString.
    rewrite <- !app_assoc. cbn [app].
    apply (@after_inner_string [44%N]); [reflexivity|].
    apply (@after_inner_string [58%N]); [reflexivity|].
    exact IH.
Qed.

Lemma stringify_shape (props : list (jsstring * jsstring)) :
  after_string (JSON_stringify props).
Proof.
  unfold JSON_stringify. destruct props as [|[k v] props].
  - now apply after_last_string.
  - cbn [map fst snd]. rewrite join_cons. unfold QuoteJSONString.
    rewrite <- !app_assoc. cbn [app].
    apply (@after_inner_string [123%N]); [reflexivity|].
    apply (@after_inner_string [58%N]); [reflexivity|].
    apply stringify_members_shape.
Qed.

Lemma find_in_app {A : Type} (a b w u : list A) (c : A) :
  a ++ b = w ++ c :: u ->
  (exists a', a = w ++ c :: a' /\ u = a' ++ b) \/
  (exists w', w = a ++ w' /\ b = w' ++ c :: u).
Proof.
  revert w; induction a as [|x a IH]; intros w H.
  - right. exists w. auto.
  - destruct w as [|y w]; cbn [app] in H; injection H as -> H.
    + left. exists a. auto.
    + destruct (IH w H) as [(a' & -> & ->) | (w' & -> & ->)].
      * left. exists a'. auto.
      * right. exists w'. auto.
Qed.

(** A space in the text of an object of strings is inside a string: what
    follows it is the rest of that string, in which every quotation mark
    is escaped, its closing quotation mark, and what follows a string. *)
Lemma after_string_space (text : jsstring) :
  after_string text ->
  forall w u, text = w ++ 32%N :: u ->
  exists x rest, u = x ++ 34%N :: rest /\ quotes_escaped 32 x = true /\
                 after_string rest.
Proof.
  induction 1 as [marks Hmarks | marks s rest Hmarks Hrest IH]; intros w u H.
  - exfalso. rewrite H, forallb_app in Hmarks. cbn [forallb] in Hmarks.
    now rewrite andb_false_r in Hmarks.
  - apply find_in_app in H as [(a' & H & _) | (w1 & -> & H)].
    { exfalso. rewrite H, forallb_app in Hmarks. cbn [forallb] in Hmarks.
      now rewrite andb_false_r in Hmarks. }
    destruct w1 as [|c1 w1]; [discriminate|].
    cbn [app] in H. injection H as <- H.
    apply find_in_app in H as [(a' & H & ->) | (w2 & -> & H)].
    { exists a', rest. repeat split; [|exact Hrest].
      pose proof (quote_body_escaped s 0%N) as E. rewrite H in E.
      now apply quotes_escaped_after in E. }
    destruct w2 as [|c2 w2]; [discriminate|].
    cbn [app] in H. injection H as <- H.
    eapply IH; eauto.
Qed.

Lemma ends_with_last {A : Type} (P : A -> Prop) (l : list A) :
  forall a, Forall P (a :: l) -> exists body c, a :: l = body ++ [c] /\ P c.
Proof.
  induction l as [|x l IH]; intros a H.
  - exists [], a. inversion H; auto.
  - inversion H as [|? ? _ H']; subst.
    destruct (IH x H') as (body & c & -> & Hc).
    exists (a :: body), c. auto.
Qed.

(** A closing quotation mark and what follows it end with a code unit
    that [trim] leaves in place. *)
Lemma after_string_end (rest : jsstring) :
  after_string rest ->
  exists body c, 34%N :: rest = body ++ [c] /\ is_trim_space c = false.
Proof.
  induction 1 as [marks Hmarks | marks s rest Hmarks Hrest IH].
  - apply ends_with_last. constructor; [reflexivity|].
    apply Forall_forall. intros c Hc.
    rewrite forallb_forall in Hmarks.
    specialize (Hmarks c Hc).
    now apply punctuation_in_string in Hmarks as (_ & _ & _ & ? & _).
  - destruct IH as (body & c & E & Hc).
    exists ((34%N :: marks ++ 34%N :: quote_body s) ++ body), c.
    split; [|exact Hc].
    rewrite <- app_assoc, <- E. cbn [app]. rewrite <- ?app_assoc. reflexivity.
Qed.

(** *** [trim] *)

Lemma trimStart_split (s : jsstring) :
  exists ws, s = ws ++ trimStart s /\ forallb is_trim_space ws = true.
Proof.
  induction s as [|c s (ws & IH & Hws)]; [now exists []|].
  cbn [trimStart]. destruct (is_trim_space c) eqn:E.
  - exists (c :: ws). cbn [app forallb]. now rewrite <- IH, E, Hws.
  - now exists [].
Qed.

Lemma trimStart_stop (x y : jsstring) (c : N) :
  is_trim_space c = false -> trimStart (x ++ c :: y) = trimStart x ++ c :: y.
Proof.
  intros Hc. induction x as [|a x IH]; cbn [app trimStart].
  - now rewrite Hc.
  - now destruct (is_trim_space a).
Qed.

Lemma trimEnd_stop (body : jsstring) (c : N) :
  is_trim_space c = false -> trimEnd (body ++ [c]) = body ++ [c].
Proof.
  intros Hc. unfold trimEnd. rewrite rev_app_distr. cbn [rev app trimStart].
  rewrite Hc. cbn [rev]. now rewrite rev_involutive.
Qed.

Lemma trimEnd_split (s : jsstring) : exists ws, s = trimEnd s ++ ws.
Proof.
  unfold trimEnd. destruct (trimStart_split (rev s)) as (ws & H & _).
  exists (rev ws). rewrite <- rev_app_distr, <- H. now rewrite rev_involutive.
Qed.

Lemma quotes_escaped_spaces (ws x : jsstring) :
  forall prev, is_trim_space prev = true -> forallb is_trim_space ws = true ->
  quotes_escaped prev (ws ++ x) = true ->
  exists c, is_trim_space c = true /\ quotes_escaped c x = true.
Proof.
  induction ws as [|a ws IH]; intros prev Hprev Hws H.
  - now exists prev.
  - cbn [forallb] in Hws. apply andb_true_iff in Hws as [Ha Hws].
    cbn [app quotes_escaped] in H. apply andb_true_iff in H as [_ H].
    now apply (IH a).
Qed.

(** *** The parts of a line *)

Lemma startsWith_app (p s : jsstring) :
  startsWith p s = true -> exists q, s = p ++ q.
Proof.
  revert s; induction p as [|x p IH]; intros s H; [now exists s|].
  destruct s as [|y s]; [discriminate|]. cbn [startsWith] in H.
  apply andb_true_iff in H as [Hx H]. apply N.eqb_eq in Hx. subst y.
  destruct (IH s H) as (q & ->). now exists q.
Qed.

Lemma split_last {A : Type} (a q r : list A) (c : A) :
  a ++ [c] = q ++ r -> r <> [] -> exists r', r = r' ++ [c] /\ a = q ++ r'.
Proof.
  intros H Hr. destruct r as [|x r' _] using rev_ind; [contradiction|].
  rewrite app_assoc in H. apply app_inj_tail in H as [-> ->]. now exists r'.
Qed.

(** The beginning of a line: whatever it holds of the object is not
    closed. *)
Lemma beginning_no_data (props : list (jsstring * jsstring)) (pre r : jsstring) :
  $"data: " ++ JSON_stringify props = pre ++ r -> r <> [] ->
  line_data pre = None.
Proof.
  intros H Hr. unfold line_data.
  destruct (startsWith $"data: " pre) eqn:E; [|reflexivity].
  apply startsWith_app in E as (q & ->).
  rewrite <- app_assoc in H. apply app_inv_head in H.
  change (slice 6 ($"data: " ++ q)) with q.
  destruct q as [|c0 q]; [reflexivity|].
  pose proof (parse_stringify props) as Hparse. rewrite H in Hparse.
  unfold JSON_stringify in H. cbn [app] in H. injection H as <- H.
  apply split_last in H as (r' & -> & H); [|exact Hr].
  unfold trim. cbn [trimStart]. change (is_trim_space 123) with false. cbn iota.
  destruct (trimEnd_split (123%N :: q)) as (ws & Hws).
  destruct (truthy (trimEnd (123%N :: q))); [|reflexivity].
  apply (@proper_prefix_fails _ (ws ++ r') 125%N).
  - rewrite app_assoc, app_assoc, <- Hws, <- app_assoc.
    now rewrite Hparse.
  - reflexivity.
  - rewrite app_assoc, app_assoc, <- Hws. reflexivity.
Qed.

(** The end of a line: when it holds [data: ] at all, that is text of a
    string of the object, and what follows is read with strings and
    punctuation exchanged. *)
Lemma end_no_data (props : list (jsstring * jsstring)) (pre r : jsstring) :
  $"data: " ++ JSON_stringify props = pre ++ r -> pre <> [] ->
  line_data r = None.
Proof.
  intros H Hpre. unfold line_data.
  destruct (startsWith $"data: " r) eqn:E; [|reflexivity].
  apply startsWith_app in E as (u & ->).
  change (slice 6 ($"data: " ++ u)) with u.
  assert (Hu : JSON_stringify props = skipn 6 (pre ++ $"data:") ++ 32%N :: u).
  { apply (f_equal (skipn 6)) in H.
    change (skipn 6 ($"data: " ++ JSON_stringify props)) with (JSON_stringify props) in H.
    rewrite H.
    change ($"data: " ++ u) with ($"data:" ++ 32%N :: u).
    rewrite app_assoc, skipn_app.
    replace (6 - List.length (pre ++ $"data:")) with 0; [reflexivity|].
    rewrite length_app. change (List.length $"data:") with 5.
    destruct pre; [contradiction|]. cbn [List.length]. lia. }
  destruct (after_string_space (stringify_shape props) _ _ Hu)
    as (x & rest & -> & Hx & Hrest).
  destruct (trimStart_split x) as (ws & Hws & Hspaces).
  rewrite Hws in Hx.
  apply quotes_escaped_spaces in Hx as (c & Hc & Hx); [|reflexivity|exact Hspaces].
  destruct (after_string_end Hrest) as (body & last & Hbody & Hlast).
  unfold trim. rewrite trimStart_stop by reflexivity.
  rewrite Hbody, app_assoc, trimEnd_stop by exact Hlast.
  rewrite <- app_assoc, <- Hbody.
  replace (truthy (trimStart x ++ 34%N :: rest)) with true
    by (now destruct (trimStart x)).
  unfold JSON_parse. rewrite lex_all_app.
  destruct (lex_all (LStart, ([], EValue)) (trimStart x)) as [[l p]|] eqn:E1;
    [|reflexivity].
  apply (@lex_all_outside _ c) in E1; [|reflexivity| |exact Hx].
  - cbn [lex_all].
    destruct (lex_step (l, p) 34%N) as [[l1 p1]|] eqn:E2; [|reflexivity].
    apply lex_step_outside in E2 as (_ & E2 & _); [|exact E1].
    rewrite (E2 eq_refl).
    destruct (lex_all (LString [], p1) rest) as [s|] eqn:E3; [|reflexivity].
    now rewrite (lex_after_string Hrest _ _ E3).
  - intros ->. discriminate Hc.
Qed.

(** *** The decoder on the two reads *)

Lemma utf8_handler_BOM (d : TextDecoder) (b : N) :
  BOM_seen (fst (utf8_handler d b)) = BOM_seen d.
Proof.
  assert (Hlead : forall d, BOM_seen (fst (utf8_lead d b)) = BOM_seen d).
  { intros d0. unfold utf8_lead.
    repeat match goal with
           | |- context [if ?c then _ else _] => destruct c
           end; reflexivity. }
  unfold utf8_handler.
  destruct (bytes_needed d =? 0)%N; [apply Hlead|].
  destruct (negb _).
  - specialize (Hlead (utf8_reset d)).
    now destruct (utf8_lead (utf8_reset d) b).
  - now destruct (_ =? _)%N.
Qed.

Lemma serialize_BOM (items : list N) (d : TextDecoder) :
  BOM_seen d = true -> BOM_seen (fst (serialize d items)) = true.
Proof.
  revert d; induction items as [|item items IH]; intros d H; [exact H|].
  cbn [serialize].
  specialize (IH {| code_point := code_point d; bytes_seen := bytes_seen d;
                    bytes_needed := bytes_needed d;
                    lower_boundary := lower_boundary d;
                    upper_boundary := upper_boundary d; BOM_seen := true |} eq_refl).
  destruct (serialize _ items) as [d' out].
  now destruct (negb (BOM_seen d) && (item =? 65279)%N).
Qed.

Lemma decode_stream_BOM (value : bytes) (d : TextDecoder) :
  BOM_seen d = true -> BOM_seen (fst (decode_stream d value)) = true.
Proof.
  revert d; induction value as [|b value IH]; intros d H; [exact H|].
  cbn [decode_stream].
  pose proof (utf8_handler_BOM d (N_of_byte b)) as H1.
  destruct (utf8_handler d (N_of_byte b)) as [d1 items]. cbn [fst] in H1.
  pose proof (@serialize_BOM items d1) as H2.
  destruct (serialize d1 items) as [d2 text]. cbn [fst] in H2.
  specialize (IH d2). destruct (decode_stream d2 value).
  apply IH, H2. congruence.
Qed.

(** A byte after which the decoder is between characters has given a
    character, or U+FFFD. *)
Lemma utf8_handler_emits (d : TextDecoder) (b : N) :
  bytes_needed (fst (utf8_handler d b)) = 0%N -> snd (utf8_handler d b) <> [].
Proof.
  assert (Hlead : forall d, bytes_needed d = 0%N ->
            bytes_needed (fst (utf8_lead d b)) = 0%N -> snd (utf8_lead d b) <> []).
  { intros d0 H0. unfold utf8_lead.
    repeat match goal with
           | |- context [if ?c then _ else _] => destruct c
           end; cbn; congruence. }
  unfold utf8_handler.
  destruct (N.eqb_spec (bytes_needed d) 0) as [E|E]; [now apply Hlead|].
  destruct (negb _).
  - destruct (utf8_lead (utf8_reset d) b). discriminate.
  - destruct (_ =? _)%N; cbn; congruence.
Qed.

Lemma serialize_emits (items : list N) (d : TextDecoder) :
  BOM_seen d = true -> items <> [] -> snd (serialize d items) <> [].
Proof.
  intros H Hitems. destruct items as [|item items]; [contradiction|].
  cbn [serialize]. destruct (serialize _ items) as [d' out].
  rewrite H. cbn [negb andb snd]. unfold utf16_of_scalar.
  destruct (item <? 65536)%N; discriminate.
Qed.

(** Bytes after which the decoder is between characters have given
    text. *)
Lemma decode_stream_emits (value : bytes) :
  forall d, value <> [] -> BOM_seen d = true ->
  bytes_needed (fst (decode_stream d value)) = 0%N ->
  snd (decode_stream d value) <> [].
Proof.
  induction value as [|b value IH]; intros d Hv Hbom; [contradiction|].
  cbn [decode_stream].
  pose proof (utf8_handler_BOM d (N_of_byte b)) as H1.
  pose proof (@utf8_handler_emits d (N_of_byte b)) as H2.
  destruct (utf8_handler d (N_of_byte b)) as [d1 items]. cbn [fst snd] in H1, H2.
  assert (Hbom1 : BOM_seen d1 = true) by congruence.
  pose proof (@serialize_BOM items d1 Hbom1) as H3.
  pose proof (@serialize_emits items d1 Hbom1) as H4.
  pose proof (serialize_boundaries items d1) as [_ H5].
  destruct (serialize d1 items) as [d2 text]. cbn [fst snd] in H3, H4, H5.
  specialize (IH d2).
  destruct value as [|b' value].
  - cbn [decode_stream fst snd]. intros H0. rewrite app_nil_r.
    apply H4, H2. congruence.
  - destruct (decode_stream d2 (b' :: value)) as [d3 text'].
    cbn [fst snd] in *. intros H0.
    specialize (IH ltac:(discriminate) H3 H0).
    intros Happ. apply app_eq_nil in Happ as [_ Happ]. contradiction.
Qed.

Lemma split_lines_one_line (x : jsstring) :
  one_line x = true -> split_lines x = [x].
Proof.
  induction x as [|c x IH]; [reflexivity|].
  cbn [one_line forallb split_lines]. intros H.
  apply andb_true_iff in H as [Hc Hx]. apply negb_true_iff in Hc.
  now rewrite Hc, (IH Hx).
Qed.

(** What the two reads decode to, when a frame is cut after the first
    byte of its line and before the last: a beginning and an end of the
    line, neither empty. *)
Lemma cut_line_reads (props : list (jsstring * jsstring)) (a b : bytes) (bom : bool) :
  props_code_units props ->
  a ++ b = sse (JSON_stringify props) -> a <> [] -> 2 < List.length b ->
  exists d1 pre r,
    decode_stream (idle bom) a = (d1, pre) /\
    decode_stream d1 b = (idle true, r ++ [10; 10]%N) /\
    $"data: " ++ JSON_stringify props = pre ++ r /\ pre <> [] /\ r <> [].
Proof.
  intros Hp Hab Ha Hb.
  destruct (text_piece_stringify Hp) as [Hwf _].
  set (line := $"data: " ++ JSON_stringify props) in *.
  assert (Hline : decode_stream (idle bom) (TextEncoder_encode line) = (idle true, line)).
  { rewrite text_round_trip.
    - now rewrite orb_true_r.
    - unfold line. rewrite well_formed_ascii by reflexivity.
      specialize (Hwf []). now rewrite app_nil_r in Hwf.
    - right. cbn. lia. }
  assert (Hsse : sse (JSON_stringify props)
                 = (TextEncoder_encode line ++ [Byte.x0a]) ++ [Byte.x0a]).
  { unfold sse, LF. rewrite <- !encode_line_feed. f_equal.
    unfold line. now rewrite <- !app_assoc. }
  rewrite Hsse in Hab. symmetry in Hab.
  apply split_last in Hab as (b1 & -> & Hab); [|now destruct b].
  apply split_last in Hab as (c & -> & Hab);
    [|destruct b1 as [|? [|]]; cbn in Hb; [lia|lia|discriminate]].
  assert (Hc : c <> []) by (destruct c; [cbn in Hb; lia | discriminate]).
  rewrite Hab, decode_stream_app in Hline.
  destruct a as [|b0 a']; [contradiction|].
  assert (Hb0 : b0 = Byte.x64).
  { unfold line in Hab. change ($"data: " ++ JSON_stringify props)
      with (100%N :: $"ata: " ++ JSON_stringify props) in Hab.
    rewrite encode_ascii in Hab by reflexivity.
    cbn [app] in Hab. now injection Hab as <- _. }
  subst b0.
  assert (Hfirst : forall rest, decode_stream (idle bom) (Byte.x64 :: rest)
            = (fst (decode_stream (idle true) rest),
               100%N :: snd (decode_stream (idle true) rest))).
  { intros rest. cbn [decode_stream]. change (N_of_byte Byte.x64) with 100%N.
    rewrite utf8_handler_idle. change (utf8_lead (idle bom) 100) with (idle bom, [100%N]).
    cbn iota. rewrite serialize_one by (right; discriminate).
    now destruct (decode_stream (idle true) rest). }
  rewrite Hfirst in *.
  set (d1 := fst (decode_stream (idle true) a')) in *.
  set (t1 := snd (decode_stream (idle true) a')) in *.
  pose proof (@decode_stream_emits c d1 Hc (@decode_stream_BOM a' (idle true) eq_refl)) as Hemit.
  destruct (decode_stream d1 c) as [dc tc] eqn:Ec.
  injection Hline as -> Htext. cbn [fst snd] in Hemit.
  exists d1, (100%N :: t1), tc. repeat split.
  - rewrite <- app_assoc, decode_stream_app, Ec. reflexivity.
  - cbn [app]. rewrite Htext. reflexivity.
  - discriminate.
  - now apply Hemit.
Qed.

(** *** The consumer on the two reads *)

Section CutFrame.
Context {num : NumberConversions}.

(** Neither read of a frame cut inside its line makes a call, and the
    consumer is left as it was, between characters. *)
Lemma cut_line_no_calls (props : list (jsstring * jsstring)) (a b : bytes)
    (bom : bool) (acc : jsstring) (cs : list Call) :
  props_code_units props ->
  a ++ b = sse (JSON_stringify props) -> a <> [] -> 2 < List.length b ->
  consume_chunk (consume_chunk (reading bom acc cs) a) b = reading true acc cs.
Proof.
  intros Hp Hab Ha Hb.
  destruct (@cut_line_reads props a b bom Hp Hab Ha Hb)
    as (d1 & pre & r & E1 & E2 & Hline & Hpre & Hr).
  destruct (text_piece_stringify Hp) as [_ Hone].
  assert (Hone' : one_line (pre ++ r) = true).
  { rewrite <- Hline, one_line_app, Hone. reflexivity. }
  rewrite one_line_app in Hone'. apply andb_true_iff in Hone' as [Hone1 Hone2].
  unfold consume_chunk at 2. cbn [decoder reading accumulated calls]. rewrite E1.
  rewrite split_lines_one_line by exact Hone1.
  unfold consume_lines at 1. cbn [fold_left].
  rewrite handleSSELine_no_data by (eapply beginning_no_data; eauto).
  unfold consume_chunk. cbn [decoder accumulated calls]. rewrite E2.
  change (r ++ [10; 10]%N) with (r ++ 10%N :: [10%N]).
  rewrite split_one_line by exact Hone2.
  unfold consume_lines. cbn [split_lines fold_left]. change (10 =? 10)%N with true.
  cbn iota. cbn [fold_left].
  rewrite (@handleSSELine_no_data _ _ _ _ r) by (eapply end_no_data; eauto).
  rewrite !handleSSELine_no_data by reflexivity.
  reflexivity.
Qed.

Lemma dispatch_decoder (data : JValue) (st : Consumer) :
  decoder (dispatch data consume_callbacks st) = decoder st.
Proof.
  unfold dispatch, consume_callbacks. cbn [onChatData onContent].
  repeat match goal with
         | |- context [match ?x with _ => _ end] =>
             lazymatch x with
             | context [match _ with _ => _ end] => fail
             | _ => destruct x
             end
         end; reflexivity.
Qed.

(** Frames read whole, one to a read: what the consumer has accumulated
    and called afterwards does not depend on the byte order mark flag it
    started with. *)
Lemma consume_whole_frames (frames : list (list (jsstring * jsstring))) :
  Forall props_code_units frames ->
  forall (acc : jsstring) (cs : list Call),
  exists acc' cs', forall bom, exists bom',
    fold_left consume_chunk (map (fun props => sse (JSON_stringify props)) frames)
      (reading bom acc cs)
    = reading bom' acc' cs'.
Proof.
  induction 1 as [|props frames Hp _ IH]; intros acc cs.
  - exists acc, cs. intros bom. now exists bom.
  - set (st := dispatch (JObj (object_of props)) consume_callbacks (reading true acc cs)).
    destruct (IH (accumulated st) (calls st)) as (acc' & cs' & Hrest).
    exists acc', cs'. intros bom. destruct (Hrest true) as (bom' & E).
    exists bom'. cbn [map fold_left]. rewrite consume_sse by exact Hp.
    fold st. rewrite <- E. f_equal.
    pose proof (dispatch_decoder (JObj (object_of props)) (reading true acc cs)) as Hd.
    fold st in Hd. destruct st. cbn in Hd |- *. now rewrite Hd.
Qed.

(** A frame cut anywhere else, before its line or in the line feeds that
    end it, is handled as if it were read whole. *)
Lemma cut_outside_line (props : list (jsstring * jsstring)) (a b : bytes)
    (bom : bool) (acc : jsstring) (cs : list Call) :
  props_code_units props ->
  a ++ b = sse (JSON_stringify props) -> a = [] \/ List.length b <= 2 ->
  consume_chunk (consume_chunk (reading bom acc cs) a) b
  = consume_chunk (reading bom acc cs) (sse (JSON_stringify props)).
Proof.
  intros Hp Hab [-> | Hb].
  { rewrite consume_chunk_empty. now rewrite <- Hab. }
  destruct (text_piece_stringify Hp) as [Hwf Hone].
  set (line := $"data: " ++ JSON_stringify props) in *.
  assert (Hline : decode_stream (idle bom) (TextEncoder_encode line) = (idle true, line)).
  { rewrite text_round_trip.
    - now rewrite orb_true_r.
    - unfold line. rewrite well_formed_ascii by reflexivity.
      specialize (Hwf []). now rewrite app_nil_r in Hwf.
    - right. cbn. lia. }
  assert (Hsse : sse (JSON_stringify props)
                 = (TextEncoder_encode line ++ [Byte.x0a]) ++ [Byte.x0a]).
  { unfold sse, LF. rewrite <- !encode_line_feed. f_equal.
    unfold line. now rewrite <- !app_assoc. }
  destruct b as [|x [|y [|z b]]]; [| | |cbn in Hb; lia].
  - rewrite app_nil_r in Hab. subst a. apply consume_chunk_empty.
  - rewrite Hsse in Hab |- *. apply app_inj_tail in Hab as [-> ->].
    apply consume_chunk_after_line. unfold expects_continuation. cbn. lia.
  - rewrite Hsse in Hab.
    change (a ++ [x; y]) with (a ++ [x] ++ [y]) in Hab. rewrite app_assoc in Hab.
    apply app_inj_tail in Hab as [Hab ->]. apply app_inj_tail in Hab as [-> ->].
    rewrite consume_sse by exact Hp.
    rewrite (consume_chunk_spec (reading bom acc cs)). cbn [decoder reading].
    rewrite Hline. cbn [fst snd].
    rewrite split_lines_one_line by (unfold line; now rewrite one_line_app, Hone).
    unfold consume_lines at 1. cbn [fold_left].
    rewrite consume_chunk_spec. cbn [decoder with_decoder].
    change (decode_stream (idle true) [Byte.x0a; Byte.x0a])
      with (idle true, [10; 10]%N).
    cbn [fst snd split_lines]. change (10 =? 10)%N with true. cbn iota.
    unfold consume_lines. cbn [fold_left].
    rewrite !(@handleSSELine_no_data _ _ _ _ []) by reflexivity.
    rewrite with_decoder_twice, <- handleSSELine_with_decoder.
    change (with_decoder (idle true) _) with (reading true acc cs).
    unfold line. now rewrite handleSSELine_dispatch, line_data_stringify.
Qed.

(** X27.  A frame cut inside its line is lost, and nothing else is.  When
    the bytes of a frame arrive in two reads, the first holding at least
    one byte of the line and the second at least one more than the two
    line feeds, neither read makes a call or changes what is accumulated:
    the stream is consumed as if the frame had not been sent.  Cut
    anywhere else, the frame is handled as if it were read whole.  The
    frames before and after it, read whole, are handled as ever. *)
Theorem cut_frame_is_lost (before after : list (list (jsstring * jsstring)))
    (props : list (jsstring * jsstring)) (a b : bytes) (failing : bool) :
  Forall props_code_units before -> props_code_units props ->
  Forall props_code_units after ->
  a ++ b = sse (JSON_stringify props) ->
  (a <> [] -> 2 < List.length b ->
   consumeSSEStream
     {| chunks := map (fun props => sse (JSON_stringify props)) before
                  ++ a :: b :: map (fun props => sse (JSON_stringify props)) after;
        fails := failing |}
   = consumeSSEStream
       {| chunks := map (fun props => sse (JSON_stringify props)) (before ++ after);
          fails := failing |}) /\
  (a = [] \/ List.length b <= 2 ->
   consumeSSEStream
     {| chunks := map (fun props => sse (JSON_stringify props)) before
                  ++ a :: b :: map (fun props => sse (JSON_stringify props)) after;
        fails := failing |}
   = consumeSSEStream
       {| chunks := map (fun props => sse (JSON_stringify props))
                      (before ++ props :: after);
          fails := failing |}).
Proof.
  intros Hbefore Hp Hafter Hab.
  unfold consumeSSEStream, consume_all. cbn [chunks fails].
  change consume_start with (reading false [] []).
  rewrite !map_app, !fold_left_app.
  destruct (consume_whole_frames Hbefore [] []) as (acc1 & cs1 & H1).
  destruct (H1 false) as (bom1 & ->).
  cbn [map fold_left].
  destruct (consume_whole_frames Hafter acc1 cs1) as (acc2 & cs2 & H2).
  split.
  - intros Ha Hb. rewrite (@cut_line_no_calls props a b) by assumption.
    destruct (H2 true) as (bom2 & ->). destruct (H2 bom1) as (bom3 & ->).
    reflexivity.
  - intros Hcut. rewrite (@cut_outside_line props a b) by assumption.
    reflexivity.
Qed.

End CutFrame.

(** X27 for the response to "hi" of the sample provider, the frame of
    "Hello" cut after its eighteenth byte. *)
Lemma cut_frame_is_lost_witness :
  let num := {| Number_ToBoolean := fun _ => true; Number_toString := fun l => l |} in
  firstn 18 hello_frame ++ skipn 18 hello_frame
  = sse (JSON_stringify [($"type", $"content"); ($"content", $"Hello")]) /\
  consumeSSEStream
    {| chunks := [frame (Ev_chat_metadata $"chat-1");
                  firstn 18 hello_frame; skipn 18 hello_frame;
                  frame (Ev_content $"!"); frame Ev_done];
       fails := false |}
  = ([Call_onChatData (JStr $"chat-1"); Call_onContent $"!"], Some $"!").
Proof.
  cbn zeta.
  assert (H0 : Forall props_code_units
                 [[($"type", $"chat_metadata"); ($"id", $"chat-1"); ($"object", $"chat")]])
    by (repeat constructor).
  assert (H1 : props_code_units [($"type", $"content"); ($"content", $"Hello")])
    by (repeat constructor).
  assert (H2 : Forall props_code_units
                 [[($"type", $"content"); ($"content", $"!")]; [($"type", $"done")]])
    by (repeat constructor).
  assert (H3 : firstn 18 hello_frame ++ skipn 18 hello_frame
               = sse (JSON_stringify [($"type", $"content"); ($"content", $"Hello")]))
    by apply firstn_skipn.
  assert (H4 : firstn 18 hello_frame <> []) by discriminate.
  assert (H5 : 2 < List.length (skipn 18 hello_frame)) by (vm_compute; lia).
  split; [exact H3|].
  exact (eq_trans
           (proj1 (@cut_frame_is_lost
                     {| Number_ToBoolean := fun _ => true; Number_toString := fun l => l |}
                     _ _ _ _ _ false H0 H1 H2 H3) H4 H5)
           eq_refl).
Defined.

(** ** The chats a user is shown *)

Lemma newest_first_transitive : Relations_1.Transitive Queries.newest_first.
Proof. intros x y z. unfold Queries.newest_first. lia. Qed.

Lemma listing_rows (userId : jsstring) (db : Queries.Database) (rows : list Chat) :
  Queries.getChatsByUserId userId (Some db) (inr rows) <->
  Permutation rows
    (filter (fun c => JS.eqb (chat_user_id c) userId) (Queries.chats db)) /\
  Sorted Queries.newest_first rows.
Proof.
  split.
  - intros (rows' & E & H). injection E as <-. exact H.
  - intros H. exists rows. split; [reflexivity | exact H].
Qed.

(** The first row of a listing when a row was inserted that is newer than
    every other row of the user. *)
Lemma newest_row_first (own : Chat -> bool) (old rows : list Chat) (new : Chat) :
  Forall (fun c => own c = true -> (chat_created_at c < chat_created_at new)%N) old ->
  Permutation rows (filter own old ++ [new]) ->
  Sorted Queries.newest_first rows ->
  exists older,
    rows = new :: older /\ Permutation older (filter own old) /\
    Sorted Queries.newest_first older.
Proof.
  intros Hold Hperm Hsorted.
  destruct rows as [|h t].
  { apply Permutation_nil in Hperm. now destruct (filter own old). }
  assert (Hnew : In new (h :: t)).
  { eapply Permutation_in; [symmetry; exact Hperm|].
    apply in_or_app. right. now left. }
  assert (Hh : In h (filter own old ++ [new])).
  { eapply Permutation_in; [exact Hperm | now left]. }
  assert (E : h = new).
  { apply in_app_or in Hh as [Hh | [Hh | []]]; [|now symmetry].
    exfalso. apply filter_In in Hh as [Hin Hown].
    rewrite Forall_forall in Hold. specialize (Hold h Hin Hown).
    destruct Hnew as [E | Hnew]; [subst h; lia|].
    apply Sorted_extends in Hsorted; [|exact newest_first_transitive].
    rewrite Forall_forall in Hsorted. specialize (Hsorted new Hnew).
    unfold Queries.newest_first in Hsorted. lia. }
  subst h. exists t. repeat split.
  - apply Permutation_cons_inv with (a := new).
    etransitivity; [exact Hperm|]. symmetry. apply Permutation_cons_append.
  - now apply Sorted_inv in Hsorted.
Qed.

Section ListingProperties.

Variable constraint_error : jsstring.
Variable getChatsByUserId : jsstring -> Exn + list Chat.
Variable Date_toJSON : N -> jsstring.

(** X28.  The chat list shows a user all and only their own chats, the
    newest first.  A visitor is answered with an empty list and the
    database is not asked.  For a signed-in user the list is what the
    query resolves with, for the id of the session: each of its chats
    belongs to the user and every chat of the user is in it.  After
    [createChat], at a time later than the creation of the user's other
    chats, the new chat is the first of the list and the rest is a
    listing of before. *)
Theorem chat_list_shows_own_chats (db : Queries.Database) (userId : jsstring)
    (session : option jsstring) :
  (signed_in session = None ->
   GET_chats getChatsByUserId Date_toJSON (inr session)
   = ([], NextResponse_json (JObj [($"data", JArr [])]) 200)) /\
  (forall rows,
     signed_in session = Some userId ->
     getChatsByUserId userId = inr rows ->
     Queries.getChatsByUserId userId (Some db) (inr rows) ->
     GET_chats getChatsByUserId Date_toJSON (inr session)
     = ([Called_getChatsByUserId userId],
        NextResponse_json
          (JObj [($"data", JArr (map (listed_chat Date_toJSON) rows))]) 200) /\
     Forall (fun c => chat_user_id c = userId) rows /\
     (forall c, In c (Queries.chats db) -> chat_user_id c = userId -> In c rows) /\
     Sorted Queries.newest_first rows) /\
  (forall message chatId now rows,
     existsb (Queries.has_id chatId) (Queries.chats db) = false ->
     In userId (Queries.users db) ->
     Forall (fun c => chat_user_id c = userId -> (chat_created_at c < now)%N)
       (Queries.chats db) ->
     let created :=
       fst (Queries.createChat constraint_error userId message chatId now (Some db)) in
     Queries.getChatsByUserId userId created (inr rows) ->
     exists chat older,
       rows = chat :: older /\
       Queries.getChatById chatId created = inr (Some chat) /\
       Queries.getChatsByUserId userId (Some db) (inr older)).
Proof.
  repeat apply conj.
  - intros Hs. unfold GET_chats, GET_chats_try. run. now rewrite Hs.
  - intros rows Hs Hrows Hdb. apply listing_rows in Hdb as [Hperm Hsorted].
    repeat apply conj.
    + unfold GET_chats, GET_chats_try. run. now rewrite Hs, Hrows.
    + apply Forall_forall. intros c Hc.
      eapply Permutation_in in Hc; [|exact Hperm].
      apply filter_In in Hc as [_ Hc]. now apply eqb_eq in Hc.
    + intros c Hc Hown. eapply Permutation_in; [symmetry; exact Hperm|].
      apply filter_In. split; [exact Hc|]. subst userId. apply eqb_refl.
    + exact Hsorted.
  - intros message chatId now rows Hfresh Huser Hlater created Hrows.
    destruct (@createChat_inserts constraint_error userId message chatId now db Hfresh Huser)
      as (db' & Hcreate & Hchats).
    subst created. rewrite Hcreate in *. cbn [fst] in *.
    apply listing_rows in Hrows as [Hperm Hsorted].
    rewrite Hchats, filter_app in Hperm. cbn [filter chat_user_id] in Hperm.
    rewrite eqb_refl in Hperm.
    eapply newest_row_first in Hperm as (older & -> & Holder & Hsorted');
      [| |exact Hsorted].
    + eexists _, older. repeat split.
      * cbn [Queries.getChatById]. rewrite Hchats.
        rewrite lookup_after_insert by exact Hfresh.
        cbn [chat_id]. now rewrite eqb_refl.
      * apply listing_rows. split; assumption.
    + cbn [chat_created_at]. eapply Forall_impl; [|exact Hlater].
      intros c Hc Hown. apply Hc. now apply eqb_eq in Hown.
Qed.

End ListingProperties.

(** X28 for a chat made in the sample database for the message "hi". *)
Lemma chat_list_shows_own_chats_witness :
  existsb (Queries.has_id $"chat-2") (Queries.chats sample_db) = false /\
  In $"u1" (Queries.users sample_db) /\
  Forall (fun c => chat_user_id c = $"u1" -> (chat_created_at c < 1000)%N)
    (Queries.chats sample_db) /\
  (exists rows,
     Queries.getChatsByUserId $"u1"
       (fst (Queries.createChat $"" $"u1" $"hi" $"chat-2" 1000 (Some sample_db)))
       (inr rows)) /\
  forall rows,
    Queries.getChatsByUserId $"u1"
      (fst (Queries.createChat $"" $"u1" $"hi" $"chat-2" 1000 (Some sample_db)))
      (inr rows) ->
    exists chat older,
      rows = chat :: older /\
      Queries.getChatById $"chat-2"
        (fst (Queries.createChat $"" $"u1" $"hi" $"chat-2" 1000 (Some sample_db)))
      = inr (Some chat) /\
      Queries.getChatsByUserId $"u1" (Some sample_db) (inr older).
Proof.
  assert (H1 : existsb (Queries.has_id $"chat-2") (Queries.chats sample_db) = false)
    by reflexivity.
  assert (H2 : In $"u1" (Queries.users sample_db)) by (left; reflexivity).
  assert (H3 : Forall (fun c => chat_user_id c = $"u1" -> (chat_created_at c < 1000)%N)
                 (Queries.chats sample_db))
    by (repeat constructor).
  split; [exact H1 | split; [exact H2 | split; [exact H3 | split]]].
  { eexists. eexists. split; [reflexivity|]. split.
    - apply perm_swap.
    - repeat constructor; unfold Queries.newest_first; cbn; lia. }
  intros rows Hrows.
  exact (proj2 (proj2 (@chat_list_shows_own_chats $"" (fun _ => inr []) (fun _ => $"")
                         sample_db $"u1" None))
           $"hi" $"chat-2" 1000%N rows H1 H2 H3 Hrows).
Defined.
